(** * TuringBot: configuration store, module tree and note commands

    A shallow embedding of [core/config.ts], [core/modules.ts] and
    [src/modules/note.ts], with the properties of the specification stated
    and settled against it, and further properties of the code.

    The file has two parts: the embedding (values of the JavaScript
    runtime, the logger, the configuration store, the module class, the
    note handlers, the whois handler), then the lemmas and theorems. *)

From Stdlib Require Import String Ascii List ZArith NArith PeanoNat Bool Lia.
From Stdlib Require DecimalString DecimalN.
Import ListNotations.
Open Scope string_scope.
Open Scope list_scope.

Set Implicit Arguments.
Set Warnings "-register-all".

(* ================================================================== *)
(** * Part I: the embedding                                            *)
(* ================================================================== *)

(* ------------------------------------------------------------------ *)
(** ** Values and failures of the JavaScript runtime                   *)
(* ------------------------------------------------------------------ *)

Module JS.

(** A JavaScript value as the configuration code meets it: what
    [parseJSONC] builds (null, booleans, numbers, strings, arrays, plain
    objects), [undefined], and function objects (the three methods of
    [botConfig], and the builtins an object inherits from its prototype).
    An object is the list of its own properties in insertion order; numbers
    are integers, which is all a configuration path or an index needs. *)
Inductive value : Type :=
| VUndefined
| VNull
| VBool (b : bool)
| VNum (n : Z)
| VStr (s : string)
| VArr (elems : list value)
| VObj (props : list (string * value))
| VFunction (name : string).

(** An [Error] object: the two fields the code reads or sets. *)
Record JsError : Type := mkError { name : string; message : string }.

Definition TypeError (msg : string) : JsError := mkError "TypeError" msg.

(** How a piece of code ends: it returns, it throws (an async function
    rejects), or it steps on a part of the runtime that this development
    does not describe (a property of a builtin object). *)
Inductive outcome (A : Type) : Type :=
| Returned (a : A)
| Threw (e : JsError)
| OutOfModel.
Arguments Returned {A} a.
Arguments Threw {A} e.
Arguments OutOfModel {A}.

Definition bind {A B : Type} (c : outcome A) (k : A -> outcome B) : outcome B :=
  match c with
  | Returned a => k a
  | Threw e => Threw e
  | OutOfModel => OutOfModel
  end.

(** [ToBoolean]. *)
Definition truthy (v : value) : bool :=
  match v with
  | VUndefined | VNull => false
  | VBool b => b
  | VNum n => negb (Z.eqb n 0)
  | VStr s => negb (String.eqb s "")
  | VArr _ | VObj _ | VFunction _ => true
  end.

(** The string-keyed properties of [Object.prototype], which every plain
    object and every array inherits. *)
Definition Object_prototype_keys : list string :=
  [ "constructor"; "__defineGetter__"; "__defineSetter__"; "hasOwnProperty";
    "__lookupGetter__"; "__lookupSetter__"; "isPrototypeOf";
    "propertyIsEnumerable"; "toString"; "valueOf"; "__proto__";
    "toLocaleString" ].

(** Names that function objects (and the [Object] constructor) own or
    inherit.  A read of one of them from a function is out of the model;
    a read of any other name yields [undefined]. *)
Definition function_member_names : list string :=
  [ "length"; "name"; "prototype"; "apply"; "bind"; "call"; "caller";
    "arguments"; "assign"; "create"; "defineProperties"; "defineProperty";
    "entries"; "freeze"; "fromEntries"; "getOwnPropertyDescriptor";
    "getOwnPropertyDescriptors"; "getOwnPropertyNames";
    "getOwnPropertySymbols"; "getPrototypeOf"; "groupBy"; "hasOwn"; "is";
    "isExtensible"; "isFrozen"; "isSealed"; "keys"; "preventExtensions";
    "seal"; "setPrototypeOf"; "values" ] ++ Object_prototype_keys.

Definition mem (k : string) (l : list string) : bool :=
  existsb (String.eqb k) l.

(** Own-property lookup in a plain object. *)
Fixpoint own (k : string) (props : list (string * value)) : option value :=
  match props with
  | [] => None
  | (k', v) :: rest => if String.eqb k k' then Some v else own k rest
  end.

(** [ToString] of a non-negative integer, and the test for a canonical
    array index: the key is the decimal writing of a number. *)
Definition string_of_N (n : N) : string :=
  DecimalString.NilEmpty.string_of_uint (N.to_uint n).

Definition array_index (k : string) : option nat :=
  match DecimalString.NilEmpty.uint_of_string k with
  | Some u =>
      let n := N.of_uint u in
      if String.eqb (string_of_N n) k then Some (N.to_nat n) else None
  | None => None
  end.

Definition quote (s : string) : string := "'" ++ s ++ "'".

(** [k in v].  The right operand must be an object; own and inherited
    properties both count. *)
Definition js_in (k : string) (v : value) : outcome bool :=
  match v with
  | VObj props =>
      Returned (match own k props with
                | Some _ => true
                | None => mem k Object_prototype_keys
                end)
  | VArr elems =>
      match array_index k with
      | Some i => Returned (Nat.ltb i (List.length elems))
      | None =>
          if String.eqb k "length" then Returned true
          else if mem k Object_prototype_keys then Returned true
          else OutOfModel
      end
  | VFunction _ =>
      if mem k function_member_names then OutOfModel else Returned false
  | VUndefined | VNull | VBool _ | VNum _ | VStr _ =>
      Threw (TypeError ("Cannot use 'in' operator to search for " ++ quote k))
  end.

(** [v[k]]. *)
Definition js_get (v : value) (k : string) : outcome value :=
  match v with
  | VUndefined | VNull =>
      Threw (TypeError ("Cannot read properties of undefined or null (reading "
                        ++ quote k ++ ")"))
  | VObj props =>
      match own k props with
      | Some x => Returned x
      | None =>
          if String.eqb k "__proto__" then OutOfModel
          else if mem k Object_prototype_keys then Returned (VFunction k)
          else Returned VUndefined
      end
  | VArr elems =>
      match array_index k with
      | Some i => Returned (nth i elems VUndefined)
      | None =>
          if String.eqb k "length"
          then Returned (VNum (Z.of_nat (List.length elems)))
          else OutOfModel
      end
  | VFunction _ =>
      if mem k function_member_names then OutOfModel else Returned VUndefined
  | VBool _ | VNum _ | VStr _ => OutOfModel
  end.

(** Replace the value of an own property, keeping its place; append the
    property when the object does not own it. *)
Fixpoint put (k : string) (x : value) (props : list (string * value))
  : list (string * value) :=
  match props with
  | [] => [(k, x)]
  | (k', v) :: rest =>
      if String.eqb k k' then (k', x) :: rest else (k', v) :: put k x rest
  end.

(** Write at an index of an array: in range it replaces the element, past
    the end JavaScript extends the array (the holes read as [undefined]). *)
Fixpoint put_nth (i : nat) (x : value) (elems : list value) : list value :=
  match i, elems with
  | O, [] => [x]
  | O, _ :: rest => x :: rest
  | S j, [] => VUndefined :: put_nth j x []
  | S j, e :: rest => e :: put_nth j x rest
  end.

(** [v[k] = x] in strict mode (an ES module), as the value [v] becomes.
    Described here: a name written into a plain object, an index written
    into an array.  Not described, and answered with [OutOfModel]: the
    [length] of an array (the assignment coerces its value and truncates
    or extends the array), any other name on an array, [__proto__] (the
    assignment sets the prototype and writes no property), and the
    properties of a function. *)
Definition js_set (v : value) (k : string) (x : value) : outcome value :=
  match v with
  | VUndefined | VNull =>
      Threw (TypeError ("Cannot set properties of undefined or null (setting "
                        ++ quote k ++ ")"))
  | VBool _ | VNum _ | VStr _ =>
      Threw (TypeError ("Cannot create property " ++ quote k ++ " on a primitive"))
  | VObj props =>
      if String.eqb k "__proto__" then OutOfModel
      else Returned (VObj (put k x props))
  | VArr elems =>
      match array_index k with
      | Some i => Returned (VArr (put_nth i x elems))
      | None => OutOfModel
      end
  | VFunction _ => OutOfModel
  end.

End JS.

Export JS.

Declare Scope js_scope.
Delimit Scope js_scope with js.
Notation "x <- c ;; k" := (JS.bind c (fun x => k))
  (at level 61, c at next level, right associativity) : js_scope.
Open Scope js_scope.

(* ------------------------------------------------------------------ *)
(** ** core/logger.ts (interface)                                      *)
(* ------------------------------------------------------------------ *)

Module EventCategory.
Inductive t : Type := Info | Warning | Error.
Definition eqb (a b : t) : bool :=
  match a, b with
  | Info, Info | Warning, Warning | Error, Error => true
  | _, _ => false
  end.
End EventCategory.

Module Logger.

Record EventInfo : Type := mkEvent {
  category : EventCategory.t;
  location : string;
  description : string
}.

(** One call of [eventLogger.logEvent(event, verbosity)]. *)
Record LogRecord : Type := mkRecord { event : EventInfo; verbosity : nat }.

(** Modelled from the spec: [logger.ts] is not among the sources.  The
    sink is fire-and-forget and never throws (spec, section 6); a call is
    kept as one record at the end of the log. *)
Definition logEvent (e : EventInfo) (v : nat) (log : list LogRecord)
  : list LogRecord :=
  log ++ [mkRecord e v].

Definition count (c : EventCategory.t) (log : list LogRecord) : nat :=
  List.length (filter (fun r => EventCategory.eqb (category (event r)) c) log).

End Logger.

(* ------------------------------------------------------------------ *)
(** ** core/config.ts                                                  *)
(* ------------------------------------------------------------------ *)

(** [Segment] and [JSONPath] of jsonc-parser: a property name, or a
    number (from 0) for an array index. *)
Inductive Segment : Type :=
| SegStr (s : string)
| SegNum (n : N).

Definition JSONPath : Type := list Segment.

(** [ToPropertyKey] of a segment. *)
Definition key_of (s : Segment) : string :=
  match s with
  | SegStr k => k
  | SegNum n => JS.string_of_N n
  end.

(** The part of jsonc-parser that [config.ts] imports.  [parse] is the
    library's fault-tolerant parser: it never throws, returns the value it
    could build ([undefined] when it built none) and reports syntax errors
    only through its optional second argument, which [config.ts] does not
    pass; [parse_errors] counts what that argument would receive.  [modify]
    computes the edits that set a path to a value in a text (it throws on
    a path it cannot place), [applyEdits] applies them. *)
Class Jsonc : Type := {
  Edit : Type;
  parse : string -> value;
  parse_errors : string -> nat;
  modify : string -> JSONPath -> value -> outcome (list Edit);
  applyEdits : string -> list Edit -> string
}.

(** What the event loop still has to run for an edit: [readFile]'s
    callback with the captured arguments, then [writeFile] and its
    callback with the patched text. *)
Inductive Task : Type :=
| ReadFileTask (location : JSONPath) (newValue : value)
| WriteFileTask (newConfig : string).

(** The process state the configuration code acts on: the [botConfig]
    object, the file at [CONFIG_LOCATION] ([None]: no such file), the
    logger's records and the callbacks node has queued. *)
Record World : Type := mkWorld {
  botConfig : value;
  configFile : option string;
  eventLog : list Logger.LogRecord;
  pending : list Task
}.

Definition set_botConfig (cfg : value) (w : World) : World :=
  mkWorld cfg (configFile w) (eventLog w) (pending w).

Definition set_configFile (f : option string) (w : World) : World :=
  mkWorld (botConfig w) f (eventLog w) (pending w).

Definition log (c : EventCategory.t) (loc desc : string) (v : nat) (w : World)
  : World :=
  mkWorld (botConfig w) (configFile w)
          (Logger.logEvent (Logger.mkEvent c loc desc) v (eventLog w))
          (pending w).

Definition enqueue (t : Task) (w : World) : World :=
  mkWorld (botConfig w) (configFile w) (eventLog w) (pending w ++ [t]).

(** [botConfig] as the module initialises it: an object that owns its
    three methods. *)
Definition botConfig_initial : value :=
  VObj [ ("readConfigFromFileSystem", VFunction "readConfigFromFileSystem");
         ("_set", VFunction "_set");
         ("editConfigOption", VFunction "editConfigOption") ].

(** The own enumerable properties [Object.assign] copies from a source. *)
Fixpoint indexed (i : N) (elems : list value) : list (string * value) :=
  match elems with
  | [] => []
  | e :: rest => (JS.string_of_N i, e) :: indexed (N.succ i) rest
  end.

Fixpoint chars (s : string) : list value :=
  match s with
  | EmptyString => []
  | String c rest => VStr (String c EmptyString) :: chars rest
  end.

Definition enumerable_own (source : value) : list (string * value) :=
  match source with
  | VObj props => props
  | VArr elems => indexed 0 elems
  | VStr s => indexed 0 (chars s)
  | VUndefined | VNull | VBool _ | VNum _ | VFunction _ => []
  end.

(** [Object.assign(target, source)]: each property is written with an
    ordinary assignment. *)
Definition Object_assign (target source : value) : outcome value :=
  fold_left (fun acc kv => t <- acc ;; js_set t (fst kv) (snd kv))
            (enumerable_own source) (Returned target).

Definition ENOENT : JsError :=
  mkError "Error" "ENOENT: no such file or directory, open './config.jsonc'".

(** [botConfig.readConfigFromFileSystem()]: whatever the [try] block
    throws is replaced by one fixed error. *)
Definition readConfigFromFileSystem `{Jsonc} (w : World) : outcome World :=
  let attempt :=
    match configFile w with
    | None => Threw ENOENT
    | Some text => Object_assign (botConfig w) (parse text)
    end in
  match attempt with
  | Returned cfg => Returned (set_botConfig cfg w)
  | Threw _ =>
      Threw (mkError "Error"
        "Unable to locate or process config.jsonc, are you sure it exists?")
  | OutOfModel => OutOfModel
  end.

(** Put back the updated value of an own property or element that was
    read for traversal (the source mutates it in place through the
    reference it holds). *)
Definition write_back (parent : value) (k : string) (child : value) : value :=
  match parent with
  | VObj props =>
      match JS.own k props with
      | Some _ => VObj (JS.put k child props)
      | None => parent
      end
  | VArr elems =>
      match JS.array_index k with
      | Some i => if Nat.ltb i (List.length elems)
                  then VArr (JS.put_nth i child elems) else parent
      | None => parent
      end
  | _ => parent
  end.

(** [_set(path, value)] applied to [schema]: follow all segments but the
    last, assign at the last.  With an empty path, [path[path.length - 1]]
    is [undefined] and the assignment goes to the key "undefined". *)
Fixpoint _set (schema : value) (path : JSONPath) (x : value) : outcome value :=
  match path with
  | [] => js_set schema "undefined" x
  | [last] => js_set schema (key_of last) x
  | elem :: rest =>
      sub <- js_get schema (key_of elem) ;;
      sub' <- _set sub rest x ;;
      Returned (write_back schema (key_of elem) sub')
  end.

(** The value found by reading the segments of a path one after the
    other. *)
Fixpoint lookup (v : value) (path : JSONPath) : outcome value :=
  match path with
  | [] => Returned v
  | seg :: rest => x <- js_get v (key_of seg) ;; lookup x rest
  end.

(** The first loop of [editConfigOption]: [true] when every segment was
    found by [in], [false] at the first one that was not. *)
Fixpoint walk (currentPosition : value) (location : JSONPath) : outcome bool :=
  match location with
  | [] => Returned true
  | seg :: rest =>
      found <- js_in (key_of seg) currentPosition ;;
      if found
      then next <- js_get currentPosition (key_of seg) ;; walk next rest
      else Returned false
  end.

Definition edit_cancelled : string :=
  "An attempt was made to edit a config value that doesn't exist, cancelling edit".

(** [botConfig.editConfigOption(location, newValue)] up to the point
    where the async function returns.  [readFile] of "node:fs" takes a
    callback and returns [undefined]: [await] on it does not wait for the
    file, so the read (and the write after it) are left queued. *)
Definition editConfigOption (location : JSONPath) (newValue : value) (w : World)
  : outcome World :=
  found <- walk (botConfig w) location ;;
  if found then
    setter <- js_get (botConfig w) "_set" ;;
    match setter with
    | VFunction _ =>
        cfg <- _set (botConfig w) location newValue ;;
        Returned (enqueue (ReadFileTask location newValue) (set_botConfig cfg w))
    | _ => Threw (TypeError "this._set is not a function")
    end
  else
    Returned (log EventCategory.Error "core" edit_cancelled 1 w).

(** One turn of the event loop on the oldest queued callback.
    [readFile]'s callback throws the read error, else patches the text and
    calls [writeFile]; [writeFile] stores the text and its callback logs.
    This is the course of one edit while no other operation on the file
    is in flight: a read or a write is taken as one step.  Two writes in
    flight at once are not described (node truncates, writes and closes
    in separate steps, which then interleave). *)
Definition run_task `{Jsonc} (w : World) : outcome World :=
  match pending w with
  | [] => Returned w
  | t :: rest =>
      let w0 := mkWorld (botConfig w) (configFile w) (eventLog w) rest in
      match t with
      | ReadFileTask location newValue =>
          match configFile w with
          | None => Threw ENOENT
          | Some file =>
              edits <- modify file location newValue ;;
              Returned (enqueue (WriteFileTask (applyEdits file edits)) w0)
          end
      | WriteFileTask newConfig =>
          Returned (log EventCategory.Info "any"
            "`config.jsonc` changed and diff applied in memory" 2
            (set_configFile (Some newConfig) w0))
      end
  end.

(** Run queued callbacks until none is left ([fuel] turns at most). *)
Fixpoint run_pending `{Jsonc} (fuel : nat) (w : World) : outcome World :=
  match fuel with
  | O => Returned w
  | S n =>
      match pending w with
      | [] => Returned w
      | _ => w' <- run_task w ;; run_pending n w'
      end
  end.

(** A path of own properties: each segment names a property that the
    object reached owns (and is not [__proto__]), or an index within the
    array reached. *)
Fixpoint own_path (v : value) (path : JSONPath) : bool :=
  match path with
  | [] => true
  | seg :: rest =>
      match v with
      | VObj props =>
          negb (String.eqb (key_of seg) "__proto__")
          && match JS.own (key_of seg) props with
             | Some x => own_path x rest
             | None => false
             end
      | VArr elems =>
          match JS.array_index (key_of seg) with
          | Some i =>
              Nat.ltb i (List.length elems)
              && own_path (nth i elems VUndefined) rest
          | None => false
          end
      | _ => false
      end
  end.

(** Objects and arrays: the values that have properties to assign. *)
Definition container (v : value) : Prop :=
  match v with
  | VObj _ | VArr _ => True
  | _ => False
  end.

(* ------------------------------------------------------------------ *)
(** ** core/modules.ts                                                 *)
(* ------------------------------------------------------------------ *)

(** The data fields of class [Module].  [enabled] is declared boolean,
    but the constructor stores whatever [config.enabled] holds, so the
    field is a value; [config] stays [undefined] when no config was found.
    The two callbacks ([executeCommand], [initialize]) are identified with
    the module that carries them. *)
Inductive Module : Type := mkModule {
  command : string;
  aliases : list string;
  helpMessage : string;
  submodules : list Module;
  enabled : value;
  config : value;
  rootModuleName : string
}.

(** The description of the warning that the constructor logs. *)
Definition no_config_found (root : string) : string :=
  "No config found for " ++ String (ascii_of_nat 34) root
  ++ String (ascii_of_nat 34) (", all modules and submodules for " ++ root
  ++ " will be disabled.").

(** [this.rootModuleName]: [if (rootModuleName)] is false for a missing
    and for an empty name, and the command is taken then. *)
Definition root_name (command : string) (rootModuleName : option string)
  : string :=
  match rootModuleName with
  | Some r => if String.eqb r "" then command else r
  | None => command
  end.

(** [new Module(command, helpMessage, onCommandExecute, rootModuleName)]:
    the module built and the state after the two possible log calls. *)
Definition new_Module (command helpMessage : string)
    (rootModuleName : option string) (w : World) : outcome (Module * World) :=
  let root := root_name command rootModuleName in
  let registered := fun w' =>
    log EventCategory.Info "core" ("New module registered: " ++ command) 3 w' in
  modules <- js_get (botConfig w) "modules" ;;
  found <- js_in root modules ;;
  if found then
    cfg <- js_get modules root ;;
    en <- js_get cfg "enabled" ;;
    Returned (mkModule command [] helpMessage [] en cfg root, registered w)
  else
    let w1 := log EventCategory.Warning "core" (no_config_found root) 1 w in
    Returned (mkModule command [] helpMessage [] (VBool false) VUndefined root,
              registered w1).

(** [registerSubmodule]: [this.submodules.push(submoduleToRegister)]. *)
Definition registerSubmodule (this submoduleToRegister : Module) : Module :=
  mkModule (command this) (aliases this) (helpMessage this)
           (submodules this ++ [submoduleToRegister])
           (enabled this) (config this) (rootModuleName this).

(* ------------------------------------------------------------------ *)
(** ** Command dispatch over the module tree                           *)
(* ------------------------------------------------------------------ *)

Module Dispatch.

Definition is_space (c : ascii) : bool :=
  let n := nat_of_ascii c in
  Nat.eqb n 32 || Nat.eqb n 9 || Nat.eqb n 10 || Nat.eqb n 13.

Definition lower (c : ascii) : ascii :=
  let n := nat_of_ascii c in
  if Nat.leb 65 n && Nat.leb n 90 then ascii_of_nat (n + 32) else c.

Fixpoint toLowerCase (s : string) : string :=
  match s with
  | EmptyString => EmptyString
  | String c rest => String (lower c) (toLowerCase rest)
  end.

Fixpoint trimStart (s : string) : string :=
  match s with
  | EmptyString => EmptyString
  | String c rest => if is_space c then trimStart rest else s
  end.

(** The characters up to the next blank, and what follows them. *)
Fixpoint take_token (s : string) : string * string :=
  match s with
  | EmptyString => (EmptyString, EmptyString)
  | String c rest =>
      if is_space c then (EmptyString, s)
      else let (tok, after) := take_token rest in (String c tok, after)
  end.

Definition next_token (input : string) : string * string :=
  take_token (trimStart input).

(** A token names a module when it equals, ignoring case, the module's
    [command] or one of its [aliases]. *)
Definition names (m : Module) (token : string) : bool :=
  let t := toLowerCase token in
  String.eqb t (toLowerCase (command m))
  || existsb (fun a => String.eqb t (toLowerCase a)) (aliases m).

(** A module is a candidate for a token when it is enabled and the token
    names it. *)
Definition reachable (m : Module) (token : string) : bool :=
  JS.truthy (enabled m) && names m token.

(** What dispatch does with an input: it calls [executeCommand] of the
    module found at an index path (child positions from the roots down)
    with the rest of the text, it answers with the help of the module at
    a path, or it finds no command. *)
Inductive Resolution : Type :=
| Execute (path : list nat) (args : string)
| Help (path : list nat)
| NoCommand.

Definition under (i : nat) (r : Resolution) : Resolution :=
  match r with
  | Execute path args => Execute (i :: path) args
  | Help path => Help (i :: path)
  | NoCommand => NoCommand
  end.

(** The first module of a list that the token reaches is run (its
    position is put in front of the path it reports); [none] when the
    token reaches no module of the list. *)
Fixpoint among (token : string) (run : Module -> Resolution) (none : Resolution)
    (l : list Module) (i : nat) : Resolution :=
  match l with
  | [] => none
  | c :: l' =>
      if reachable c token then under i (run c)
      else among token run none l' (S i)
  end.

(** Modelled from the spec: the dispatcher is not among the sources
    (spec, section 4.1).  A module that was matched and has no submodules
    is executed with the remaining raw text; one with submodules consumes
    the next token against its children and, when none matches, answers
    with its help.  Only enabled modules are candidates at any level. *)
Fixpoint resolve (m : Module) (rest : string) : Resolution :=
  match submodules m with
  | [] => Execute [] (trimStart rest)
  | subs =>
      let (token, rest') := next_token rest in
      among token (fun c => resolve c rest') (Help []) subs 0
  end.

(** Modelled from the spec: the entry of the dispatcher (spec, section
    4.1).  The first token of the input is matched against the root
    modules, the rest of the input goes to the module found. *)
Definition dispatch (roots : list Module) (input : string) : Resolution :=
  let (token, rest) := next_token input in
  among token (fun m => resolve m rest) NoCommand roots 0.

(** The modules met along an index path, from a root down. *)
Fixpoint chain (mods : list Module) (path : list nat) : option (list Module) :=
  match path with
  | [] => Some []
  | i :: path' =>
      match nth_error mods i with
      | None => None
      | Some m =>
          match chain (submodules m) path' with
          | None => None
          | Some ms => Some (m :: ms)
          end
      end
  end.

(** [enabled] is truthy. *)
Definition is_enabled (m : Module) : Prop := JS.truthy (enabled m) = true.

(** The module that [executeCommand] is called on when dispatch reports
    [Execute path args] from below [m]: the last of the chain, [m] itself
    for the empty path. *)
Definition target_of (m : Module) (below : list Module) : Module := last below m.

End Dispatch.

(* ------------------------------------------------------------------ *)
(** ** The runtime's JSON object                                       *)
(* ------------------------------------------------------------------ *)

Module JSON.

(** [JSON.stringify] and [JSON.parse] after the algorithms of the
    language specification, on texts as lists of characters.  Characters
    are 8 bits wide. *)

Abbreviation text := (list ascii) (only parsing).

Definition dq : ascii := ascii_of_nat 34.
Definition backslash : ascii := ascii_of_nat 92.
Definition nl : ascii := ascii_of_nat 10.
Definition sp : ascii := ascii_of_nat 32.

Definition t (s : string) : text := list_ascii_of_string s.

Definition hex_digit (n : nat) : ascii :=
  if Nat.ltb n 10 then ascii_of_nat (48 + n) else ascii_of_nat (87 + n).

(** [QuoteJSONString], one character at a time. *)
Definition escape (c : ascii) : text :=
  let n := nat_of_ascii c in
  if Nat.eqb n 8 then t "\b"
  else if Nat.eqb n 9 then t "\t"
  else if Nat.eqb n 10 then t "\n"
  else if Nat.eqb n 12 then t "\f"
  else if Nat.eqb n 13 then t "\r"
  else if Nat.eqb n 34 then [backslash; dq]
  else if Nat.eqb n 92 then [backslash; backslash]
  else if Nat.ltb n 32
       then t "\u00" ++ [hex_digit (n / 16); hex_digit (n mod 16)]
  else [c].

Definition QuoteJSONString (s : string) : text :=
  dq :: flat_map escape (list_ascii_of_string s) ++ [dq].

Definition newline (indent : nat) : text := nl :: repeat sp indent.

Fixpoint join (sep : text) (parts : list text) : text :=
  match parts with
  | [] => []
  | [p] => p
  | p :: ps => p ++ sep ++ join sep ps
  end.

(** The line break that a non-empty [gap] puts before an element or a
    closing bracket: a newline and the indentation. *)
Definition brk (gap indent : nat) : text :=
  if Nat.eqb gap 0 then [] else newline indent.

(** The brackets around the serialised elements or members, as
    [SerializeJSONArray] and [SerializeJSONObject] lay them out. *)
Definition wrap (opening closing : ascii) (gap indent : nat)
    (partial : list text) : text :=
  match partial with
  | [] => [opening; closing]
  | _ =>
      opening :: brk gap (indent + gap)
        ++ join (t "," ++ brk gap (indent + gap)) partial
        ++ brk gap indent ++ [closing]
  end.

Definition colon (gap : nat) : text :=
  if Nat.eqb gap 0 then t ":" else t ": ".

(** [SerializeJSONProperty]: [None] stands for [undefined], which an
    array prints as null and an object leaves out. *)
Fixpoint SerializeJSONProperty (gap indent : nat) (v : value) : option text :=
  match v with
  | VUndefined | VFunction _ => None
  | VNull => Some (t "null")
  | VBool true => Some (t "true")
  | VBool false => Some (t "false")
  | VNum n => Some (t (DecimalString.NilEmpty.string_of_int (Z.to_int n)))
  | VStr s => Some (QuoteJSONString s)
  | VArr elems =>
      Some (wrap "[" "]" gap indent
        (map (fun e =>
                match SerializeJSONProperty gap (indent + gap) e with
                | Some x => x
                | None => t "null"
                end) elems))
  | VObj props =>
      Some (wrap "{" "}" gap indent
        (flat_map (fun kv =>
                match kv with
                | (k, x) =>
                    match SerializeJSONProperty gap (indent + gap) x with
                    | Some s => [QuoteJSONString k ++ colon gap ++ s]
                    | None => []
                    end
                end) props))
  end.

(** [JSON.stringify(v, null, space)] with a numeric [space]. *)
Definition stringify (v : value) (space : nat) : option string :=
  option_map string_of_list_ascii (SerializeJSONProperty (Nat.min 10 space) 0 v).

Definition SyntaxError (msg : string) : JsError := mkError "SyntaxError" msg.

Definition is_ws (c : ascii) : bool :=
  let n := nat_of_ascii c in
  Nat.eqb n 32 || Nat.eqb n 9 || Nat.eqb n 10 || Nat.eqb n 13.

Fixpoint skip_ws (s : text) : text :=
  match s with
  | [] => []
  | c :: r => if is_ws c then skip_ws r else s
  end.

Definition hex_value (c : ascii) : option nat :=
  let n := nat_of_ascii c in
  if Nat.leb 48 n && Nat.leb n 57 then Some (n - 48)
  else if Nat.leb 97 n && Nat.leb n 102 then Some (n - 87)
  else if Nat.leb 65 n && Nat.leb n 70 then Some (n - 55)
  else None.

(** The character a one-letter escape stands for. *)
Definition unescape (c : ascii) : option ascii :=
  let n := nat_of_ascii c in
  if Nat.eqb n 34 then Some dq
  else if Nat.eqb n 92 then Some backslash
  else if Nat.eqb n 47 then Some (ascii_of_nat 47)
  else if Nat.eqb n 98 then Some (ascii_of_nat 8)
  else if Nat.eqb n 102 then Some (ascii_of_nat 12)
  else if Nat.eqb n 110 then Some (ascii_of_nat 10)
  else if Nat.eqb n 114 then Some (ascii_of_nat 13)
  else if Nat.eqb n 116 then Some (ascii_of_nat 9)
  else None.

Definition cons_char (c : ascii) (r : outcome (string * text))
  : outcome (string * text) :=
  p <- r ;; Returned (String c (fst p), snd p).

(** A string literal after its opening quote: the characters it denotes
    and the text after the closing quote.  Characters are 8 bits wide
    here, so an escape for a code unit above 255 is out of the model. *)
Fixpoint parse_chars (s : text) : outcome (string * text) :=
  match s with
  | [] => Threw (SyntaxError "Unterminated string in JSON")
  | c :: r =>
      if Ascii.eqb c dq then Returned (EmptyString, r)
      else if Ascii.eqb c backslash then
        match r with
        | [] => Threw (SyntaxError "Bad escaped character in JSON")
        | e :: r1 =>
            if Ascii.eqb e "u" then
              match r1 with
              | h1 :: h2 :: h3 :: h4 :: r2 =>
                  match hex_value h1, hex_value h2, hex_value h3, hex_value h4 with
                  | Some a, Some b, Some c3, Some d =>
                      if Nat.eqb a 0 && Nat.eqb b 0
                      then cons_char (ascii_of_nat (16 * c3 + d)) (parse_chars r2)
                      else OutOfModel
                  | _, _, _, _ => Threw (SyntaxError "Bad Unicode escape in JSON")
                  end
              | _ => Threw (SyntaxError "Bad Unicode escape in JSON")
              end
            else
              match unescape e with
              | Some x => cons_char x (parse_chars r1)
              | None => Threw (SyntaxError "Bad escaped character in JSON")
              end
        end
      else if Nat.ltb (nat_of_ascii c) 32
      then Threw (SyntaxError "Bad control character in string literal in JSON")
      else cons_char c (parse_chars r)
  end.

Definition is_digit (c : ascii) : bool :=
  let n := nat_of_ascii c in Nat.leb 48 n && Nat.leb n 57.

Fixpoint digits (s : text) (acc : Z) : Z * text :=
  match s with
  | c :: r =>
      if is_digit c
      then digits r (10 * acc + Z.of_nat (nat_of_ascii c - 48))
      else (acc, s)
  | [] => (acc, [])
  end.

(** An integer literal; fractions, exponents and integers that a double
    does not hold exactly are out of the model. *)
Definition parse_number (s : text) : outcome (value * text) :=
  let (negative, body) :=
    match s with
    | c :: r => if Ascii.eqb c "-" then (true, r) else (false, s)
    | [] => (false, s)
    end in
  match body with
  | d :: r =>
      if is_digit d then
        let (n, rest) := digits body 0 in
        let leading_zero :=
          Ascii.eqb d "0" && match r with c :: _ => is_digit c | [] => false end in
        let continues :=
          match rest with
          | c :: _ => Ascii.eqb c "." || Ascii.eqb c "e" || Ascii.eqb c "E"
          | [] => false
          end in
        if leading_zero then Threw (SyntaxError "Unexpected number in JSON")
        else if continues || Z.ltb (2 ^ 53) n || (negative && Z.eqb n 0)
        then OutOfModel
        else Returned (VNum (if negative then Z.opp n else n), rest)
      else Threw (SyntaxError "Unexpected token in JSON")
  | [] => Threw (SyntaxError "Unexpected end of JSON input")
  end.

(** [expect word s]: the text after [word] when [s] starts with it. *)
Fixpoint expect (word s : text) : option text :=
  match word, s with
  | [], _ => Some s
  | w :: word', c :: s' => if Ascii.eqb w c then expect word' s' else None
  | _ :: _, [] => None
  end.

(** The recursive-descent parser.  [fuel] bounds the calls in a row;
    two calls in a row read at least one character, so twice the length
    of the text is always enough. *)
Fixpoint parse_value (fuel : nat) (s : text) {struct fuel}
  : outcome (value * text) :=
  match fuel with
  | O => OutOfModel
  | S f =>
      match skip_ws s with
      | [] => Threw (SyntaxError "Unexpected end of JSON input")
      | c :: r =>
          if Ascii.eqb c "{" then
            match skip_ws r with
            | c' :: r' =>
                if Ascii.eqb c' "}" then Returned (VObj [], r')
                else parse_members f r []
            | [] => Threw (SyntaxError "Unexpected end of JSON input")
            end
          else if Ascii.eqb c "[" then
            match skip_ws r with
            | c' :: r' =>
                if Ascii.eqb c' "]" then Returned (VArr [], r')
                else parse_elements f r []
            | [] => Threw (SyntaxError "Unexpected end of JSON input")
            end
          else if Ascii.eqb c dq then
            p <- parse_chars r ;; Returned (VStr (fst p), snd p)
          else
            match expect (t "null") (c :: r), expect (t "true") (c :: r),
                  expect (t "false") (c :: r) with
            | Some r', _, _ => Returned (VNull, r')
            | _, Some r', _ => Returned (VBool true, r')
            | _, _, Some r' => Returned (VBool false, r')
            | None, None, None => parse_number (c :: r)
            end
      end
  end
with parse_elements (fuel : nat) (s : text) (acc : list value) {struct fuel}
  : outcome (value * text) :=
  match fuel with
  | O => OutOfModel
  | S f =>
      p <- parse_value f s ;;
      match skip_ws (snd p) with
      | c :: r =>
          if Ascii.eqb c "," then parse_elements f r (fst p :: acc)
          else if Ascii.eqb c "]" then Returned (VArr (List.rev (fst p :: acc)), r)
          else Threw (SyntaxError "Unexpected token in JSON")
      | [] => Threw (SyntaxError "Unexpected end of JSON input")
      end
  end
with parse_members (fuel : nat) (s : text) (acc : list (string * value))
    {struct fuel} : outcome (value * text) :=
  match fuel with
  | O => OutOfModel
  | S f =>
      match skip_ws s with
      | c :: r =>
          if Ascii.eqb c dq then
            k <- parse_chars r ;;
            match skip_ws (snd k) with
            | c1 :: r1 =>
                if Ascii.eqb c1 ":" then
                  p <- parse_value f r1 ;;
                  match skip_ws (snd p) with
                  | c2 :: r2 =>
                      if Ascii.eqb c2 ","
                      then parse_members f r2 (JS.put (fst k) (fst p) acc)
                      else if Ascii.eqb c2 "}"
                      then Returned (VObj (JS.put (fst k) (fst p) acc), r2)
                      else Threw (SyntaxError "Unexpected token in JSON")
                  | [] => Threw (SyntaxError "Unexpected end of JSON input")
                  end
                else Threw (SyntaxError "Unexpected token in JSON")
            | [] => Threw (SyntaxError "Unexpected end of JSON input")
            end
          else Threw (SyntaxError "Unexpected token in JSON")
      | [] => Threw (SyntaxError "Unexpected end of JSON input")
      end
  end.

(** [JSON.parse(text)]. *)
Definition parse (s : string) : outcome value :=
  p <- parse_value (2 * String.length s + 2) (list_ascii_of_string s) ;;
  match skip_ws (snd p) with
  | [] => Returned (fst p)
  | _ :: _ => Threw (SyntaxError "Unexpected non-whitespace character after JSON")
  end.

(** Plain data: null, booleans, strings, arrays of data and objects of
    data whose keys are distinct. *)
Fixpoint data (v : value) : Prop :=
  match v with
  | VNull | VBool _ | VStr _ => True
  | VArr elems =>
      (fix all (l : list value) : Prop :=
         match l with
         | [] => True
         | x :: l' => data x /\ all l'
         end) elems
  | VObj props =>
      NoDup (map fst props)
      /\ (fix all (l : list (string * value)) : Prop :=
            match l with
            | [] => True
            | (_, x) :: l' => data x /\ all l'
            end) props
  | VUndefined | VNum _ | VFunction _ => False
  end.

(** What the round trip needs of one value: whatever the layout, it is
    serialised to a text that starts with a character that is neither a
    blank nor a closing bracket, and the parser, given enough fuel, reads
    the value back from that text and stops right after it. *)
Definition reads_back (v : value) : Prop :=
  forall gap indent, exists c out,
    SerializeJSONProperty gap indent v = Some (c :: out)
    /\ is_ws c = false
    /\ Ascii.eqb c "]" = false
    /\ forall fuel rest,
         List.length out < fuel ->
         parse_value fuel (c :: out ++ rest) = Returned (v, rest).

(** The texts of the elements of an array, as [SerializeJSONArray]
    collects them. *)
Definition element_texts (gap indent : nat) (elems : list value) : list text :=
  map (fun e =>
         match SerializeJSONProperty gap indent e with
         | Some x => x
         | None => t "null"
         end) elems.

Definition member_texts (gap indent : nat) (props : list (string * value))
  : list text :=
  flat_map (fun kv =>
              match kv with
              | (k, x) =>
                  match SerializeJSONProperty gap indent x with
                  | Some s => [QuoteJSONString k ++ colon gap ++ s]
                  | None => []
                  end
              end) props.

End JSON.

(* ------------------------------------------------------------------ *)
(** ** src/modules/note.ts                                             *)
(* ------------------------------------------------------------------ *)

Module Notes.

Definition Snowflake : Type := string.

Record Note : Type := mkNote {
  contents : string;
  addedBy : Snowflake;
  date : string
}.

(** The main DB structure for notes. *)
Record userRecord : Type := mkUserRecord {
  user : Snowflake;
  notes : list Note
}.

(** The fields of a discord.js [User] that the handlers read. *)
Record User : Type := mkUser { id : Snowflake; tag : string }.

(** One option of a slash-command invocation; [value] is what
    [.value!.toString()] yields, [None] when the value is undefined. *)
Module Arg.
Record t : Type := mk { name : string; value : option string }.
End Arg.

(** The interaction a handler receives; [invoker] is [interaction.user]. *)
Record Interaction : Type := mkInteraction { invoker : User }.

(** Modelled from the spec: [core/util] is not among the sources.  The
    two embeds of [util.embed] are kept as constructors that carry the
    message. *)
Inductive Reply : Type :=
| errorEmbed (msg : string)
| successEmbed (msg : string).

(** A file of a reply: the text put in the buffer, and its [name]. *)
Record Attachment : Type := mkAttachment {
  attachment : string;
  filename : string
}.

(** ** The document store *)

(** The calls the handlers make on the [notes] collection. *)
Inductive DbCall : Type :=
| FindOne (u : Snowflake)
| InsertOne (r : userRecord)
| UpdateOne (u : Snowflake) (ns : list Note)
| DeleteOne (u : Snowflake).

(** The collection: its documents in natural order, the calls received so
    far, and a schedule of injected failures: each call takes the head of
    [faults], and rejects with the error it finds there ([None], or an
    exhausted schedule: the call succeeds). *)
Record Db : Type := mkDb {
  docs : list userRecord;
  calls : list DbCall;
  faults : list (option JsError)
}.

(** What the handlers act on: the store, and the replies delivered
    through [util.replyToInteraction]. *)
Record State : Type := mkState {
  db : Db;
  sent : list (list Attachment)
}.

(** An awaited computation resolves or rejects; either way the state it
    leaves is known.  A computation of type [M] is one invocation of a
    handler running on its own: [bind] puts nothing between two awaits.
    Invocations that overlap are composed from the parts of a handler,
    cut at an await (see [add_reads] and [add_writes] below). *)
Inductive result (A : Type) : Type :=
| Resolved (a : A) (s : State)
| Rejected (e : JsError) (s : State).
Arguments Resolved {A} a s.
Arguments Rejected {A} e s.

Definition M (A : Type) : Type := State -> result A.

Definition ret {A : Type} (a : A) : M A := fun s => Resolved a s.

Definition bind {A B : Type} (c : M A) (k : A -> M B) : M B :=
  fun s =>
    match c s with
    | Resolved a s' => k a s'
    | Rejected e s' => Rejected e s'
    end.

Definition throw {A : Type} (e : JsError) : M A := fun s => Rejected e s.

(** [promise.catch(handler)]: a rejection is turned into the handler's
    value, and the promise so obtained resolves. *)
Definition catch {A : Type} (c : M A) (handler : JsError -> A) : M A :=
  fun s =>
    match c s with
    | Resolved a s' => Resolved a s'
    | Rejected e s' => Resolved (handler e) s'
    end.

Definition matches (u : Snowflake) (r : userRecord) : bool :=
  String.eqb (user r) u.

Fixpoint update_first (u : Snowflake) (ns : list Note) (l : list userRecord)
  : option (list userRecord) :=
  match l with
  | [] => None
  | r :: rest =>
      if matches u r then Some (mkUserRecord (user r) ns :: rest)
      else option_map (cons r) (update_first u ns rest)
  end.

Fixpoint delete_first (u : Snowflake) (l : list userRecord) : list userRecord :=
  match l with
  | [] => []
  | r :: rest => if matches u r then rest else r :: delete_first u rest
  end.

(** The effect of a successful call on the documents. *)
Definition apply_call (c : DbCall) (l : list userRecord) : list userRecord :=
  match c with
  | FindOne _ => l
  | InsertOne r => l ++ [r]
  | UpdateOne u ns =>
      match update_first u ns l with
      | Some l' => l'
      | None => l ++ [mkUserRecord u ns]
      end
  | DeleteOne u => delete_first u l
  end.

(** Modelled from the spec: the MongoDB driver is an external
    collaborator (spec, section 6).  A call is recorded, then rejects when
    the schedule says so and else takes effect: [findOne] answers with
    the first matching document, [insertOne] appends, [updateOne] with
    [$set] and [upsert] rewrites the notes of the first match or inserts,
    [deleteOne] removes the first match.  The connection handle
    ([util.mongo.fetchValue()]) is always there (spec, section 5). *)
Definition call (c : DbCall) : M unit :=
  fun s =>
    let d := db s in
    let recorded := calls d ++ [c] in
    match faults d with
    | Some e :: later =>
        Rejected e (mkState (mkDb (docs d) recorded later) (sent s))
    | None :: later =>
        Resolved tt (mkState (mkDb (apply_call c (docs d)) recorded later) (sent s))
    | [] =>
        Resolved tt (mkState (mkDb (apply_call c (docs d)) recorded []) (sent s))
    end.

Definition findOne (u : Snowflake) : M (option userRecord) :=
  fun s =>
    match call (FindOne u) s with
    | Resolved _ s' => Resolved (find (matches u) (docs (db s))) s'
    | Rejected e s' => Rejected e s'
    end.

Definition insertOne (r : userRecord) : M unit := call (InsertOne r).
Definition updateOne (u : Snowflake) (ns : list Note) : M unit :=
  call (UpdateOne u ns).
Definition deleteOne (u : Snowflake) : M unit := call (DeleteOne u).

(** ** The chat platform and the clock *)

(** Modelled from the spec: the chat platform and [util.formatDate] are
    not among the sources (spec, section 6: fetch entity by id, deliver
    reply).  A handler is given the users that [util.client.users.fetch]
    resolves (it rejects for any other id) and the text of
    [util.formatDate(new Date())] at the time of the call. *)
Record Env : Type := mkEnv {
  users : list User;
  now : string
}.

(** [util.client.users.fetch(userArg)]. *)
Definition fetch (env : Env) (userArg : string) : M User :=
  match find (fun u => String.eqb (id u) userArg) (users env) with
  | Some u => ret u
  | None => throw (mkError "DiscordAPIError[10013]" "Unknown User")
  end.

(** [util.replyToInteraction(interaction, {files})]: the files are
    delivered, in one reply. *)
Definition replyToInteraction (files : list Attachment) : M unit :=
  fun s => Resolved tt (mkState (db s) (sent s ++ [files])).

(** [args.find(arg => arg.name === n)!.value!.toString()]: the
    assertions [!] are erased at run time, so a missing option or value
    is a [TypeError]. *)
Definition option_value (n : string) (args : list Arg.t) : M string :=
  match find (fun a => String.eqb (Arg.name a) n) args with
  | Some a =>
      match Arg.value a with
      | Some v => ret v
      | None => throw (JS.TypeError
                  "Cannot read properties of undefined (reading 'toString')")
      end
  | None => throw (JS.TypeError
              "Cannot read properties of undefined (reading 'value')")
  end.

Definition getRecord (u : User) : M (option userRecord) := findOne (id u).

Definition deleteRecord (u : User) : M unit := deleteOne (id u).

Declare Scope notes_scope.
Delimit Scope notes_scope with notes.
Notation "x <~ c ;; k" := (bind c (fun x => k))
  (at level 61, c at next level, right associativity) : notes_scope.
Open Scope notes_scope.

Definition backtick : string := String (ascii_of_nat 96) EmptyString.

(** The handler of [note add].  The embed built in a [catch] callback is
    the value of the awaited expression only; the handler does not return
    it. *)
Definition add (env : Env) (args : list Arg.t) (interaction : Interaction)
  : M (option Reply) :=
  userArg <~ option_value "user" args ;;
  target <~ fetch env userArg ;;
  if String.eqb (id (invoker interaction)) (id target) then
    ret (Some (errorEmbed "You cannot add a note for yourself"))
  else
    noteContents <~ option_value "note" args ;;
    let note := mkNote noteContents (id (invoker interaction)) (now env) in
    record <~ getRecord target ;;
    match record with
    | Some r =>
        let pushed := notes r ++ [note] in
        _ <~ catch (_ <~ updateOne (id target) pushed ;; ret None)
               (fun err => Some (errorEmbed
                  ("Database call failed with error " ++ JS.name err))) ;;
        ret (Some (successEmbed "Succesfully added that note"))
    | None =>
        let structuredRecord := mkUserRecord (id target) [note] in
        _ <~ catch (_ <~ insertOne structuredRecord ;; ret None)
               (fun err => Some (errorEmbed
                  ("Database call failed with erorr " ++ JS.name err))) ;;
        ret (Some (successEmbed "Succesfully added that note"))
    end.

(** The handler of [note clear]. *)
Definition clear (env : Env) (args : list Arg.t) : M (option Reply) :=
  userArg <~ option_value "user" args ;;
  target <~ fetch env userArg ;;
  record <~ getRecord target ;;
  match record with
  | None =>
      ret (Some (errorEmbed
        (backtick ++ tag target ++ backtick ++ " doesn't have any notes")))
  | Some _ =>
      _ <~ catch (_ <~ deleteRecord target ;; ret None)
             (fun err => Some (errorEmbed
                ("Database call failed with erorr " ++ JS.name err))) ;;
      ret (Some (successEmbed
        ("Succesfully removed notes for " ++ backtick ++ tag target ++ backtick)))
  end.

(** A note as the object the store returns, its fields in the order in
    which [add] wrote them. *)
Definition value_of_Note (n : Note) : JS.value :=
  VObj [ ("contents", VStr (contents n));
         ("addedBy", VStr (addedBy n));
         ("date", VStr (date n)) ].

(** The value that [get] hands to [JSON.stringify]:
    [{notes: record.notes}]. *)
Definition notes_payload (ns : list Note) : JS.value :=
  VObj [("notes", VArr (map value_of_Note ns))].

(** The handler of [note get]: it delivers the notes as a file and
    returns nothing. *)
Definition get (env : Env) (args : list Arg.t) (interaction : Interaction)
  : M (option Reply) :=
  userArg <~ option_value "user" args ;;
  target <~ fetch env userArg ;;
  record <~ getRecord target ;;
  match record with
  | None =>
      ret (Some (errorEmbed
        (backtick ++ tag target ++ backtick ++ " doesn't have any notes")))
  | Some r =>
      match JSON.stringify (notes_payload (notes r)) 2 with
      | Some json =>
          _ <~ replyToInteraction
                 [ mkAttachment json
                     ("notes_for_" ++ id target ++ "_" ++ now env ++ ".json") ] ;;
          ret None
      | None => throw (JS.TypeError "The first argument must be of type string")
      end
  end.

(** ** Vocabulary of the statements *)

(** The store holds at most one record per user. *)
Definition one_record_per_user (l : list userRecord) : Prop :=
  NoDup (map user l).

Definition one_record (s : State) : Prop := one_record_per_user (docs (db s)).

(** [hoare P m Q R]: run from a state that satisfies [P], the
    computation [m] resolves in a state and with a value that satisfy [Q],
    or rejects in a state that satisfies [R]. *)
Definition hoare {A : Type} (P : State -> Prop) (m : M A)
    (Q : A -> State -> Prop) (R : State -> Prop) : Prop :=
  forall s, P s ->
    match m s with
    | Resolved a s' => Q a s'
    | Rejected _ s' => R s'
    end.

(** The options of [note add user=U note=N] and of [note clear user=U],
    [note get user=U]. *)
Definition add_args (U N : string) : list Arg.t :=
  [Arg.mk "user" (Some U); Arg.mk "note" (Some N)].

Definition user_arg (U : string) : list Arg.t := [Arg.mk "user" (Some U)].

Definition no_notes_reply (target : User) : Reply :=
  errorEmbed (backtick ++ tag target ++ backtick ++ " doesn't have any notes").

(** The chat platform knows the user [U] as [target]. *)
Definition known (env : Env) (U : string) (target : User) : Prop :=
  find (fun u => String.eqb (id u) U) (users env) = Some target.

End Notes.

(* ------------------------------------------------------------------ *)
(** ** jsonc-parser on plain JSON documents                            *)
(* ------------------------------------------------------------------ *)

(** An implementation of the interface [Jsonc] for configuration files
    that are plain JSON, to run the configuration store on concrete
    files.  As in the library an edit replaces [length] characters from
    [offset] on by [content]; [modify] here answers with one edit, which
    replaces the document by the edited tree written with a tab size
    of 4. *)
Module TextEdit.
Record t : Type := mk { offset : nat; length : nat; content : string }.
End TextEdit.

Definition applyEdit (text : string) (e : TextEdit.t) : string :=
  let stop := TextEdit.offset e + TextEdit.length e in
  substring 0 (TextEdit.offset e) text ++ TextEdit.content e
    ++ substring stop (String.length text - stop) text.

Definition plain_json : Jsonc := {|
  Edit := TextEdit.t;
  parse := fun text =>
    match JSON.parse text with
    | Returned v => v
    | Threw _ | OutOfModel => VUndefined
    end;
  parse_errors := fun text =>
    match JSON.parse text with
    | Returned _ => 0
    | Threw _ | OutOfModel => 1
    end;
  modify := fun text path x =>
    tree <- JSON.parse text ;;
    edited <- _set tree path x ;;
    match JSON.stringify edited 4 with
    | Some out => Returned [TextEdit.mk 0 (String.length text) out]
    | None => Threw (mkError "Error" "Can not write the new value")
    end;
  applyEdits := fun text edits => fold_right (fun e acc => applyEdit acc e) text edits
|}.

(** The text of a plain JSON document that holds [v]. *)
Definition document (v : value) : string :=
  match JSON.stringify v 4 with
  | Some text => text
  | None => ""
  end.

(* ------------------------------------------------------------------ *)
(** ** What a command leaves in the store                              *)
(* ------------------------------------------------------------------ *)

(** The notes that the store holds for a user: those of the first record
    found, none without a record. *)
Definition notes_of (u : Notes.Snowflake) (s : Notes.State) : list Notes.Note :=
  match find (Notes.matches u) (Notes.docs (Notes.db s)) with
  | Some r => Notes.notes r
  | None => []
  end.

(** [observes s0 s]: since [s0] the documents of the store have not
    changed, and the store has received no call, or one [findOne]. *)
Definition observes (s0 s : Notes.State) : Prop :=
  Notes.docs (Notes.db s) = Notes.docs (Notes.db s0)
  /\ (Notes.calls (Notes.db s) = Notes.calls (Notes.db s0)
      \/ exists u,
           Notes.calls (Notes.db s)
           = Notes.calls (Notes.db s0) ++ [Notes.FindOne u]).

(* ------------------------------------------------------------------ *)
(** ** Invocations that overlap                                        *)
(* ------------------------------------------------------------------ *)

(** A handler runs up to an [await], and other invocations may run
    before it goes on.  [add] is cut where it awaits [getRecord]: an
    invocation has then answered already (the refusal to add a note for
    oneself), or it holds the target, the note and the record that was
    read, and will write from them when it goes on. *)
Inductive Paused : Type :=
| Answered (reply : option Notes.Reply)
| Holding (target : Notes.User) (note : Notes.Note)
          (record : option Notes.userRecord).

(** [add] up to the record it has read. *)
Definition add_reads (env : Notes.Env) (args : list Notes.Arg.t)
    (interaction : Notes.Interaction) : Notes.M Paused :=
  Notes.bind (Notes.option_value "user" args) (fun userArg =>
  Notes.bind (Notes.fetch env userArg) (fun target =>
  if String.eqb (Notes.id (Notes.invoker interaction)) (Notes.id target) then
    Notes.ret (Answered
      (Some (Notes.errorEmbed "You cannot add a note for yourself")))
  else
    Notes.bind (Notes.option_value "note" args) (fun noteContents =>
    let note := Notes.mkNote noteContents
                  (Notes.id (Notes.invoker interaction)) (Notes.now env) in
    Notes.bind (Notes.getRecord target) (fun record =>
    Notes.ret (Holding target note record))))).

(** [add] from the record it has read: the update of the record, or the
    insertion of a new one, and the reply. *)
Definition add_writes (p : Paused) : Notes.M (option Notes.Reply) :=
  match p with
  | Answered reply => Notes.ret reply
  | Holding target note record =>
      match record with
      | Some r =>
          let pushed := Notes.notes r ++ [note] in
          Notes.bind
            (Notes.catch
               (Notes.bind (Notes.updateOne (Notes.id target) pushed)
                           (fun _ => Notes.ret None))
               (fun err => Some (Notes.errorEmbed
                  ("Database call failed with error " ++ JS.name err))))
            (fun _ => Notes.ret
               (Some (Notes.successEmbed "Succesfully added that note")))
      | None =>
          let structuredRecord :=
            Notes.mkUserRecord (Notes.id target) [note] in
          Notes.bind
            (Notes.catch
               (Notes.bind (Notes.insertOne structuredRecord)
                           (fun _ => Notes.ret None))
               (fun err => Some (Notes.errorEmbed
                  ("Database call failed with erorr " ++ JS.name err))))
            (fun _ => Notes.ret
               (Some (Notes.successEmbed "Succesfully added that note")))
      end
  end.

(** Two invocations of [add] that overlap: both have read before either
    writes. *)
Definition add_overlapping (env : Notes.Env)
    (args1 : list Notes.Arg.t) (interaction1 : Notes.Interaction)
    (args2 : list Notes.Arg.t) (interaction2 : Notes.Interaction)
  : Notes.M (option Notes.Reply * option Notes.Reply) :=
  Notes.bind (add_reads env args1 interaction1) (fun p1 =>
  Notes.bind (add_reads env args2 interaction2) (fun p2 =>
  Notes.bind (add_writes p1) (fun reply1 =>
  Notes.bind (add_writes p2) (fun reply2 =>
  Notes.ret (reply1, reply2))))).

(* ------------------------------------------------------------------ *)
(** ** src/modules/note.ts: the whois command                          *)
(* ------------------------------------------------------------------ *)

Module Whois.
Import Notes.

(** A [Date], by its time value. *)
Definition Date : Type := Z.

(** The fields of a discord.js [User] that [whois] reads: [id] and [tag]
    (the [User] of the note handlers), [username], [bot], [createdAt]. *)
Record Account : Type := mkAccount {
  account : User;
  username : string;
  bot : bool;
  createdAt : Date
}.

Record Role : Type := mkRole { role_name : string }.

(** A [GuildMember]: [member.user] ([member.id] is its id), what
    [displayAvatarURL()] returns, [joinedAt] (null when unknown),
    [presence?.status] ([None]: no presence), [displayName], and the roles
    of [roles.cache] in the order of the collection. *)
Record GuildMember : Type := mkMember {
  member_user : Account;
  displayAvatarURL : string;
  joinedAt : option Date;
  presence : option string;
  displayName : string;
  roles : list Role
}.

(** How [guild.members.fetch(id)] settles: with a member, with null, or
    with a rejection. *)
Inductive Fetched : Type :=
| Found (member : GuildMember)
| Null
| Fails (e : JsError).

(** The interaction, by what [whois] reads of it: [guild] ([None] outside
    a server) through its [members.fetch], and [memberPermissions]
    ([None] outside a server) through its [has]. *)
Record Interaction : Type := mkInteraction {
  guild : option (string -> Fetched);
  memberPermissions : option (string -> bool)
}.

(** A warning as [getWarns] returns it; [date] is the text that the
    template literal makes of [warning.date]. *)
Module Warning.
Record t : Type := mk { author : Snowflake; date : string; reason : string }.
End Warning.

(** An embed field. *)
Module Field.
Record t : Type := mk { name : string; value : string; inline : bool }.
End Field.

(** The calls [whois] makes on its [EmbedBuilder], and the embed as the
    data that the accepted calls have set. *)
Inductive BuilderCall : Type :=
| setColor (c : string)
| setTitle (text : string)
| setThumbnail (url : string)
| setDescription (text : string)
| setFooter (text : string)
| setFields (fs : list Field.t).

Record Embed : Type := mkEmbed {
  color : option string;
  title : option string;
  thumbnail : option string;
  description : option string;
  footer : option string;
  fields : list Field.t
}.

Definition new_EmbedBuilder : Embed := mkEmbed None None None None None [].

Definition accept (c : BuilderCall) (e : Embed) : Embed :=
  match c with
  | setColor x =>
      mkEmbed (Some x) (title e) (thumbnail e) (description e) (footer e) (fields e)
  | setTitle x =>
      mkEmbed (color e) (Some x) (thumbnail e) (description e) (footer e) (fields e)
  | setThumbnail x =>
      mkEmbed (color e) (title e) (Some x) (description e) (footer e) (fields e)
  | setDescription x =>
      mkEmbed (color e) (title e) (thumbnail e) (Some x) (footer e) (fields e)
  | setFooter x =>
      mkEmbed (color e) (title e) (thumbnail e) (description e) (Some x) (fields e)
  | setFields fs =>
      mkEmbed (color e) (title e) (thumbnail e) (description e) (footer e) fs
  end.

(** Modelled from the spec: the chat platform, [core/util] and [warn.js]
    are not among the sources (spec, section 6: fetch entity by id,
    deliver reply).  Each collaborator is given by how its calls settle:
    [util.client.users.fetch] and [getWarns] with an error or a result,
    [util.client.users.cache.get] with a user or [undefined],
    [util.formatDate] with an error or a text (its argument is null when
    [joinedAt] is), and the validation of the builder by the error, if
    any, that it throws at a call. *)
Record Env : Type := mkEnv {
  fetch_user : string -> JsError + Account;
  cached : string -> option Account;
  getWarns : Snowflake -> JsError + list Warning.t;
  formatDate : option Date -> JsError + string;
  refused : BuilderCall -> option JsError
}.

(** What the handler acts on: the state of the note handlers (the notes
    collection), and the embeds delivered through
    [util.replyToInteraction], one list for each reply. *)
Record State : Type := mkState {
  store : Notes.State;
  replies : list (list Embed)
}.

Inductive result (A : Type) : Type :=
| Resolved (a : A) (s : State)
| Rejected (e : JsError) (s : State).
Arguments Resolved {A} a s.
Arguments Rejected {A} e s.

Definition W (A : Type) : Type := State -> result A.

Definition ret {A : Type} (a : A) : W A := fun s => Resolved a s.

Definition bind {A B : Type} (c : W A) (k : A -> W B) : W B :=
  fun s =>
    match c s with
    | Resolved a s' => k a s'
    | Rejected e s' => Rejected e s'
    end.

Definition throw {A : Type} (e : JsError) : W A := fun s => Rejected e s.

(** A computation of the note handlers, run on the store. *)
Definition lift {A : Type} (m : Notes.M A) : W A :=
  fun s =>
    match m (store s) with
    | Notes.Resolved a st => Resolved a (mkState st (replies s))
    | Notes.Rejected e st => Rejected e (mkState st (replies s))
    end.

(** Awaiting (or calling) a collaborator that settles with [x]. *)
Definition settle {A : Type} (x : JsError + A) : W A :=
  match x with
  | inl e => throw e
  | inr a => ret a
  end.

(** [util.replyToInteraction(interaction, {embeds})]. *)
Definition replyToInteraction (embeds : list Embed) : W unit :=
  fun s => Resolved tt (mkState (store s) (replies s ++ [embeds])).

Declare Scope whois_scope.
Delimit Scope whois_scope with whois.
Notation "x <-- c ;; k" := (bind c (fun x => k))
  (at level 61, c at next level, right associativity) : whois_scope.
Open Scope whois_scope.

(** One call on the builder: it throws what the validation refuses, and
    else sets the datum. *)
Definition build (env : Env) (c : BuilderCall) (embed : Embed) : W Embed :=
  match refused env c with
  | Some e => throw e
  | None => ret (accept c embed)
  end.

(** [member.roles.cache.filter(role => role.name !== '@everyone')
    .map(role => role.name).join(', ')], and 'None' for the empty text. *)
Definition roles_text (rs : list Role) : string :=
  let joined :=
    String.concat ", "
      (map role_name
         (filter (fun role => negb (String.eqb (role_name role) "@everyone")) rs)) in
  if String.eqb joined "" then "None" else joined.

(** The field pushed for one warning. *)
Definition warning_field (env : Env) (warning : Warning.t) : Field.t :=
  let who :=
    match cached env (Warning.author warning) with
    | Some author => username author
    | None => Warning.author warning
    end in
  Field.mk ("Warning from " ++ who ++ " at " ++ Warning.date warning)
           (Warning.reason warning) false.

(** The loop over [record.notes]: the count is raised, the author is
    fetched, the field is pushed. *)
Fixpoint note_loop (env : Env) (ns : list Note) (fs : list Field.t)
    (noteCount : N) : W (list Field.t * N) :=
  match ns with
  | [] => ret (fs, noteCount)
  | note :: rest =>
      let noteCount := N.succ noteCount in
      noteAuthor <-- settle (fetch_user env (addedBy note)) ;;
      note_loop env rest
        (fs ++ [Field.mk ("Note from " ++ username noteAuthor ++ " at "
                          ++ Notes.date note)
                         ("*" ++ contents note ++ "*") false])
        noteCount
  end.

(** The handler of [whois] from the point where the member is known:
    the embed is built, the fields are collected (dates, status, nickname
    and roles, the warnings for an invoker who may kick members, the
    notes), and the embed is delivered. *)
Definition describe (env : Env) (interaction : Interaction) (member : GuildMember)
  : W (option Reply) :=
  let user := member_user member in
  embed <-- build env (setColor "DarkBlue") new_EmbedBuilder ;;
  embed <-- build env
    (setTitle ("User info for " ++ backtick ++ tag (account user) ++ backtick))
    embed ;;
  embed <-- build env (setThumbnail (displayAvatarURL member)) embed ;;
  embed <--
    (if bot user
     then build env (setDescription "**Note: This is a bot account!**") embed
     else ret embed) ;;
  created <-- settle (formatDate env (Some (createdAt user))) ;;
  let fs := [Field.mk "Created at" created true] in
  joined <-- settle (formatDate env (joinedAt member)) ;;
  let fs := fs ++ [Field.mk "Joined at" joined true] in
  let fs := fs ++ [Field.mk "Status"
                     (match presence member with
                      | Some status => status
                      | None => "offline"
                      end) true] in
  let fs := fs ++ [Field.mk "Nickname" (displayName member) true] in
  let fs := fs ++ [Field.mk "Roles" (roles_text (roles member)) true] in
  has <--
    match memberPermissions interaction with
    | Some has => ret has
    | None => throw (JS.TypeError
                "Cannot read properties of null (reading 'has')")
    end ;;
  fs <--
    (if has "KickMembers" : bool
     then
       warnings <-- settle (getWarns env (id (account user))) ;;
       ret (fold_left (fun acc warning => acc ++ [warning_field env warning])
                      warnings fs)
     else ret fs) ;;
  record <-- lift (getRecord (account user)) ;;
  looped <--
    match record with
    | Some r => note_loop env (notes r) fs 0
    | None => ret (fs, 0%N)
    end ;;
  embed <-- build env
    (setFooter (JS.string_of_N (snd looped) ++ " total notes")) embed ;;
  embed <-- build env (setFields (fst looped)) embed ;;
  _ <-- replyToInteraction [embed] ;;
  ret None.

(** The handler of [whois]: the member is fetched, then described.
    [.catch()] without a handler lets the rejection of [members.fetch]
    through. *)
Definition whois (env : Env) (args : list Arg.t) (interaction : Interaction)
  : W (option Reply) :=
  userArg <-- lift (option_value "user" args) ;;
  fetch_member <--
    match guild interaction with
    | Some members => ret members
    | None => throw (JS.TypeError
                "Cannot read properties of null (reading 'members')")
    end ;;
  fetched <--
    match fetch_member userArg with
    | Found member => ret (Some member)
    | Null => ret None
    | Fails e => throw e
    end ;;
  match fetched with
  | None =>
      ret (Some (errorEmbed
        ("Couldn't find the user " ++ backtick ++ userArg ++ backtick
         ++ " in the server")))
  | Some member => describe env interaction member
  end.

(** ** Vocabulary of the statements *)

(** A builder that accepts every call. *)
Definition lenient (env : Env) : Prop := forall c, refused env c = None.

(** The state is left as it was, whether the computation resolves or
    rejects. *)
Definition silent {A : Type} (m : W A) : Prop :=
  forall s,
    match m s with
    | Resolved _ s' => s' = s
    | Rejected _ s' => s' = s
    end.

(** [only_read s0 s]: since [s0] the handler has done no more than read
    the store and deliver one reply with one embed. *)
Definition only_read (s0 s : State) : Prop :=
  observes (store s0) (store s)
  /\ sent (store s) = sent (store s0)
  /\ (replies s = replies s0
      \/ exists embed, replies s = replies s0 ++ [[embed]]).

(** [triple P m Q R]: run from a state that satisfies [P], the
    computation [m] resolves in a state and with a value that satisfy [Q],
    or rejects in a state that satisfies [R]. *)
Definition triple {A : Type} (P : State -> Prop) (m : W A)
    (Q : A -> State -> Prop) (R : State -> Prop) : Prop :=
  forall s, P s ->
    match m s with
    | Resolved a s' => Q a s'
    | Rejected _ s' => R s'
    end.

End Whois.

(* ------------------------------------------------------------------ *)
(** ** Sequences of commands                                           *)
(* ------------------------------------------------------------------ *)

(** [note add user=U note=N] for each text of [Ns] in turn, each run
    awaited before the next. *)
Fixpoint add_each (env : Notes.Env) (interaction : Notes.Interaction)
    (U : string) (Ns : list string) : Notes.M unit :=
  match Ns with
  | [] => Notes.ret tt
  | N :: rest =>
      Notes.bind (Notes.add env (Notes.add_args U N) interaction)
                 (fun _ => add_each env interaction U rest)
  end.

(** [registerSubmodule] for each module of [children] in turn. *)
Definition register_all (this : Module) (children : list Module) : Module :=
  fold_left registerSubmodule children this.

(** The path of the flag that the constructor reads for a root name. *)
Definition enabled_path (root : string) : JSONPath :=
  [SegStr "modules"; SegStr root; SegStr "enabled"].

(* ================================================================== *)
(** * Part II: properties                                              *)
(* ================================================================== *)

(* ------------------------------------------------------------------ *)
(** ** The note commands                                               *)
(* ------------------------------------------------------------------ *)

Section NoteStore.
Import Notes.


Lemma matches_true (u : Snowflake) (r : userRecord) :
  matches u r = true <-> user r = u.
Proof. unfold matches. apply String.eqb_eq. Qed.

Lemma matches_false (u : Snowflake) (r : userRecord) :
  matches u r = false <-> user r <> u.
Proof. unfold matches. apply String.eqb_neq. Qed.

Lemma find_user_id (U : string) (l : list User) (target : User) :
  find (fun u => String.eqb (id u) U) l = Some target -> id target = U.
Proof.
  intros H. apply find_some in H. destruct H as [_ H].
  now apply String.eqb_eq in H.
Qed.

Lemma find_matches_user (u : Snowflake) (l : list userRecord) (r : userRecord) :
  find (matches u) l = Some r -> user r = u.
Proof.
  intros H. apply find_some in H. destruct H as [_ H].
  now apply matches_true.
Qed.

Lemma find_app_last (u : Snowflake) (l : list userRecord) (r : userRecord) :
  find (matches u) l = None ->
  find (matches u) (l ++ [r]) = if matches u r then Some r else None.
Proof.
  induction l as [|x l IH]; simpl; intros H.
  - reflexivity.
  - destruct (matches u x); [discriminate | now apply IH].
Qed.

Lemma find_app_other (u : Snowflake) (l : list userRecord) (r : userRecord) :
  matches u r = false ->
  find (matches u) (l ++ [r]) = find (matches u) l.
Proof.
  intros Hr. induction l as [|x l IH]; simpl.
  - now rewrite Hr.
  - now destruct (matches u x).
Qed.

Lemma update_first_found (u : Snowflake) (ns : list Note) (l : list userRecord)
    (r : userRecord) :
  find (matches u) l = Some r ->
  exists l', update_first u ns l = Some l'
    /\ find (matches u) l' = Some (mkUserRecord u ns)
    /\ map user l' = map user l
    /\ forall u', u' <> u -> find (matches u') l' = find (matches u') l.
Proof.
  induction l as [|x l IH]; simpl; intros H; [discriminate|].
  destruct (matches u x) eqn:Hx.
  - apply matches_true in Hx. exists (mkUserRecord (user x) ns :: l).
    split; [reflexivity|]. split; [|split].
    + simpl. unfold matches at 1. simpl. rewrite Hx, String.eqb_refl.
      reflexivity.
    + reflexivity.
    + intros u' Hu'. simpl. unfold matches at 1 3. simpl.
      destruct (String.eqb (user x) u') eqn:E; [|reflexivity].
      apply String.eqb_eq in E. congruence.
  - destruct (IH H) as (l' & Hup & Hfind & Hmap & Hother).
    exists (x :: l'). rewrite Hup. simpl. rewrite Hx.
    split; [reflexivity|]. split; [exact Hfind|]. split.
    + now rewrite Hmap.
    + intros u' Hu'. now rewrite (Hother u' Hu').
Qed.

Lemma update_first_missing (u : Snowflake) (ns : list Note) (l : list userRecord) :
  find (matches u) l = None -> update_first u ns l = None.
Proof.
  induction l as [|x l IH]; simpl; intros H; [reflexivity|].
  destruct (matches u x); [discriminate|]. now rewrite IH.
Qed.

Lemma delete_first_other (u u' : Snowflake) (l : list userRecord) :
  u' <> u -> find (matches u') (delete_first u l) = find (matches u') l.
Proof.
  intros Hne. induction l as [|x l IH]; simpl; [reflexivity|].
  destruct (matches u x) eqn:Hx; simpl.
  - apply matches_true in Hx.
    assert (matches u' x = false) as -> by (apply matches_false; congruence).
    reflexivity.
  - now rewrite IH.
Qed.

Lemma find_none_not_in (u : Snowflake) (l : list userRecord) :
  ~ In u (map user l) -> find (matches u) l = None.
Proof.
  induction l as [|x l IH]; simpl; intros H; [reflexivity|].
  destruct (matches u x) eqn:Hx.
  - apply matches_true in Hx. tauto.
  - apply IH. tauto.
Qed.

Lemma delete_first_gone (u : Snowflake) (l : list userRecord) :
  one_record_per_user l -> find (matches u) (delete_first u l) = None.
Proof.
  unfold one_record_per_user.
  induction l as [|x l IH]; simpl; intros H; [reflexivity|].
  inversion H as [|? ? Hnotin Hrest]; subst.
  destruct (matches u x) eqn:Hx; simpl.
  - apply matches_true in Hx. subst u. now apply find_none_not_in.
  - rewrite Hx. now apply IH.
Qed.

Lemma delete_first_users (u : Snowflake) (l : list userRecord) :
  one_record_per_user l -> one_record_per_user (delete_first u l).
Proof.
  unfold one_record_per_user.
  induction l as [|x l IH]; simpl; intros H; [constructor|].
  inversion H as [|? ? Hnotin Hrest]; subst.
  destruct (matches u x); [assumption|]. simpl. constructor.
  - intros Hin. apply Hnotin. clear -Hin.
    induction l as [|y l IHl]; simpl in *; [contradiction|].
    destruct (matches u y); simpl in *; tauto.
  - now apply IH.
Qed.

End NoteStore.

Section NoteCommands.
Import Notes.


(** C10. When the user named by the [user] option is the invoking user,
    [add] answers with the error embed "You cannot add a note for
    yourself" and leaves the state as it was: the store has received no
    call, so nothing was read or written. *)
Theorem add_for_oneself_is_refused
    (env : Env) (args : list Arg.t) (interaction : Interaction) (s : State)
    (U : string) (target : User) :
  option_value "user" args s = Resolved U s ->
  known env U target ->
  id (invoker interaction) = id target ->
  add env args interaction s
    = Resolved (Some (errorEmbed "You cannot add a note for yourself")) s.
Proof.
  intros Harg Hknown Hself.
  unfold add, bind, fetch. rewrite Harg.
  unfold known in Hknown. rewrite Hknown. unfold ret.
  rewrite Hself, String.eqb_refl. reflexivity.
Qed.

Lemma add_for_oneself_is_refused_witness :
  let env := mkEnv [mkUser "7" "ann#1"] "2023-01-01" in
  let s := mkState (mkDb [mkUserRecord "7" []] [] [Some (mkError "MongoError" "down")]) [] in
  add env (add_args "7" "hello") (mkInteraction (mkUser "7" "ann#1")) s
    = Resolved (Some (errorEmbed "You cannot add a note for yourself")) s.
Proof.
  intros env s.
  apply (@add_for_oneself_is_refused env (add_args "7" "hello")
           (mkInteraction (mkUser "7" "ann#1")) s "7" (mkUser "7" "ann#1"));
    reflexivity.
Defined.


Lemma known_id (env : Env) (U : string) (target : User) :
  known env U target -> id target = U.
Proof. apply find_user_id. Qed.

(** What [add] does to the store for another user than the invoking one,
    when the store rejects no call: the record found for the user
    afterwards holds the notes found before followed by the new note, the
    records of the other users are as before, and nothing is delivered. *)
Lemma add_to_store
    (env : Env) (interaction : Interaction) (s : State)
    (U N : string) (target : User) :
  known env U target ->
  id (invoker interaction) <> id target ->
  faults (db s) = [] ->
  exists s',
    add env (add_args U N) interaction s
      = Resolved (Some (successEmbed "Succesfully added that note")) s'
    /\ find (matches U) (docs (db s'))
       = Some (mkUserRecord U
           (match find (matches U) (docs (db s)) with
            | Some r => notes r
            | None => []
            end ++ [mkNote N (id (invoker interaction)) (now env)]))
    /\ (forall u', u' <> U ->
          find (matches u') (docs (db s')) = find (matches u') (docs (db s)))
    /\ faults (db s') = []
    /\ sent s' = sent s.
Proof.
  intros Hknown Hother Hfaults.
  pose proof (known_id Hknown) as Hid.
  unfold add, bind, fetch, add_args. simpl.
  unfold known in Hknown. rewrite Hknown. unfold ret.
  destruct (String.eqb (id (invoker interaction)) (id target)) eqn:E.
  { apply String.eqb_eq in E. contradiction. }
  unfold getRecord, findOne, call. rewrite Hfaults, Hid. simpl.
  destruct (find (matches U) (docs (db s))) as [r|] eqn:Hfind.
  - unfold catch, bind, updateOne, call, ret. simpl.
    destruct (@update_first_found U (notes r ++ [mkNote N (id (invoker interaction)) (now env)]) _ r Hfind)
      as (l' & Hup & Hfound & _ & Hrest).
    rewrite ?Hid, Hup. eexists. split; [reflexivity|]. simpl. auto.
  - unfold catch, bind, insertOne, call, ret. simpl.
    eexists. split; [reflexivity|]. simpl. rewrite ?Hid. repeat split.
    + rewrite (@find_app_last U _ (mkUserRecord U [mkNote N (id (invoker interaction)) (now env)]) Hfind). unfold matches. simpl.
      now rewrite String.eqb_refl.
    + intros u' Hu'. apply find_app_other. apply matches_false. simpl. congruence.
Qed.

(** C7, as amended. When the target is not the invoking user and the
    store rejects no call, [add user=U note=N] answers with the success
    embed; if [U] had no record, the store then holds for [U] a record
    with exactly the new note; if [U] had a record, the store then holds
    for [U] the notes of that record, in their order, followed by the new
    note.  The records of the other users are as before. *)
Theorem add_creates_or_appends
    (env : Env) (interaction : Interaction) (s : State)
    (U N : string) (target : User) :
  known env U target ->
  id (invoker interaction) <> id target ->
  faults (db s) = [] ->
  exists s',
    add env (add_args U N) interaction s
      = Resolved (Some (successEmbed "Succesfully added that note")) s'
    /\ (find (matches U) (docs (db s)) = None ->
        find (matches U) (docs (db s'))
        = Some (mkUserRecord U [mkNote N (id (invoker interaction)) (now env)]))
    /\ (forall r, find (matches U) (docs (db s)) = Some r ->
        find (matches U) (docs (db s'))
        = Some (mkUserRecord U
                  (notes r ++ [mkNote N (id (invoker interaction)) (now env)])))
    /\ (forall u', u' <> U ->
          find (matches u') (docs (db s')) = find (matches u') (docs (db s))).
Proof.
  intros Hknown Hother Hfaults.
  destruct (@add_to_store env interaction s U N target Hknown Hother Hfaults)
    as (s' & Hrun & Hfind & Hrest & _).
  exists s'. split; [exact Hrun|]. split; [|split; [|exact Hrest]].
  - intros Hnone. now rewrite Hnone in Hfind.
  - intros r Hsome. now rewrite Hsome in Hfind.
Qed.

Lemma add_creates_or_appends_witness :
  exists s',
    add (mkEnv [mkUser "7" "ann#1"; mkUser "9" "bob#2"] "2023-01-01")
        (add_args "9" "late again") (mkInteraction (mkUser "7" "ann#1"))
        (mkState (mkDb [mkUserRecord "9" [mkNote "first" "5" "2022-12-31"]] [] []) [])
      = Resolved (Some (successEmbed "Succesfully added that note")) s'
    /\ find (matches "9") (docs (db s'))
       = Some (mkUserRecord "9" [mkNote "first" "5" "2022-12-31";
                                mkNote "late again" "7" "2023-01-01"]).
Proof.
  destruct (@add_creates_or_appends
              (mkEnv [mkUser "7" "ann#1"; mkUser "9" "bob#2"] "2023-01-01")
              (mkInteraction (mkUser "7" "ann#1"))
              (mkState (mkDb [mkUserRecord "9" [mkNote "first" "5" "2022-12-31"]] [] []) [])
              "9" "late again" (mkUser "9" "bob#2"))
    as (s' & Hrun & _ & Hfind & _).
  - reflexivity.
  - simpl. discriminate.
  - reflexivity.
  - exists s'. split; [exact Hrun|].
    exact (Hfind (mkUserRecord "9" [mkNote "first" "5" "2022-12-31"]) eq_refl).
Defined.

(** C7 fails as stated when the user is the invoking user: that user has
    no record, [add] runs, and no record with the new note is created. *)
Lemma add_for_oneself_creates_no_record :
  ~ exists reply s',
      add (mkEnv [mkUser "7" "ann#1"] "2023-01-01") (add_args "7" "hello")
          (mkInteraction (mkUser "7" "ann#1")) (mkState (mkDb [] [] []) [])
        = Resolved reply s'
      /\ find (matches "7") (docs (db s'))
         = Some (mkUserRecord "7" [mkNote "hello" "7" "2023-01-01"]).
Proof.
  intros (reply & s' & Hrun & Hfind).
  vm_compute in Hrun. inversion Hrun; subst. discriminate.
Qed.

(** C8, as amended. With a store that rejects no call and holds one
    record per user (neither is in the claim as it was stated):
    [clear user=U] for a user without record answers with the error embed
    and has sent the store its [findOne] only, so no deletion; for a user
    with a record it answers with the success embed, the store has no
    record for [U] any more (the others are untouched), and a [get] for
    the same user then reports that the user has no notes and delivers no
    file. *)
Theorem clear_removes_the_record
    (env env' : Env) (interaction : Interaction) (s : State)
    (U : string) (target : User) :
  known env U target ->
  known env' U target ->
  faults (db s) = [] ->
  one_record_per_user (docs (db s)) ->
  (find (matches U) (docs (db s)) = None ->
     clear env (user_arg U) s
       = Resolved (Some (no_notes_reply target))
           (mkState (mkDb (docs (db s)) (calls (db s) ++ [FindOne U]) []) (sent s)))
  /\ (forall r, find (matches U) (docs (db s)) = Some r ->
       exists s',
         clear env (user_arg U) s
           = Resolved (Some (successEmbed
               ("Succesfully removed notes for " ++ backtick ++ tag target ++ backtick))) s'
         /\ calls (db s') = calls (db s) ++ [FindOne U; DeleteOne U]
         /\ find (matches U) (docs (db s')) = None
         /\ (forall u', u' <> U ->
               find (matches u') (docs (db s')) = find (matches u') (docs (db s)))
         /\ exists s'',
              get env' (user_arg U) interaction s'
                = Resolved (Some (no_notes_reply target)) s''
              /\ sent s'' = sent s).
Proof.
  intros Hknown Hknown' Hfaults Hone.
  pose proof (known_id Hknown) as Hid.
  unfold known in Hknown, Hknown'.
  split.
  - intros Hfind.
    unfold clear, bind, fetch, user_arg. simpl. rewrite Hknown. unfold ret.
    unfold getRecord, findOne, call. rewrite Hfaults, Hid, Hfind. reflexivity.
  - intros r Hfind.
    unfold clear, bind, fetch, user_arg. simpl. rewrite Hknown. unfold ret.
    unfold getRecord, findOne, call. rewrite Hfaults, Hid, Hfind. simpl.
    unfold catch, bind, deleteRecord, deleteOne, call, ret. simpl.
    eexists. split; [reflexivity|]. simpl. rewrite ?Hid.
    split; [now rewrite <- app_assoc|].
    split; [now apply delete_first_gone|].
    split; [intros u' Hu'; now apply delete_first_other|].
    unfold get, bind, fetch. simpl. rewrite Hknown'. unfold ret.
    unfold getRecord, findOne, call. simpl. rewrite ?Hid.
    rewrite (@delete_first_gone U _ Hone). eexists. split; reflexivity.
Qed.

Lemma clear_removes_the_record_witness :
  exists s',
    clear (mkEnv [mkUser "9" "bob#2"] "2023-01-01") (user_arg "9")
          (mkState (mkDb [mkUserRecord "9" [mkNote "first" "5" "2022-12-31"]] [] []) [])
      = Resolved (Some (successEmbed
          ("Succesfully removed notes for " ++ backtick ++ "bob#2" ++ backtick))) s'
    /\ find (matches "9") (docs (db s')) = None.
Proof.
  destruct (@clear_removes_the_record
              (mkEnv [mkUser "9" "bob#2"] "2023-01-01")
              (mkEnv [mkUser "9" "bob#2"] "2023-01-02")
              (mkInteraction (mkUser "7" "ann#1"))
              (mkState (mkDb [mkUserRecord "9" [mkNote "first" "5" "2022-12-31"]] [] []) [])
              "9" (mkUser "9" "bob#2"))
    as [_ Hsome].
  - reflexivity.
  - reflexivity.
  - reflexivity.
  - unfold one_record_per_user. simpl. constructor; [simpl; tauto | constructor].
  - destruct (Hsome (mkUserRecord "9" [mkNote "first" "5" "2022-12-31"]) eq_refl)
      as (s' & Hrun & _ & Hgone & _).
    exists s'. split; [exact Hrun | exact Hgone].
Defined.

(** C8 fails as stated when the store rejects the deletion: the user has
    a record, [clear] runs and answers, and the record is still there. *)
Lemma clear_keeps_the_record_when_deleteOne_rejects :
  ~ exists reply s',
      clear (mkEnv [mkUser "9" "bob#2"] "2023-01-01") (user_arg "9")
            (mkState (mkDb [mkUserRecord "9" [mkNote "first" "5" "2022-12-31"]]
                           [] [None; Some (mkError "MongoError" "down")])
                     [])
        = Resolved reply s'
      /\ find (matches "9") (docs (db s')) = None.
Proof.
  intros (reply & s' & Hrun & Hfind).
  vm_compute in Hrun. inversion Hrun; subst. discriminate.
Qed.

(** C6 fails on the code.  A rejected write is caught, but the embed made
    in the [catch] callback is dropped and the handler goes on to its
    success reply: [add] for a user without record whose [insertOne]
    rejects, and [clear] whose [deleteOne] rejects, both answer with the
    success embed while the store is unchanged.  A rejected [findOne]
    (inside [getRecord]) is not caught at all: the handler rejects. *)
Theorem store_failures_are_not_reported (err : JsError) :
  let env := mkEnv [mkUser "7" "ann#1"; mkUser "9" "bob#2"] "2023-01-01" in
  let ann := mkInteraction (mkUser "7" "ann#1") in
  let kept := [mkUserRecord "9" [mkNote "first" "5" "2022-12-31"]] in
  add env (add_args "9" "hello") ann (mkState (mkDb [] [] [None; Some err]) [])
    = Resolved (Some (successEmbed "Succesfully added that note"))
        (mkState (mkDb [] [FindOne "9";
                           InsertOne (mkUserRecord "9" [mkNote "hello" "7" "2023-01-01"])] [])
                 [])
  /\ clear env (user_arg "9") (mkState (mkDb kept [] [None; Some err]) [])
    = Resolved (Some (successEmbed
        ("Succesfully removed notes for " ++ backtick ++ "bob#2" ++ backtick)))
        (mkState (mkDb kept [FindOne "9"; DeleteOne "9"] []) [])
  /\ add env (add_args "9" "hello") ann (mkState (mkDb kept [] [Some err]) [])
    = Rejected err (mkState (mkDb kept [FindOne "9"] []) []).
Proof.
  intros env ann kept. repeat split.
Qed.

End NoteCommands.

Section StoreInvariant.
Import Notes.

Lemma update_first_users (u : Snowflake) (ns : list Note) (l l' : list userRecord) :
  update_first u ns l = Some l' -> map user l' = map user l.
Proof.
  revert l'. induction l as [|x l IH]; simpl; intros l'; [discriminate|].
  destruct (matches u x).
  - intros [= <-]. reflexivity.
  - destruct (update_first u ns l) as [l0|]; simpl; [|discriminate].
    intros [= <-]. simpl. now rewrite (IH l0 eq_refl).
Qed.

Lemma find_none_fresh (u : Snowflake) (l : list userRecord) :
  find (matches u) l = None -> ~ In u (map user l).
Proof.
  induction l as [|x l IH]; simpl; intros H; [tauto|].
  destruct (matches u x) eqn:Hx; [discriminate|].
  apply matches_false in Hx. intros [Hin|Hin]; [contradiction | now apply IH].
Qed.

Lemma NoDup_snoc (u : Snowflake) (l : list Snowflake) :
  NoDup l -> ~ In u l -> NoDup (l ++ [u]).
Proof.
  intros Hl Hu. apply NoDup_app; [exact Hl | repeat constructor; simpl; tauto |].
  intros a Ha [<-|[]]. contradiction.
Qed.

Lemma one_record_after_call (c : DbCall) (l : list userRecord) :
  one_record_per_user l ->
  match c with
  | InsertOne r => find (matches (user r)) l = None
  | _ => True
  end ->
  one_record_per_user (apply_call c l).
Proof.
  unfold one_record_per_user. intros Hone Hc. destruct c as [u|r|u ns|u]; simpl.
  - exact Hone.
  - rewrite map_app. simpl. apply NoDup_snoc; [exact Hone | now apply find_none_fresh].
  - destruct (update_first u ns l) as [l'|] eqn:Hup.
    + now rewrite (@update_first_users u ns l l' Hup).
    + rewrite map_app. simpl. apply NoDup_snoc; [exact Hone|].
      apply find_none_fresh. clear -Hup.
      induction l as [|x l IH]; simpl in *; [reflexivity|].
      destruct (matches u x); [discriminate|].
      destruct (update_first u ns l); [discriminate | now apply IH].
  - now apply delete_first_users.
Qed.



Lemma hoare_ret {A : Type} (a : A) (Q : A -> State -> Prop) (R : State -> Prop) :
  hoare (Q a) (ret a) Q R.
Proof. intros s H. exact H. Qed.

Lemma hoare_ret_keep {A : Type} (a : A) (I : State -> Prop) :
  hoare I (ret a) (fun _ => I) I.
Proof. intros s H. exact H. Qed.

Lemma hoare_throw {A : Type} (e : JsError) (Q : A -> State -> Prop)
    (R : State -> Prop) :
  hoare R (throw e) Q R.
Proof. intros s H. exact H. Qed.

Lemma hoare_bind {A B : Type} (P : State -> Prop) (m : M A) (k : A -> M B)
    (Q : A -> State -> Prop) (Q' : B -> State -> Prop) (R : State -> Prop) :
  hoare P m Q R -> (forall a, hoare (Q a) (k a) Q' R) ->
  hoare P (bind m k) Q' R.
Proof.
  intros Hm Hk s HP. unfold bind. specialize (Hm s HP).
  destruct (m s) as [a s'|e s']; [now apply Hk | exact Hm].
Qed.

Lemma hoare_catch {A : Type} (P : State -> Prop) (m : M A) (h : JsError -> A)
    (I : State -> Prop) :
  hoare P m (fun _ => I) I -> hoare P (catch m h) (fun _ => I) I.
Proof.
  intros Hm s HP. unfold catch. specialize (Hm s HP).
  destruct (m s); exact Hm.
Qed.

Lemma hoare_weaken {A : Type} (P P' : State -> Prop) (m : M A)
    (Q : A -> State -> Prop) (R : State -> Prop) :
  (forall s, P' s -> P s) -> hoare P m Q R -> hoare P' m Q R.
Proof. intros HPP Hm s HP. apply Hm. now apply HPP. Qed.

(** Reading an option and fetching a user leave the state alone. *)
Lemma hoare_option_value (n : string) (args : list Arg.t) (I : State -> Prop) :
  hoare I (option_value n args) (fun _ => I) I.
Proof.
  intros s H. unfold option_value.
  destruct (find (fun a => String.eqb (Arg.name a) n) args) as [a|]; [|exact H].
  destruct (Arg.value a); exact H.
Qed.

Lemma hoare_fetch (env : Env) (userArg : string) (I : State -> Prop) :
  hoare I (fetch env userArg) (fun _ => I) I.
Proof.
  intros s H. unfold fetch.
  destruct (find (fun u => String.eqb (id u) userArg) (users env)); exact H.
Qed.


Lemma hoare_call (c : DbCall) :
  hoare (fun s => one_record s
                  /\ match c with
                     | InsertOne r => find (matches (user r)) (docs (db s)) = None
                     | _ => True
                     end)
        (call c) (fun _ => one_record) one_record.
Proof.
  intros s [Hone Hc]. unfold call, one_record in *.
  destruct (faults (db s)) as [|[e|] later]; simpl;
    auto using one_record_after_call.
Qed.

Lemma hoare_getRecord (u : User) :
  hoare one_record (getRecord u)
        (fun r s => one_record s /\ r = find (matches (id u)) (docs (db s)))
        one_record.
Proof.
  intros s Hone. unfold getRecord, findOne, call, one_record in *.
  destruct (faults (db s)) as [|[e|] later]; simpl; auto.
Qed.

(** X5. An invocation that runs on its own, with no call of another
    invocation between its awaits, keeps the store at one record per
    user, whatever the options, the users and the failures of the store:
    [add] inserts only after it found no record, and updates and
    deletions add none.  Invocations that overlap do not keep it (see
    the section on overlapping invocations of [add]). *)
Lemma handlers_keep_one_record_per_user
    (env : Env) (args : list Arg.t) (interaction : Interaction) :
  hoare one_record (add env args interaction) (fun _ => one_record) one_record
  /\ hoare one_record (clear env args) (fun _ => one_record) one_record
  /\ hoare one_record (get env args interaction) (fun _ => one_record) one_record.
Proof.
  repeat split.
  - unfold add.
    eapply hoare_bind; [apply hoare_option_value | intros userArg].
    eapply hoare_bind; [apply hoare_fetch | intros target].
    destruct (String.eqb (id (invoker interaction)) (id target));
      [apply hoare_ret_keep|].
    eapply hoare_bind; [apply hoare_option_value | intros noteContents].
    eapply hoare_bind; [apply hoare_getRecord | intros [r|]].
    + eapply hoare_bind; [|intros ?; apply hoare_ret_keep].
      apply hoare_catch.
      eapply hoare_bind; [|intros ?; apply hoare_ret_keep].
      eapply hoare_weaken; [|apply (hoare_call (UpdateOne _ _))].
      simpl. tauto.
    + eapply hoare_bind; [|intros ?; apply hoare_ret_keep].
      apply hoare_catch.
      eapply hoare_bind; [|intros ?; apply hoare_ret_keep].
      eapply hoare_weaken; [|apply (hoare_call (InsertOne _))].
      simpl. intros s [Hone Hnone]. split; [exact Hone | now symmetry].
  - unfold clear.
    eapply hoare_bind; [apply hoare_option_value | intros userArg].
    eapply hoare_bind; [apply hoare_fetch | intros target].
    eapply hoare_bind; [apply hoare_getRecord | intros [r|]].
    + eapply hoare_bind; [|intros ?; apply hoare_ret_keep].
      apply hoare_catch.
      eapply hoare_bind; [|intros ?; apply hoare_ret_keep].
      eapply hoare_weaken; [|apply (hoare_call (DeleteOne _))].
      simpl. tauto.
    + eapply hoare_weaken; [|apply hoare_ret_keep]. simpl. tauto.
  - unfold get.
    eapply hoare_bind; [apply hoare_option_value | intros userArg].
    eapply hoare_bind; [apply hoare_fetch | intros target].
    eapply hoare_bind; [apply hoare_getRecord | intros [r|]].
    + destruct (JSON.stringify _ 2).
      * eapply hoare_bind; [|intros ?; apply hoare_ret_keep].
        intros st [Hone _]. exact Hone.
      * eapply hoare_weaken; [|apply hoare_throw]. simpl. tauto.
    + eapply hoare_weaken; [|apply hoare_ret_keep]. simpl. tauto.
Qed.

Lemma handlers_keep_one_record_per_user_witness :
  one_record
    (mkState (mkDb [mkUserRecord "9" [mkNote "first" "5" "2022-12-31"];
                    mkUserRecord "7" [mkNote "hello" "9" "2023-01-01"]] [] []) []).
Proof.
  assert (one_record (mkState (mkDb [mkUserRecord "9" [mkNote "first" "5" "2022-12-31"]] [] []) []))
    as Hstart.
  { unfold one_record, one_record_per_user. simpl.
    constructor; [simpl; tauto | constructor]. }
  destruct (@handlers_keep_one_record_per_user
              (mkEnv [mkUser "7" "ann#1"; mkUser "9" "bob#2"] "2023-01-01")
              (add_args "7" "hello") (mkInteraction (mkUser "9" "bob#2")))
    as [Hadd _].
  exact (Hadd _ Hstart).
Defined.

End StoreInvariant.

(* ------------------------------------------------------------------ *)
(** ** JSON: parsing what stringify wrote                              *)
(* ------------------------------------------------------------------ *)

Section JsonRoundTrip.
Import JSON.

(** Induction over a value: a property that holds for an array or an
    object as soon as it holds for what it contains holds for every
    value. *)
Lemma value_tree_ind (P : value -> Prop) :
  P VUndefined -> P VNull ->
  (forall b, P (VBool b)) -> (forall n, P (VNum n)) -> (forall s, P (VStr s)) ->
  (forall elems, Forall P elems -> P (VArr elems)) ->
  (forall props, Forall (fun kv => P (snd kv)) props -> P (VObj props)) ->
  (forall f, P (VFunction f)) ->
  forall v, P v.
Proof.
  intros Hundefined Hnull Hbool Hnum Hstr Harr Hobj Hfun.
  exact (fix ind (v : value) : P v :=
           match v with
           | VUndefined => Hundefined
           | VNull => Hnull
           | VBool b => Hbool b
           | VNum n => Hnum n
           | VStr s => Hstr s
           | VArr elems =>
               Harr elems
                 ((fix all (l : list value) : Forall P l :=
                     match l with
                     | [] => @Forall_nil _ P
                     | x :: l' => @Forall_cons _ P x l' (ind x) (all l')
                     end) elems)
           | VObj props =>
               Hobj props
                 ((fix all (l : list (string * value))
                     : Forall (fun kv => P (snd kv)) l :=
                     match l with
                     | [] => @Forall_nil _ (fun kv => P (snd kv))
                     | (k, x) :: l' =>
                         @Forall_cons _ (fun kv => P (snd kv)) (k, x) l'
                           (ind x) (all l')
                     end) props)
           | VFunction f => Hfun f
           end).
Qed.


Lemma data_VArr (elems : list value) :
  data (VArr elems) <-> Forall data elems.
Proof.
  simpl. induction elems as [|x l IH].
  - split; auto.
  - split.
    + intros [Hx Hl]. constructor; [exact Hx | now apply IH].
    + intros H. inversion H; subst. split; [assumption | now apply IH].
Qed.

Lemma data_VObj (props : list (string * value)) :
  data (VObj props)
  <-> NoDup (map fst props) /\ Forall (fun kv => data (snd kv)) props.
Proof.
  simpl. apply and_iff_compat_l.
  induction props as [|[k x] l IH].
  - split; auto.
  - split.
    + intros [Hx Hl]. constructor; [exact Hx | now apply IH].
    + intros H. inversion H; subst. split; [assumption | now apply IH].
Qed.

Lemma skip_ws_spaces (n : nat) (s : text) :
  skip_ws (repeat sp n ++ s) = skip_ws s.
Proof. induction n as [|n IH]; [reflexivity | exact IH]. Qed.

Lemma skip_ws_brk (gap indent : nat) (s : text) :
  skip_ws (brk gap indent ++ s) = skip_ws s.
Proof.
  unfold brk, newline. destruct (Nat.eqb gap 0); [reflexivity|].
  simpl. apply skip_ws_spaces.
Qed.

Lemma skip_ws_stop (c : ascii) (s : text) :
  is_ws c = false -> skip_ws (c :: s) = c :: s.
Proof. intros H. simpl. now rewrite H. Qed.

(** The parser reads its input past leading blanks, so blanks in front of
    a text change nothing. *)
Lemma parse_value_skip (fuel : nat) (w s : text) :
  skip_ws (w ++ s) = skip_ws s ->
  parse_value fuel (w ++ s) = parse_value fuel s.
Proof. intros H. destruct fuel; simpl; [reflexivity | now rewrite H]. Qed.

Lemma parse_members_skip (fuel : nat) (w s : text) (acc : list (string * value)) :
  skip_ws (w ++ s) = skip_ws s ->
  parse_members fuel (w ++ s) acc = parse_members fuel s acc.
Proof. intros H. destruct fuel; simpl; [reflexivity | now rewrite H]. Qed.

(** One escaped character is read back as the character. *)
Lemma parse_chars_escape (c : ascii) (tail : text) :
  parse_chars (escape c ++ tail) = cons_char c (parse_chars tail).
Proof.
  destruct c as [b0 b1 b2 b3 b4 b5 b6 b7].
  destruct b0, b1, b2, b3, b4, b5, b6, b7; reflexivity.
Qed.

Lemma parse_chars_quoted (s : string) (rest : text) :
  parse_chars (flat_map escape (list_ascii_of_string s) ++ dq :: rest)
  = Returned (s, rest).
Proof.
  induction s as [|c s IH]; simpl.
  - reflexivity.
  - rewrite <- app_assoc, parse_chars_escape, IH. reflexivity.
Qed.


Lemma parse_value_S (f : nat) (c : ascii) (r : text) :
  is_ws c = false ->
  parse_value (S f) (c :: r)
  = if Ascii.eqb c "{" then
      match skip_ws r with
      | c' :: r' =>
          if Ascii.eqb c' "}" then Returned (VObj [], r')
          else parse_members f r []
      | [] => Threw (SyntaxError "Unexpected end of JSON input")
      end
    else if Ascii.eqb c "[" then
      match skip_ws r with
      | c' :: r' =>
          if Ascii.eqb c' "]" then Returned (VArr [], r')
          else parse_elements f r []
      | [] => Threw (SyntaxError "Unexpected end of JSON input")
      end
    else if Ascii.eqb c dq then
      p <- parse_chars r ;; Returned (VStr (fst p), snd p)
    else
      match expect (t "null") (c :: r), expect (t "true") (c :: r),
            expect (t "false") (c :: r) with
      | Some r', _, _ => Returned (VNull, r')
      | _, Some r', _ => Returned (VBool true, r')
      | _, _, Some r' => Returned (VBool false, r')
      | None, None, None => parse_number (c :: r)
      end.
Proof.
  intros H. change (parse_value (S f) (c :: r))
    with (match skip_ws (c :: r) with
          | [] => Threw (SyntaxError "Unexpected end of JSON input")
          | c :: r =>
              if Ascii.eqb c "{" then
                match skip_ws r with
                | c' :: r' =>
                    if Ascii.eqb c' "}" then Returned (VObj [], r')
                    else parse_members f r []
                | [] => Threw (SyntaxError "Unexpected end of JSON input")
                end
              else if Ascii.eqb c "[" then
                match skip_ws r with
                | c' :: r' =>
                    if Ascii.eqb c' "]" then Returned (VArr [], r')
                    else parse_elements f r []
                | [] => Threw (SyntaxError "Unexpected end of JSON input")
                end
              else if Ascii.eqb c dq then
                p <- parse_chars r ;; Returned (VStr (fst p), snd p)
              else
                match expect (t "null") (c :: r), expect (t "true") (c :: r),
                      expect (t "false") (c :: r) with
                | Some r', _, _ => Returned (VNull, r')
                | _, Some r', _ => Returned (VBool true, r')
                | _, _, Some r' => Returned (VBool false, r')
                | None, None, None => parse_number (c :: r)
                end
          end).
  now rewrite (@skip_ws_stop c r H).
Qed.

Lemma parse_elements_S (f : nat) (s : text) (acc : list value) :
  parse_elements (S f) s acc
  = (p <- parse_value f s ;;
     match skip_ws (snd p) with
     | c :: r =>
         if Ascii.eqb c "," then parse_elements f r (fst p :: acc)
         else if Ascii.eqb c "]" then Returned (VArr (List.rev (fst p :: acc)), r)
         else Threw (SyntaxError "Unexpected token in JSON")
     | [] => Threw (SyntaxError "Unexpected end of JSON input")
     end).
Proof. reflexivity. Qed.

Lemma parse_members_S (f : nat) (r : text) (acc : list (string * value)) :
  parse_members (S f) (dq :: r) acc
  = (k <- parse_chars r ;;
     match skip_ws (snd k) with
     | c1 :: r1 =>
         if Ascii.eqb c1 ":" then
           p <- parse_value f r1 ;;
           match skip_ws (snd p) with
           | c2 :: r2 =>
               if Ascii.eqb c2 ","
               then parse_members f r2 (JS.put (fst k) (fst p) acc)
               else if Ascii.eqb c2 "}"
               then Returned (VObj (JS.put (fst k) (fst p) acc), r2)
               else Threw (SyntaxError "Unexpected token in JSON")
           | [] => Threw (SyntaxError "Unexpected end of JSON input")
           end
         else Threw (SyntaxError "Unexpected token in JSON")
     | [] => Threw (SyntaxError "Unexpected end of JSON input")
     end).
Proof. reflexivity. Qed.


Lemma join_cons (sep p : text) (ps : list text) :
  ps <> [] -> join sep (p :: ps) = p ++ sep ++ join sep ps.
Proof. destruct ps; [contradiction | reflexivity]. Qed.

Lemma join_cons2 (sep p q : text) (ps : list text) :
  join sep (p :: q :: ps) = p ++ sep ++ join sep (q :: ps).
Proof. reflexivity. Qed.

Lemma elements_read_back (gap indent inner : nat) (elems : list value) :
  Forall reads_back elems ->
  elems <> [] ->
  forall acc fuel rest,
    List.length (join (t "," ++ brk gap inner) (element_texts gap inner elems))
      < fuel ->
    parse_elements fuel
      (brk gap inner
         ++ join (t "," ++ brk gap inner) (element_texts gap inner elems)
         ++ brk gap indent ++ "]"%char :: rest) acc
    = Returned (VArr (List.rev acc ++ elems), rest).
Proof.
  induction elems as [|e elems IH]; intros Hall Hne acc fuel rest Hfuel;
    [contradiction|].
  inversion Hall as [|? ? He Hrest]; subst.
  destruct (He gap inner) as (c & out & Hser & Hws & _ & Hparse).
  destruct fuel as [|f]; [inversion Hfuel|].
  rewrite parse_elements_S, (@parse_value_skip _ _ _ (@skip_ws_brk _ _ _)).
  destruct elems as [|e2 elems].
  - unfold element_texts in *. simpl in Hfuel |- *. rewrite Hser in *.
    simpl in Hfuel. cbn [app]. rewrite Hparse by lia.
    cbn [JS.bind fst snd]. rewrite skip_ws_brk. reflexivity.
  - unfold element_texts in *. cbn [map] in Hfuel |- *.
    rewrite Hser in *. rewrite join_cons2 in Hfuel |- *.
    rewrite !length_app in Hfuel. cbn [List.length] in Hfuel.
    rewrite <- !app_assoc. cbn [app]. rewrite Hparse by lia.
    cbn [JS.bind fst snd]. simpl (t "," ++ _).
    rewrite skip_ws_stop by reflexivity.
    change (Ascii.eqb "," ",") with true. cbv iota.
    cbn [map] in IH. rewrite IH; [|assumption|discriminate|lia].
    simpl. now rewrite <- app_assoc.
Qed.


Lemma put_fresh (k : string) (x : value) (acc : list (string * value)) :
  JS.own k acc = None -> JS.put k x acc = acc ++ [(k, x)].
Proof.
  induction acc as [|[k' v] acc IH]; simpl; [reflexivity|].
  destruct (String.eqb k k'); [discriminate|].
  intros H. now rewrite IH.
Qed.

Lemma own_app_fresh (k k' : string) (x : value) (acc : list (string * value)) :
  JS.own k' acc = None -> k' <> k -> JS.own k' (acc ++ [(k, x)]) = None.
Proof.
  intros Hacc Hne. induction acc as [|[k0 v] acc IH]; simpl in *.
  - apply String.eqb_neq in Hne. now rewrite Hne.
  - destruct (String.eqb k' k0); [discriminate | now apply IH].
Qed.

Lemma member_texts_cons (gap inner : nat) (k : string) (x : value)
    (props : list (string * value)) (out : text) :
  SerializeJSONProperty gap inner x = Some out ->
  member_texts gap inner ((k, x) :: props)
  = (QuoteJSONString k ++ colon gap ++ out) :: member_texts gap inner props.
Proof. intros H. unfold member_texts. simpl. now rewrite H. Qed.

Lemma colon_head (gap : nat) :
  exists w,
    (forall s, colon gap ++ s = ":"%char :: w ++ s)
    /\ (forall s, skip_ws (w ++ s) = skip_ws s)
    /\ List.length (colon gap) = S (List.length w).
Proof.
  unfold colon. destruct (Nat.eqb gap 0).
  - exists []. repeat split.
  - exists [sp]. repeat split.
Qed.

Lemma members_read_back (gap indent inner : nat) (props : list (string * value)) :
  Forall (fun kv => reads_back (snd kv)) props ->
  props <> [] ->
  forall acc fuel rest,
    (forall kv, In kv props -> JS.own (fst kv) acc = None) ->
    NoDup (map fst props) ->
    List.length (join (t "," ++ brk gap inner) (member_texts gap inner props))
      < fuel ->
    parse_members fuel
      (brk gap inner
         ++ join (t "," ++ brk gap inner) (member_texts gap inner props)
         ++ brk gap indent ++ "}"%char :: rest) acc
    = Returned (VObj (acc ++ props), rest).
Proof.
  destruct (colon_head gap) as (w & Hc & Hw & Hlen).
  induction props as [|[k x] props IH];
    intros Hall Hne acc fuel rest Hfresh Hnodup Hfuel; [contradiction|].
  inversion Hall as [|? ? Hx Hrest]; subst. simpl in Hx.
  inversion Hnodup as [|? ? Hk Hnodup']; subst.
  destruct (Hx gap inner) as (c & out & Hser & Hws & _ & Hparse).
  destruct fuel as [|f]; [inversion Hfuel|].
  assert (JS.own k acc = None) as Hkacc by (apply (Hfresh (k, x)); now left).
  rewrite (@parse_members_skip _ _ _ _ (@skip_ws_brk _ _ _)).
  rewrite (@member_texts_cons gap inner k x props _ Hser) in Hfuel |- *.
  destruct props as [|[k2 x2] props].
  - cbn [member_texts flat_map join] in Hfuel |- *.
    unfold QuoteJSONString in Hfuel |- *.
    rewrite !length_app in Hfuel. cbn [List.length] in Hfuel.
    rewrite !length_app in Hfuel. cbn [List.length] in Hfuel.
    rewrite <- !app_assoc. cbn [app]. rewrite <- !app_assoc. cbn [app].
    rewrite Hc, parse_members_S, parse_chars_quoted. cbn [JS.bind fst snd].
    rewrite skip_ws_stop by reflexivity.
    change (Ascii.eqb ":" ":") with true. cbv iota.
    rewrite (@parse_value_skip _ _ _ (Hw _)), Hparse by lia.
    cbn [JS.bind fst snd]. rewrite (@put_fresh k x acc Hkacc).
    rewrite skip_ws_brk. rewrite skip_ws_stop by reflexivity. reflexivity.
  - inversion Hrest as [|? ? Hx2 _]; subst. simpl in Hx2.
    destruct (Hx2 gap inner) as (c2 & out2 & Hser2 & _).
    pose proof (@member_texts_cons gap inner k2 x2 props _ Hser2) as Hms.
    assert (member_texts gap inner ((k2, x2) :: props) <> []) as Hmore
      by (rewrite Hms; discriminate).
    rewrite (join_cons _ _ Hmore) in Hfuel |- *.
    unfold QuoteJSONString in Hfuel |- * at 1.
    rewrite !length_app in Hfuel. cbn [List.length] in Hfuel.
    rewrite !length_app in Hfuel. cbn [List.length] in Hfuel.
    rewrite <- !app_assoc. cbn [app]. rewrite <- !app_assoc. cbn [app].
    rewrite Hc, parse_members_S, parse_chars_quoted. cbn [JS.bind fst snd].
    rewrite skip_ws_stop by reflexivity.
    change (Ascii.eqb ":" ":") with true. cbv iota.
    rewrite (@parse_value_skip _ _ _ (Hw _)), Hparse by lia.
    cbn [JS.bind fst snd]. rewrite (@put_fresh k x acc Hkacc).
    cbn [t list_ascii_of_string app].
    rewrite skip_ws_stop by reflexivity.
    change (Ascii.eqb "," ",") with true. cbv iota.
    rewrite IH.
    + now rewrite <- app_assoc.
    + exact Hrest.
    + discriminate.
    + intros kv Hin. apply own_app_fresh.
      * apply Hfresh. now right.
      * intros Heq. apply Hk. rewrite <- Heq. now apply in_map.
    + exact Hnodup'.
    + lia.
Qed.


Lemma join_starts (sep : text) (c : ascii) (out : text) (ps : list text) :
  exists more, join sep ((c :: out) :: ps) = c :: more.
Proof. destruct ps; simpl; eauto. Qed.

Lemma skip_ws_starts (j : text) (c : ascii) (more tail : text) :
  j = c :: more -> is_ws c = false -> skip_ws (j ++ tail) = c :: more ++ tail.
Proof. intros -> H. simpl. now rewrite H. Qed.

Lemma Forall_reads_back (elems : list value) :
  Forall (fun v => data v -> reads_back v) elems ->
  Forall data elems -> Forall reads_back elems.
Proof.
  induction 1 as [|x l Hx _ IH]; intros Hd; inversion Hd; subst; auto.
Qed.

Lemma Forall_members_read_back (props : list (string * value)) :
  Forall (fun kv => data (snd kv) -> reads_back (snd kv)) props ->
  Forall (fun kv => data (snd kv)) props ->
  Forall (fun kv => reads_back (snd kv)) props.
Proof.
  induction 1 as [|x l Hx _ IH]; intros Hd; inversion Hd; subst; auto.
Qed.

(** Every plain datum is read back from its serialisation. *)
Lemma data_reads_back (v : value) : data v -> reads_back v.
Proof.
  induction v as [| |b|n|s|elems IH|props IH|f] using value_tree_ind;
    try contradiction; intros Hdata gap indent.
  - exists "n"%char, (t "ull"). repeat split.
    intros [|fuel] rest Hf; [inversion Hf | reflexivity].
  - destruct b.
    + exists "t"%char, (t "rue"). repeat split.
      intros [|fuel] rest Hf; [inversion Hf | reflexivity].
    + exists "f"%char, (t "alse"). repeat split.
      intros [|fuel] rest Hf; [inversion Hf | reflexivity].
  - exists dq, (flat_map escape (list_ascii_of_string s) ++ [dq]).
    repeat split.
    intros [|fuel] rest Hf; [inversion Hf|].
    rewrite parse_value_S by reflexivity.
    change (Ascii.eqb dq "{") with false. change (Ascii.eqb dq "[") with false.
    change (Ascii.eqb dq dq) with true. cbv iota.
    rewrite <- app_assoc. cbn [app]. now rewrite parse_chars_quoted.
  - apply data_VArr in Hdata.
    pose proof (Forall_reads_back IH Hdata) as Hall.
    change (SerializeJSONProperty gap indent (VArr elems))
      with (Some (wrap "[" "]" gap indent
                    (element_texts gap (indent + gap) elems))).
    destruct elems as [|e elems].
    + exists "["%char, (t "]"). repeat split.
      intros [|fuel] rest Hf; [inversion Hf | reflexivity].
    + inversion Hall as [|? ? He _]; subst.
      destruct (He gap (indent + gap)) as (c & out & Hser & Hws & Hclose & _).
      assert (exists more,
                 join (t "," ++ brk gap (indent + gap))
                      (element_texts gap (indent + gap) (e :: elems))
                 = c :: more) as [more Hmore].
      { unfold element_texts. cbn [map]. rewrite Hser. apply join_starts. }
      unfold wrap. unfold element_texts at 1. cbn [map].
      fold (element_texts gap (indent + gap) (e :: elems)).
      eexists. eexists. split; [reflexivity|]. repeat split.
      intros [|fuel] rest Hf; [inversion Hf|].
      rewrite parse_value_S by reflexivity.
      change (Ascii.eqb "[" "{") with false. change (Ascii.eqb "[" "[") with true.
      cbv iota. rewrite <- !app_assoc. rewrite skip_ws_brk.
      rewrite (@skip_ws_starts _ c more _ Hmore Hws), Hclose.
      cbn [app].
      rewrite (@elements_read_back gap indent (indent + gap) (e :: elems) Hall);
        [reflexivity | discriminate |].
      rewrite !length_app in Hf. cbn [List.length] in Hf. lia.
  - apply data_VObj in Hdata. destruct Hdata as [Hnodup Hdata].
    pose proof (Forall_members_read_back IH Hdata) as Hall.
    change (SerializeJSONProperty gap indent (VObj props))
      with (Some (wrap "{" "}" gap indent
                    (member_texts gap (indent + gap) props))).
    destruct props as [|[k x] props].
    + exists "{"%char, (t "}"). repeat split.
      intros [|fuel] rest Hf; [inversion Hf | reflexivity].
    + inversion Hall as [|? ? Hx _]; subst. simpl in Hx.
      destruct (Hx gap (indent + gap)) as (c & out & Hser & _).
      pose proof (@member_texts_cons gap (indent + gap) k x props _ Hser) as Hms.
      assert (exists more,
                 join (t "," ++ brk gap (indent + gap))
                      (member_texts gap (indent + gap) ((k, x) :: props))
                 = dq :: more) as [more Hmore].
      { rewrite Hms. unfold QuoteJSONString. cbn [app]. apply join_starts. }
      unfold wrap. rewrite Hms. cbv iota. rewrite <- Hms.
      eexists. eexists. split; [reflexivity|]. repeat split.
      intros [|fuel] rest Hf; [inversion Hf|].
      rewrite parse_value_S by reflexivity.
      change (Ascii.eqb "{" "{") with true. cbv iota.
      rewrite <- !app_assoc. rewrite skip_ws_brk.
      rewrite (@skip_ws_starts _ dq more _ Hmore eq_refl).
      change (Ascii.eqb dq "}") with false. cbv iota.
      cbn [app].
      rewrite (@members_read_back gap indent (indent + gap) ((k, x) :: props) Hall);
        [reflexivity | discriminate | reflexivity | exact Hnodup |].
      rewrite !length_app in Hf. cbn [List.length] in Hf. lia.
Qed.

Lemma length_string_of_list_ascii (l : list ascii) :
  String.length (string_of_list_ascii l) = List.length l.
Proof. induction l as [|c l IH]; simpl; [reflexivity | now rewrite IH]. Qed.

(** [JSON.parse] gives back every plain datum that [JSON.stringify]
    wrote, whatever the indentation. *)
Lemma parse_stringify (v : value) (space : nat) (json : string) :
  data v ->
  stringify v space = Some json ->
  parse json = Returned v.
Proof.
  intros Hdata. unfold stringify, parse.
  destruct (data_reads_back v Hdata (Nat.min 10 space) 0)
    as (c & out & Hser & _ & _ & Hparse).
  rewrite Hser. cbn [option_map]. intros [= <-].
  change (String c (string_of_list_ascii out))
    with (string_of_list_ascii (c :: out)).
  rewrite list_ascii_of_string_of_list_ascii, length_string_of_list_ascii.
  assert (List.length out < 2 * List.length (c :: out) + 2) as Hfuel
    by (cbn [List.length]; lia).
  pose proof (Hparse _ [] Hfuel) as Hp. rewrite app_nil_r in Hp.
  rewrite Hp. reflexivity.
Qed.

Lemma parse_stringify_witness :
  match stringify (VObj [("notes", VArr [VStr "late again"; VBool true; VNull]);
                         ("user", VStr "9")]) 2 with
  | Some json =>
      parse json
      = Returned (VObj [("notes", VArr [VStr "late again"; VBool true; VNull]);
                        ("user", VStr "9")])
  | None => False
  end.
Proof.
  destruct (stringify (VObj [("notes", VArr [VStr "late again"; VBool true; VNull]);
                             ("user", VStr "9")]) 2) as [json|] eqn:Hjson.
  - apply (@parse_stringify _ 2 json); [|exact Hjson].
    apply data_VObj. split.
    + simpl. repeat constructor; simpl; intuition discriminate.
    + constructor; [|repeat constructor].
      simpl snd. apply data_VArr. repeat constructor.
  - vm_compute in Hjson. discriminate.
Defined.

End JsonRoundTrip.

(* ------------------------------------------------------------------ *)
(** ** Adding a note, then getting the notes                           *)
(* ------------------------------------------------------------------ *)

Section AddThenGet.
Import Notes.

Lemma stringify_data (v : value) (space : nat) :
  JSON.data v -> exists json, JSON.stringify v space = Some json.
Proof.
  intros Hdata. unfold JSON.stringify.
  destruct (data_reads_back v Hdata (Nat.min 10 space) 0) as (c & out & Hser & _).
  rewrite Hser. simpl. eauto.
Qed.


Lemma data_notes_payload (ns : list Note) : JSON.data (notes_payload ns).
Proof.
  unfold notes_payload. apply data_VObj. split.
  - simpl. constructor; [simpl; tauto | constructor].
  - constructor; [|constructor]. simpl snd. apply data_VArr.
    induction ns as [|n ns IH]; simpl; constructor; [|exact IH].
    apply data_VObj. split.
    + simpl. repeat constructor; simpl; intuition discriminate.
    + repeat constructor.
Qed.

Lemma get_with_record (env : Env) (interaction : Interaction) (s : State)
    (U : string) (target : User) (r : userRecord) :
  known env U target ->
  faults (db s) = [] ->
  find (matches U) (docs (db s)) = Some r ->
  get env (user_arg U) interaction s
  = match JSON.stringify (notes_payload (notes r)) 2 with
    | Some json =>
        Resolved None
          (mkState (mkDb (docs (db s)) (calls (db s) ++ [FindOne U]) [])
             (sent s ++
                [[mkAttachment json
                    ("notes_for_" ++ U ++ "_" ++ now env ++ ".json")]]))
    | None =>
        Rejected (JS.TypeError "The first argument must be of type string")
          (mkState (mkDb (docs (db s)) (calls (db s) ++ [FindOne U]) []) (sent s))
    end.
Proof.
  intros Hknown Hfaults Hfind.
  pose proof (known_id Hknown) as Hid. unfold known in Hknown.
  unfold get, bind, fetch, user_arg. simpl.
  rewrite Hknown. unfold ret, getRecord, findOne, call.
  rewrite Hfaults, Hid, Hfind. cbn [db docs calls sent faults].
  change (VObj [("notes", VArr (map value_of_Note (notes r)))])
    with (notes_payload (notes r)).
  destruct (JSON.stringify (notes_payload (notes r)) 2); reflexivity.
Qed.

(** C9, as amended. Start from a store that has no record for [U] and
    rejects no call, and let the invoking user be another user than [U].
    Then [add user=U note=N] followed by [get user=U] delivers one reply
    with one file, and the text of that file parses, as JSON, to an
    object whose only member [notes] is an array of one object with the
    members [contents] (the note), [addedBy] (the invoking user's id) and
    [date] (the formatted date of the [add]).  The claim's note "test" is
    the case [N = "test"]. *)
Theorem add_then_get_round_trip
    (env env' : Env) (interaction : Interaction) (s : State)
    (U N : string) (target : User) :
  known env U target ->
  known env' U target ->
  id (invoker interaction) <> id target ->
  faults (db s) = [] ->
  find (matches U) (docs (db s)) = None ->
  exists s1 s2 json,
    add env (add_args U N) interaction s
      = Resolved (Some (successEmbed "Succesfully added that note")) s1
    /\ get env' (user_arg U) interaction s1 = Resolved None s2
    /\ sent s2 = sent s ++
         [[mkAttachment json ("notes_for_" ++ U ++ "_" ++ now env' ++ ".json")]]
    /\ JSON.parse json
       = Returned (VObj [("notes",
           VArr [VObj [("contents", VStr N);
                       ("addedBy", VStr (id (invoker interaction)));
                       ("date", VStr (now env))]])]).
Proof.
  intros Hknown Hknown' Hother Hfaults Hnone.
  destruct (@add_to_store env interaction s U N target
              Hknown Hother Hfaults)
    as (s1 & Hadd & Hfind & _ & Hfaults1 & Hsent).
  rewrite Hnone in Hfind. cbn [app] in Hfind.
  set (ns := [mkNote N (id (invoker interaction)) (now env)]) in *.
  destruct (@stringify_data (notes_payload ns) 2 (data_notes_payload ns)) as [json Hjson].
  exists s1. eexists. exists json.
  split; [exact Hadd|].
  rewrite (@get_with_record env' interaction s1 U target _ Hknown' Hfaults1 Hfind).
  cbn [notes]. rewrite Hjson.
  split; [reflexivity|]. split.
  - cbn [sent]. now rewrite Hsent.
  - apply (@parse_stringify (notes_payload ns) 2 json (data_notes_payload ns) Hjson).
Qed.

Lemma add_then_get_round_trip_witness :
  exists s1 s2 json,
    add (mkEnv [mkUser "7" "ann#1"; mkUser "9" "bob#2"] "2023-01-01")
        (add_args "9" "test") (mkInteraction (mkUser "7" "ann#1"))
        (mkState (mkDb [] [] []) [])
      = Resolved (Some (successEmbed "Succesfully added that note")) s1
    /\ get (mkEnv [mkUser "7" "ann#1"; mkUser "9" "bob#2"] "2023-01-02")
           (user_arg "9") (mkInteraction (mkUser "7" "ann#1")) s1
       = Resolved None s2
    /\ sent s2 = [[mkAttachment json "notes_for_9_2023-01-02.json"]]
    /\ JSON.parse json
       = Returned (VObj [("notes",
           VArr [VObj [("contents", VStr "test"); ("addedBy", VStr "7");
                       ("date", VStr "2023-01-01")]])]).
Proof.
  apply (@add_then_get_round_trip
           (mkEnv [mkUser "7" "ann#1"; mkUser "9" "bob#2"] "2023-01-01")
           (mkEnv [mkUser "7" "ann#1"; mkUser "9" "bob#2"] "2023-01-02")
           (mkInteraction (mkUser "7" "ann#1")) (mkState (mkDb [] [] []) [])
           "9" "test" (mkUser "9" "bob#2"));
    try reflexivity.
  simpl. discriminate.
Defined.

(** C9 fails as stated when [U] is the invoking user: [add] is refused,
    the store still has no record for [U], and [get] delivers no file. *)
Lemma add_then_get_for_oneself_delivers_nothing :
  ~ exists r1 s1 r2 s2 file,
      add (mkEnv [mkUser "7" "ann#1"] "2023-01-01") (add_args "7" "test")
          (mkInteraction (mkUser "7" "ann#1")) (mkState (mkDb [] [] []) [])
        = Resolved r1 s1
      /\ get (mkEnv [mkUser "7" "ann#1"] "2023-01-01") (user_arg "7")
             (mkInteraction (mkUser "7" "ann#1")) s1
         = Resolved r2 s2
      /\ In file (concat (sent s2)).
Proof.
  intros (r1 & s1 & r2 & s2 & file & Hadd & Hget & Hin).
  vm_compute in Hadd. inversion Hadd; subst.
  vm_compute in Hget. inversion Hget; subst.
  exact Hin.
Qed.

End AddThenGet.

(* ------------------------------------------------------------------ *)
(** ** The module constructor                                          *)
(* ------------------------------------------------------------------ *)

Section ModuleConstructor.

Lemma count_logEvent (c : EventCategory.t) (e : Logger.EventInfo) (v : nat)
    (l : list Logger.LogRecord) :
  Logger.count c (Logger.logEvent e v l)
  = Logger.count c l + (if EventCategory.eqb (Logger.category e) c then 1 else 0).
Proof.
  unfold Logger.count, Logger.logEvent.
  rewrite filter_app, length_app. simpl.
  destruct (EventCategory.eqb (Logger.category e) c); reflexivity.
Qed.

(** A name that the modules object neither owns nor inherits is not
    found by [in]. *)
Lemma js_in_absent (k : string) (props : list (string * value)) :
  JS.own k props = None ->
  JS.mem k JS.Object_prototype_keys = false ->
  js_in k (VObj props) = Returned false.
Proof. intros Hown Hmem. unfold js_in. now rewrite Hown, Hmem. Qed.

(** X1. The constructor on a root name that [in] does not find in
    [botConfig.modules]: it returns, the module is disabled and has no
    config, and the log has grown by one warning and one info record. *)
Lemma new_Module_without_config
    (command helpMessage : string) (rootModuleName : option string)
    (w : World) (modules : value) :
  js_get (botConfig w) "modules" = Returned modules ->
  js_in (root_name command rootModuleName) modules = Returned false ->
  exists m w',
    new_Module command helpMessage rootModuleName w = Returned (m, w')
    /\ enabled m = VBool false
    /\ config m = VUndefined
    /\ botConfig w' = botConfig w
    /\ eventLog w' = eventLog w ++
         [ Logger.mkRecord (Logger.mkEvent EventCategory.Warning "core"
             (no_config_found (root_name command rootModuleName))) 1;
           Logger.mkRecord (Logger.mkEvent EventCategory.Info "core"
             ("New module registered: " ++ command)) 3 ]
    /\ Logger.count EventCategory.Warning (eventLog w')
       = S (Logger.count EventCategory.Warning (eventLog w)).
Proof.
  intros Hmods Hin. unfold new_Module. rewrite Hmods. simpl. rewrite Hin. simpl.
  eexists. eexists. split; [reflexivity|]. simpl.
  repeat split.
  - unfold Logger.logEvent. now rewrite <- app_assoc.
  - rewrite !count_logEvent. simpl. lia.
Qed.

Lemma new_Module_without_config_witness :
  exists m w',
    new_Module "whois" "Displays information about an user" None
      (mkWorld (VObj [("modules", VObj [("note", VObj [("enabled", VBool true)])])])
               None [] [])
      = Returned (m, w')
    /\ enabled m = VBool false
    /\ Logger.count EventCategory.Warning (eventLog w') = 1.
Proof.
  destruct (@new_Module_without_config "whois"
              "Displays information about an user" None
              (mkWorld (VObj [("modules", VObj [("note", VObj [("enabled", VBool true)])])])
                       None [] [])
              (VObj [("note", VObj [("enabled", VBool true)])])
              eq_refl eq_refl)
    as (m & w' & Hnew & Hen & _ & _ & _ & Hcount).
  exists m, w'. split; [exact Hnew|]. split; [exact Hen | exact Hcount].
Defined.

(** C2 fails on the code for a name that [Object.prototype] carries.
    Whatever the modules object holds, as long as it has no entry
    "constructor": the test [in] finds the inherited property, so the
    constructor takes the branch of a found config, [enabled] becomes the
    [undefined] read from the builtin, and no warning is logged. *)
Theorem new_Module_inherited_name
    (helpMessage : string) (w : World) (entries : list (string * value)) :
  js_get (botConfig w) "modules" = Returned (VObj entries) ->
  JS.own "constructor" entries = None ->
  exists m w',
    new_Module "constructor" helpMessage None w = Returned (m, w')
    /\ enabled m = VUndefined
    /\ config m = VFunction "constructor"
    /\ Logger.count EventCategory.Warning (eventLog w')
       = Logger.count EventCategory.Warning (eventLog w).
Proof.
  intros Hmods Hown. unfold new_Module. rewrite Hmods. simpl.
  rewrite Hown. simpl.
  eexists. eexists. split; [reflexivity|]. simpl. repeat split.
  rewrite count_logEvent. simpl. lia.
Qed.

Lemma new_Module_inherited_name_witness :
  exists m w',
    new_Module "constructor" "Builds things" None
      (mkWorld (VObj [("modules", VObj [("note", VObj [("enabled", VBool true)])])])
               None [] [])
      = Returned (m, w')
    /\ enabled m = VUndefined
    /\ config m = VFunction "constructor"
    /\ Logger.count EventCategory.Warning (eventLog w') = 0.
Proof.
  apply (@new_Module_inherited_name "Builds things"
           (mkWorld (VObj [("modules", VObj [("note", VObj [("enabled", VBool true)])])])
                    None [] [])
           [("note", VObj [("enabled", VBool true)])]); reflexivity.
Defined.

End ModuleConstructor.

(* ------------------------------------------------------------------ *)
(** ** The configuration store                                         *)
(* ------------------------------------------------------------------ *)

Section ConfigStore.

(** X2. A segment that [in] does not find stops the edit: the function
    returns, [botConfig], the file and the queue are as before, and one
    error record is logged. *)
Lemma editConfigOption_missing_segment
    (location : JSONPath) (newValue : value) (w : World) :
  walk (botConfig w) location = Returned false ->
  exists w',
    editConfigOption location newValue w = Returned w'
    /\ botConfig w' = botConfig w
    /\ configFile w' = configFile w
    /\ pending w' = pending w
    /\ eventLog w' = eventLog w ++
         [Logger.mkRecord (Logger.mkEvent EventCategory.Error "core" edit_cancelled) 1].
Proof.
  intros Hwalk. unfold editConfigOption. rewrite Hwalk. simpl.
  eexists. split; [reflexivity|]. repeat split.
Qed.

Lemma editConfigOption_missing_segment_witness :
  exists w',
    editConfigOption [SegStr "modules"; SegStr "whois"; SegStr "enabled"] (VBool true)
      (mkWorld (VObj [("_set", VFunction "_set");
                      ("modules", VObj [("note", VObj [("enabled", VBool true)])])])
               (Some "{}") [] [])
      = Returned w'
    /\ botConfig w'
       = VObj [("_set", VFunction "_set");
               ("modules", VObj [("note", VObj [("enabled", VBool true)])])]
    /\ configFile w' = Some "{}"
    /\ pending w' = []
    /\ Logger.count EventCategory.Error (eventLog w') = 1.
Proof.
  destruct (@editConfigOption_missing_segment
              [SegStr "modules"; SegStr "whois"; SegStr "enabled"] (VBool true)
              (mkWorld (VObj [("_set", VFunction "_set");
                              ("modules", VObj [("note", VObj [("enabled", VBool true)])])])
                       (Some "{}") [] [])
              eq_refl)
    as (w' & Hrun & Hcfg & Hfile & Hq & Hlog).
  exists w'. repeat split; try assumption. now rewrite Hlog.
Defined.

(** C3 fails on the code when the path goes on below a value that is not
    an object: the operator [in] throws a [TypeError] on a string, so the
    async function rejects, and it has logged nothing. *)
Theorem editConfigOption_below_a_string
    (w : World) (props : list (string * value)) (key text : string)
    (seg : Segment) (rest : JSONPath) (newValue : value) :
  botConfig w = VObj props ->
  JS.own key props = Some (VStr text) ->
  editConfigOption (SegStr key :: seg :: rest) newValue w
  = Threw (JS.TypeError ("Cannot use 'in' operator to search for "
                         ++ JS.quote (key_of seg))).
Proof.
  intros Hcfg Hown. unfold editConfigOption. rewrite Hcfg. simpl.
  rewrite Hown. reflexivity.
Qed.

Lemma editConfigOption_below_a_string_witness :
  editConfigOption [SegStr "authToken"; SegStr "value"] (VStr "?win")
    (mkWorld (VObj [("_set", VFunction "_set"); ("authToken", VStr "abc")])
             None [] [])
  = Threw (JS.TypeError "Cannot use 'in' operator to search for 'value'").
Proof.
  apply (@editConfigOption_below_a_string
           (mkWorld (VObj [("_set", VFunction "_set"); ("authToken", VStr "abc")])
                    None [] [])
           [("_set", VFunction "_set"); ("authToken", VStr "abc")]
           "authToken" "abc" (SegStr "value") [] (VStr "?win")); reflexivity.
Defined.

(** A segment that names a property of [Object.prototype] is found by
    [in] although the tree does not hold it: the edit goes through, the
    object gets the property and the file is about to be patched. *)
Lemma editConfigOption_inherited_segment :
  editConfigOption [SegStr "modules"; SegStr "constructor"] (VStr "?win")
    (mkWorld (VObj [("_set", VFunction "_set"); ("modules", VObj [])])
             None [] [])
  = Returned
      (mkWorld (VObj [("_set", VFunction "_set");
                      ("modules", VObj [("constructor", VStr "?win")])])
               None []
               [ReadFileTask [SegStr "modules"; SegStr "constructor"] (VStr "?win")]).
Proof. reflexivity. Qed.

(** When [editConfigOption] returns, the file is what it was, and for a
    path that was found the read of the file is still in the queue. *)
Lemma editConfigOption_leaves_the_file
    (location : JSONPath) (newValue : value) (w w' : World) :
  editConfigOption location newValue w = Returned w' ->
  configFile w' = configFile w
  /\ (walk (botConfig w) location = Returned true ->
        pending w' = pending w ++ [ReadFileTask location newValue]).
Proof.
  unfold editConfigOption. intros H.
  destruct (walk (botConfig w) location) as [[|]| |] eqn:Hwalk; simpl in H;
    try discriminate.
  - destruct (js_get (botConfig w) "_set") as [setter| |]; simpl in H;
      try discriminate.
    destruct setter; try discriminate.
    destruct (_set (botConfig w) location newValue) as [cfg| |]; simpl in H;
      try discriminate.
    inversion H; subst. simpl. repeat split.
  - inversion H; subst. simpl. repeat split. discriminate.
Qed.

(** C4 fails on the code.  When [editConfigOption] returns, the file is
    what it was, so a fresh parse of it yields what it yielded before the
    edit; for a path that was found, the read of the file is still in the
    queue. *)
Theorem editConfigOption_returns_before_the_write
    (location : JSONPath) (newValue : value) (w w' : World) :
  editConfigOption location newValue w = Returned w' ->
  configFile w' = configFile w
  /\ (forall lib : Jsonc,
        option_map parse (configFile w') = option_map parse (configFile w))
  /\ (walk (botConfig w) location = Returned true ->
        pending w' = pending w ++ [ReadFileTask location newValue]).
Proof.
  intros H.
  destruct (@editConfigOption_leaves_the_file location newValue w w' H)
    as [Hfile Hqueue].
  split; [exact Hfile|]. split; [|exact Hqueue].
  intros lib. now rewrite Hfile.
Qed.

Lemma editConfigOption_returns_before_the_write_witness :
  let w := mkWorld (VObj [("_set", VFunction "_set"); ("authToken", VStr "abc")])
                   (Some "{ authToken: abc }") [] [] in
  let w' := mkWorld (VObj [("_set", VFunction "_set"); ("authToken", VStr "?win")])
                    (Some "{ authToken: abc }") []
                    [ReadFileTask [SegStr "authToken"] (VStr "?win")] in
  configFile w' = configFile w
  /\ (forall lib : Jsonc,
        option_map parse (configFile w') = option_map parse (configFile w))
  /\ (walk (botConfig w) [SegStr "authToken"] = Returned true ->
        pending w' = pending w ++ [ReadFileTask [SegStr "authToken"] (VStr "?win")]).
Proof.
  intros w w'.
  apply (@editConfigOption_returns_before_the_write
           [SegStr "authToken"] (VStr "?win") w w').
  reflexivity.
Defined.

Lemma Object_assign_steps (l : list (string * value)) (acc : outcome value) :
  (forall e, acc <> Threw e) ->
  (forall x, acc = Returned x -> exists props, x = VObj props) ->
  forall e,
    fold_left (fun a kv => JS.bind a (fun t => js_set t (fst kv) (snd kv))) l acc
    <> Threw e.
Proof.
  revert acc. induction l as [|[k v] l IH]; simpl; intros acc Hno Hobj e.
  - apply Hno.
  - apply IH.
    + intros e'. destruct acc as [x| |]; simpl.
      * destruct (Hobj x eq_refl) as [props ->]. simpl.
        destruct (String.eqb k "__proto__"); discriminate.
      * exfalso. now apply (Hno e0).
      * discriminate.
    + intros x Hx. destruct acc as [y| |]; simpl in Hx; try discriminate.
      destruct (Hobj y eq_refl) as [props ->]. simpl in Hx.
      destruct (String.eqb k "__proto__"); [discriminate|].
      inversion Hx. eauto.
Qed.

(** C5 fails on the code for a file that is there and does not parse.
    jsonc-parser's [parse] does not throw on bad input, and the syntax
    errors it reports are not asked for; so whatever the text of the file
    and whatever the parser makes of it, [readConfigFromFileSystem] does
    not throw. *)
Theorem readConfig_does_not_throw_on_a_present_file
    (lib : Jsonc) (props : list (string * value)) (text : string)
    (records : list Logger.LogRecord) (queue : list Task) (e : JsError) :
  readConfigFromFileSystem (mkWorld (VObj props) (Some text) records queue)
  <> Threw e.
Proof.
  unfold readConfigFromFileSystem. simpl.
  destruct (Object_assign (VObj props) (parse text)) as [cfg|e'|] eqn:H;
    try discriminate.
  exfalso. revert H. unfold Object_assign.
  apply Object_assign_steps; [discriminate|].
  intros x Hx. inversion Hx. eauto.
Qed.

(** X4. A missing file makes the load throw its fixed error, whatever
    [botConfig] holds. *)
Lemma readConfig_throws_without_file
    (lib : Jsonc) (cfg : value) (records : list Logger.LogRecord)
    (queue : list Task) :
  readConfigFromFileSystem (mkWorld cfg None records queue)
  = Threw (mkError "Error"
      "Unable to locate or process config.jsonc, are you sure it exists?").
Proof. reflexivity. Qed.

End ConfigStore.

Section InMemoryEdit.


Lemma own_put_same (k : string) (x : value) (props : list (string * value)) :
  JS.own k (JS.put k x props) = Some x.
Proof.
  induction props as [|[k' v] props IH]; simpl.
  - now rewrite String.eqb_refl.
  - destruct (String.eqb k k') eqn:E; simpl; rewrite E; [reflexivity | exact IH].
Qed.

Lemma nth_put_nth (i : nat) (x : value) (elems : list value) :
  nth i (JS.put_nth i x elems) VUndefined = x.
Proof.
  revert elems. induction i as [|i IH]; intros [|e elems]; simpl; auto.
Qed.

Lemma js_set_get (schema schema' : value) (k : string) (x : value) :
  js_set schema k x = Returned schema' -> js_get schema' k = Returned x.
Proof.
  destruct schema; simpl; try discriminate.
  - destruct (JS.array_index k) as [i|] eqn:Hi; [|discriminate].
    intros H. inversion H; subst. simpl. rewrite Hi. now rewrite nth_put_nth.
  - destruct (String.eqb k "__proto__"); [discriminate|].
    intros H. inversion H; subst. simpl. now rewrite own_put_same.
Qed.

Lemma js_set_container (schema schema' : value) (k : string) (x : value) :
  js_set schema k x = Returned schema' -> container schema.
Proof. destruct schema; simpl; try discriminate; auto. Qed.

Lemma js_get_container (schema sub : value) (k : string) :
  js_get schema k = Returned sub -> container sub -> container schema.
Proof.
  destruct schema; unfold js_get; try discriminate; try (simpl; now auto).
  destruct (JS.mem k JS.function_member_names); [discriminate|].
  intros H. inversion H; subst. auto.
Qed.

Lemma _set_container (path : JSONPath) (schema schema' x : value) :
  _set schema path x = Returned schema' -> container schema.
Proof.
  revert schema schema'.
  induction path as [|seg path IH]; intros schema schema'.
  - simpl. apply js_set_container.
  - destruct path as [|seg' path].
    + simpl. apply js_set_container.
    + change (_set schema (seg :: seg' :: path) x)
        with (sub <- js_get schema (key_of seg) ;;
              sub' <- _set sub (seg' :: path) x ;;
              Returned (write_back schema (key_of seg) sub')).
      destruct (js_get schema (key_of seg)) as [sub| |] eqn:Hget;
        cbn [JS.bind]; try discriminate.
      destruct (_set sub (seg' :: path) x) as [sub'| |] eqn:Hset;
        cbn [JS.bind]; try discriminate.
      intros _. eapply js_get_container; [exact Hget|]. eapply IH. exact Hset.
Qed.

Lemma write_back_get (schema sub sub' : value) (k : string) :
  js_get schema k = Returned sub -> container sub ->
  js_get (write_back schema k sub') k = Returned sub'.
Proof.
  destruct schema; unfold js_get at 1; try discriminate.
  - unfold write_back. destruct (JS.array_index k) as [i|] eqn:Hi.
    + intros H Hc. inversion H; subst.
      destruct (Nat.ltb i (List.length elems)) eqn:Hlt.
      * unfold js_get. rewrite Hi. now rewrite nth_put_nth.
      * apply Nat.ltb_ge in Hlt. rewrite nth_overflow in Hc by exact Hlt.
        contradiction.
    + destruct (String.eqb k "length"); [|discriminate].
      intros H Hc. inversion H; subst. contradiction.
  - unfold write_back. destruct (JS.own k props) as [v|] eqn:Hown.
    + intros _ _. unfold js_get. now rewrite own_put_same.
    + destruct (String.eqb k "__proto__"); [discriminate|].
      destruct (JS.mem k JS.Object_prototype_keys);
        intros H Hc; inversion H; subst; contradiction.
  - destruct (JS.mem k JS.function_member_names); [discriminate|].
    intros H Hc. inversion H; subst. contradiction.
Qed.

(** What [_set] returns holds the new value at the path, read back
    segment by segment, for every path that is not empty. *)
Lemma _set_lookup (path : JSONPath) (schema schema' x : value) :
  path <> [] ->
  _set schema path x = Returned schema' ->
  lookup schema' path = Returned x.
Proof.
  revert schema schema'.
  induction path as [|seg path IH]; intros schema schema' Hne; [contradiction|].
  destruct path as [|seg' path].
  - simpl. intros H. now rewrite (@js_set_get _ _ _ _ H).
  - change (_set schema (seg :: seg' :: path) x)
      with (sub <- js_get schema (key_of seg) ;;
            sub' <- _set sub (seg' :: path) x ;;
            Returned (write_back schema (key_of seg) sub')).
    destruct (js_get schema (key_of seg)) as [sub| |] eqn:Hget;
      cbn [JS.bind]; try discriminate.
    destruct (_set sub (seg' :: path) x) as [sub'| |] eqn:Hset;
      cbn [JS.bind]; try discriminate.
    intros H. inversion H; subst.
    change (lookup (write_back schema (key_of seg) sub') (seg :: seg' :: path))
      with (y <- js_get (write_back schema (key_of seg) sub') (key_of seg) ;;
            lookup y (seg' :: path)).
    rewrite (@write_back_get _ _ sub' _ Hget (@_set_container _ _ _ _ Hset)).
    cbn [JS.bind]. apply (IH sub sub'); [discriminate | exact Hset].
Qed.

Lemma own_path_walk (path : JSONPath) (v : value) :
  own_path v path = true -> walk v path = Returned true.
Proof.
  revert v. induction path as [|seg path IH]; intros v; [reflexivity|].
  cbn [own_path walk]. destruct v; try discriminate.
  - unfold js_in, js_get.
    destruct (JS.array_index (key_of seg)) as [i|]; [|discriminate].
    intros H. apply andb_prop in H. destruct H as [Hlt Hrest].
    rewrite Hlt. cbn [JS.bind]. now apply IH.
  - unfold js_in, js_get. intros H. apply andb_prop in H. destruct H as [_ H].
    destruct (JS.own (key_of seg) props) as [x|]; [|discriminate].
    cbn [JS.bind]. now apply IH.
Qed.

Lemma own_path_set (path : JSONPath) (v x : value) :
  path <> [] -> own_path v path = true ->
  exists v', _set v path x = Returned v'.
Proof.
  revert v. induction path as [|seg path IH]; intros v Hne; [contradiction|].
  destruct path as [|seg' path].
  - cbn [own_path _set]. destruct v; try discriminate.
    + unfold js_set. destruct (JS.array_index (key_of seg)); [eauto | discriminate].
    + unfold js_set. intros H. apply andb_prop in H. destruct H as [Hk _].
      apply negb_true_iff in Hk. rewrite Hk. eauto.
  - intros H.
    change (_set v (seg :: seg' :: path) x)
      with (sub <- js_get v (key_of seg) ;;
            sub' <- _set sub (seg' :: path) x ;;
            Returned (write_back v (key_of seg) sub')).
    assert (exists sub, js_get v (key_of seg) = Returned sub
                        /\ own_path sub (seg' :: path) = true)
      as (sub & Hget & Hsub).
    { revert H. cbn [own_path]. destruct v; try discriminate.
      - unfold js_get. destruct (JS.array_index (key_of seg)); [|discriminate].
        intros H. apply andb_prop in H. destruct H as [_ H]. eauto.
      - unfold js_get. intros H. apply andb_prop in H. destruct H as [_ H].
        destruct (JS.own (key_of seg) props) as [y|]; [eauto | discriminate]. }
    destruct (IH sub ltac:(discriminate) Hsub) as [sub' Hset].
    rewrite Hget. cbn [JS.bind]. rewrite Hset. cbn [JS.bind]. eauto.
Qed.

(** X3. The in-memory half of C4, for the paths of own properties.  For
    a path that is not empty and each of whose segments names a property
    that the object reached owns (other than [__proto__]) or an index
    within the array reached, and with [_set] the method of [botConfig]:
    [editConfigOption] returns, and [botConfig] then holds the new value
    at that path; the file and the log are as before, and the read of
    the file is queued. *)
Lemma editConfigOption_sets_in_memory
    (location : JSONPath) (newValue : value) (w : World) (f : string) :
  location <> [] ->
  own_path (botConfig w) location = true ->
  js_get (botConfig w) "_set" = Returned (VFunction f) ->
  exists w',
    editConfigOption location newValue w = Returned w'
    /\ lookup (botConfig w') location = Returned newValue
    /\ configFile w' = configFile w
    /\ eventLog w' = eventLog w
    /\ pending w' = pending w ++ [ReadFileTask location newValue].
Proof.
  intros Hne Hown Hsetter.
  destruct (@own_path_set location (botConfig w) newValue Hne Hown) as [cfg Hset].
  unfold editConfigOption. rewrite (@own_path_walk location _ Hown).
  cbn [JS.bind]. rewrite Hsetter. cbn [JS.bind]. rewrite Hset. cbn [JS.bind].
  eexists. split; [reflexivity|].
  cbn [enqueue set_botConfig botConfig configFile eventLog pending].
  split; [|repeat split]. now apply (@_set_lookup _ _ _ _ Hne Hset).
Qed.

Lemma editConfigOption_sets_in_memory_witness :
  exists w',
    editConfigOption [SegStr "owners"; SegNum 1] (VStr "11")
      (mkWorld (VObj [("_set", VFunction "_set");
                      ("owners", VArr [VStr "7"; VStr "9"])])
               None [] [])
    = Returned w'
    /\ lookup (botConfig w') [SegStr "owners"; SegNum 1] = Returned (VStr "11").
Proof.
  destruct (@editConfigOption_sets_in_memory
              [SegStr "owners"; SegNum 1] (VStr "11")
              (mkWorld (VObj [("_set", VFunction "_set");
                              ("owners", VArr [VStr "7"; VStr "9"])])
                       None [] [])
              "_set")
    as (w' & Hrun & Hlookup & _).
  - discriminate.
  - reflexivity.
  - reflexivity.
  - exists w'. split; [exact Hrun | exact Hlookup].
Defined.

(** With an empty path every segment is found, and the value lands under
    the key "undefined" of [botConfig]: the tree itself is not replaced. *)
Lemma editConfigOption_empty_path :
  editConfigOption [] (VStr "?win")
    (mkWorld (VObj [("_set", VFunction "_set"); ("authToken", VStr "abc")])
             None [] [])
  = Returned
      (mkWorld (VObj [("_set", VFunction "_set"); ("authToken", VStr "abc");
                      ("undefined", VStr "?win")])
               None [] [ReadFileTask [] (VStr "?win")]).
Proof. reflexivity. Qed.


End InMemoryEdit.

(* ------------------------------------------------------------------ *)
(** ** Dispatch                                                        *)
(* ------------------------------------------------------------------ *)

Section DispatchProperties.
Import Dispatch.

(** Induction over a module tree: a property that holds for a module as
    soon as it holds for its submodules holds for every module. *)
Lemma Module_tree_ind (P : Module -> Prop) :
  (forall c a h subs e cfg r,
      Forall P subs -> P (mkModule c a h subs e cfg r)) ->
  forall m, P m.
Proof.
  intros step.
  exact (fix ind (m : Module) : P m :=
           match m with
           | mkModule c a h subs e cfg r =>
               step c a h subs e cfg r
                 ((fix all (l : list Module) : Forall P l :=
                     match l with
                     | [] => @Forall_nil _ P
                     | x :: l' => @Forall_cons _ P x l' (ind x) (all l')
                     end) subs)
           end).
Qed.



Lemma target_of_cons (m c : Module) (below : list Module) :
  target_of m (c :: below) = target_of c below.
Proof.
  unfold target_of. revert m c.
  induction below as [|x below IH]; intros m c.
  - reflexivity.
  - change (last (c :: x :: below) m) with (last (x :: below) m).
    rewrite (IH m x), (IH c x). reflexivity.
Qed.

Lemma reachable_enabled (m : Module) (token : string) :
  reachable m token = true -> is_enabled m.
Proof. unfold reachable, is_enabled. intros H. now apply andb_prop in H. Qed.

(** Running the first reachable module of a list: when the outcome is an
    execution, a module of the list was reachable and its own run gave
    the rest of the path. *)
Lemma among_Execute (token : string) (run : Module -> Resolution)
    (none : Resolution) (l : list Module) (i : nat)
    (path : list nat) (args : string) :
  (forall p a, none <> Execute p a) ->
  among token run none l i = Execute path args ->
  exists j c path',
    path = (i + j) :: path'
    /\ nth_error l j = Some c
    /\ reachable c token = true
    /\ run c = Execute path' args.
Proof.
  intros Hnone. revert i.
  induction l as [|c l IH]; intros i; simpl.
  - intros H. now apply Hnone in H.
  - destruct (reachable c token) eqn:Hr.
    + destruct (run c) as [p a| |] eqn:Hrun; simpl; try discriminate.
      intros H. inversion H; subst.
      exists 0, c, p. rewrite Nat.add_0_r. auto.
    + intros H. destruct (IH _ H) as (j & c' & path' & -> & Hnth & Hr' & Hrun).
      exists (S j), c', path'. rewrite Nat.add_succ_r. auto.
Qed.

Lemma resolve_unfold (m : Module) (rest : string) :
  resolve m rest
  = match submodules m with
    | [] => Execute [] (trimStart rest)
    | _ :: _ =>
        let (token, rest') := next_token rest in
        among token (fun c => resolve c rest') (Help []) (submodules m) 0
    end.
Proof. destruct m as [c a h [|s0 subs] e cfg r]; reflexivity. Qed.

Lemma resolve_Execute (m : Module) :
  forall rest path args,
    resolve m rest = Execute path args ->
    exists below,
      chain (submodules m) path = Some below
      /\ Forall is_enabled below
      /\ submodules (target_of m below) = [].
Proof.
  induction m as [c a h subs e cfg r IH] using Module_tree_ind.
  intros rest path args. rewrite resolve_unfold. cbn [submodules].
  destruct subs as [|s0 subs'] eqn:Hsubs.
  - intros H. inversion H; subst. exists []. simpl. auto.
  - rewrite <- Hsubs in *. clear Hsubs.
    destruct (next_token rest) as [token rest'].
    intros H. apply among_Execute in H; [|discriminate].
    destruct H as (j & child & path' & -> & Hnth & Hreach & Hrun).
    rewrite Forall_forall in IH.
    destruct (IH child (nth_error_In _ _ Hnth) _ _ _ Hrun)
      as (below & Hchain & Hen & Hleaf).
    exists (child :: below). cbn [chain Nat.add]. rewrite Hnth, Hchain.
    split; [reflexivity|]. split.
    + constructor; [now apply (reachable_enabled child token) | exact Hen].
    + now rewrite target_of_cons.
Qed.

(** C1. Whatever the module tree and the input: when dispatch calls
    [executeCommand], the path it reports leads, from a root, through
    modules that are all enabled, down to the module that is executed, and
    that module has no submodules.  So neither the executed module nor
    any of its ancestors has [enabled] false. *)
Theorem dispatch_runs_enabled_modules_only
    (roots : list Module) (input : string) (path : list nat) (args : string) :
  dispatch roots input = Execute path args ->
  exists root below,
    chain roots path = Some (root :: below)
    /\ Forall is_enabled (root :: below)
    /\ (forall m, In m (root :: below) -> enabled m <> VBool false)
    /\ submodules (target_of root below) = [].
Proof.
  unfold dispatch. destruct (next_token input) as [token rest].
  intros H. apply among_Execute in H; [|discriminate].
  destruct H as (j & root & path' & -> & Hnth & Hreach & Hrun).
  destruct (resolve_Execute _ _ Hrun) as (below & Hchain & Hen & Hleaf).
  assert (Forall is_enabled (root :: below)) as Hall.
  { constructor; [now apply (reachable_enabled root token) | exact Hen]. }
  exists root, below. cbn [chain Nat.add]. rewrite Hnth, Hchain.
  split; [reflexivity|]. split; [exact Hall|]. split; [|exact Hleaf].
  intros m Hin Hfalse. rewrite Forall_forall in Hall.
  specialize (Hall m Hin). unfold is_enabled in Hall.
  rewrite Hfalse in Hall. discriminate.
Qed.

Lemma dispatch_runs_enabled_modules_only_witness :
  let leaf := fun c en => mkModule c [] "help" [] (VBool en) VUndefined "note" in
  let note := mkModule "note" ["n"] "Add or delete notes from users"
                [leaf "add" true; leaf "clear" false] (VBool true) VUndefined "note" in
  exists root below,
    chain [leaf "ping" false; note] [1; 0] = Some (root :: below)
    /\ Forall is_enabled (root :: below)
    /\ (forall m, In m (root :: below) -> enabled m <> VBool false)
    /\ submodules (target_of root below) = [].
Proof.
  intros leaf note.
  apply (@dispatch_runs_enabled_modules_only
           [leaf "ping" false; note] "N Add 42 late again" [1; 0] "42 late again").
  reflexivity.
Defined.

(** A disabled module is not executed even when the input is exactly its
    command, and neither is an enabled submodule of a disabled module. *)
Lemma dispatch_skips_disabled_example :
  let leaf := fun c en => mkModule c [] "help" [] (VBool en) VUndefined "note" in
  let note := mkModule "note" [] "Add or delete notes from users"
                [leaf "add" true] (VBool false) VUndefined "note" in
  dispatch [leaf "ping" false] "ping" = NoCommand
  /\ dispatch [note] "note add 42 late again" = NoCommand.
Proof. split; reflexivity. Qed.

End DispatchProperties.

(* ------------------------------------------------------------------ *)
(** ** Loading the configuration                                       *)
(* ------------------------------------------------------------------ *)

Section LoadedConfig.

Lemma own_put_other (k k' : string) (x : value) (props : list (string * value)) :
  k <> k' -> JS.own k (JS.put k' x props) = JS.own k props.
Proof.
  intros Hne. induction props as [|[k0 v0] props IH]; simpl.
  - destruct (String.eqb k k') eqn:E; [|reflexivity].
    apply String.eqb_eq in E. contradiction.
  - destruct (String.eqb k' k0) eqn:E0; simpl.
    + apply String.eqb_eq in E0. subst k0.
      destruct (String.eqb k k') eqn:E; [|reflexivity].
      apply String.eqb_eq in E. contradiction.
    + now rewrite IH.
Qed.

Lemma own_absent (k : string) (props : list (string * value)) :
  ~ In k (map fst props) -> JS.own k props = None.
Proof.
  induction props as [|[k0 v0] props IH]; simpl; intros H; [reflexivity|].
  destruct (String.eqb k k0) eqn:E.
  - apply String.eqb_eq in E. subst. tauto.
  - apply IH. tauto.
Qed.

(** [Object.assign] into an object, from properties with distinct names:
    the target owns what the source gave it, and what it owned under the
    other names. *)
Lemma Object_assign_merges (source target : list (string * value)) :
  NoDup (map fst source) ->
  ~ In "__proto__" (map fst source) ->
  exists merged,
    fold_left (fun acc kv => JS.bind acc (fun t => js_set t (fst kv) (snd kv)))
              source (Returned (VObj target))
    = Returned (VObj merged)
    /\ forall k,
         JS.own k merged
         = match JS.own k source with
           | Some v => Some v
           | None => JS.own k target
           end.
Proof.
  revert target. induction source as [|[k0 v0] source IH]; intros target Hnd Hproto.
  - exists target. split; reflexivity.
  - inversion Hnd as [|? ? Hfresh Hnd']; subst.
    assert (String.eqb k0 "__proto__" = false) as Hk0.
    { apply String.eqb_neq. intros ->. apply Hproto. now left. }
    destruct (IH (JS.put k0 v0 target) Hnd') as (merged & Hrun & Hown).
    { intros Hin. apply Hproto. now right. }
    exists merged. split.
    + cbn [fold_left JS.bind fst snd js_set]. rewrite Hk0. exact Hrun.
    + intros k. rewrite Hown. cbn [JS.own].
      destruct (String.eqb k k0) eqn:E.
      * apply String.eqb_eq in E. subst k.
        rewrite (@own_absent k0 source Hfresh). apply own_put_same.
      * apply String.eqb_neq in E.
        destruct (JS.own k source); [reflexivity|]. now apply own_put_other.
Qed.

(** X6. After a load, [botConfig] owns every member of the document with the
    value of the document, and keeps what it owned under the other names:
    its methods, and the members of an earlier load that the document no
    longer has. *)
Lemma readConfig_merges
    (lib : Jsonc) (old loaded : list (string * value)) (text : string)
    (records : list Logger.LogRecord) (queue : list Task) :
  parse text = VObj loaded ->
  NoDup (map fst loaded) ->
  ~ In "__proto__" (map fst loaded) ->
  exists merged,
    readConfigFromFileSystem (mkWorld (VObj old) (Some text) records queue)
    = Returned (mkWorld (VObj merged) (Some text) records queue)
    /\ forall k,
         JS.own k merged
         = match JS.own k loaded with
           | Some v => Some v
           | None => JS.own k old
           end.
Proof.
  intros Hparse Hnd Hproto.
  destruct (@Object_assign_merges loaded old Hnd Hproto) as (merged & Hrun & Hown).
  exists merged. split; [|exact Hown].
  unfold readConfigFromFileSystem, Object_assign. cbn [configFile botConfig].
  rewrite Hparse. cbn [enumerable_own]. rewrite Hrun. reflexivity.
Qed.

Lemma readConfig_merges_witness :
  exists merged,
    @readConfigFromFileSystem plain_json
      (mkWorld botConfig_initial
         (Some (document (VObj [("authToken", VStr "abc");
                                ("modules", VObj [("note", VObj [("enabled", VBool true)])])])))
         [] [])
    = Returned
        (mkWorld (VObj merged)
           (Some (document (VObj [("authToken", VStr "abc");
                                  ("modules", VObj [("note", VObj [("enabled", VBool true)])])])))
           [] [])
    /\ JS.own "authToken" merged = Some (VStr "abc")
    /\ JS.own "_set" merged = Some (VFunction "_set").
Proof.
  destruct (@readConfig_merges plain_json
              [ ("readConfigFromFileSystem", VFunction "readConfigFromFileSystem");
                ("_set", VFunction "_set");
                ("editConfigOption", VFunction "editConfigOption") ]
              [("authToken", VStr "abc");
               ("modules", VObj [("note", VObj [("enabled", VBool true)])])]
              (document (VObj [("authToken", VStr "abc");
                               ("modules", VObj [("note", VObj [("enabled", VBool true)])])]))
              [] [])
    as (merged & Hrun & Hown).
  - vm_compute. reflexivity.
  - repeat constructor; simpl; intuition discriminate.
  - simpl. intuition discriminate.
  - exists merged. split; [exact Hrun|].
    split; [exact (Hown "authToken") | exact (Hown "_set")].
Defined.

(** Reading a property and then a property of what was read succeeds
    only for a property that [in] finds. *)
Lemma js_get_twice_in (v x y : value) (k k' : string) :
  js_get v k = Returned x -> js_get x k' = Returned y ->
  js_in k v = Returned true.
Proof.
  destruct v; unfold js_get at 1; try discriminate.
  - unfold js_in. destruct (JS.array_index k) as [i|].
    + intros H Hx. inversion H; subst.
      destruct (Nat.ltb i (List.length elems)) eqn:Hlt; [reflexivity|].
      apply Nat.ltb_ge in Hlt. rewrite nth_overflow in Hx by exact Hlt.
      discriminate.
    + destruct (String.eqb k "length"); [|discriminate].
      intros H Hx. inversion H; subst. discriminate.
  - unfold js_in. destruct (JS.own k props).
    + reflexivity.
    + destruct (String.eqb k "__proto__"); [discriminate|].
      destruct (JS.mem k JS.Object_prototype_keys); [reflexivity|].
      intros H Hx. inversion H; subst. discriminate.
  - destruct (JS.mem k JS.function_member_names) eqn:Hmem; [discriminate|].
    intros H Hx. inversion H; subst. discriminate.
Qed.

(** The constructor's reading of the flag, stated with [lookup]. *)
Lemma new_Module_found
    (command helpMessage : string) (rootName : option string)
    (w : World) (en : value) :
  lookup (botConfig w) (enabled_path (root_name command rootName))
    = Returned en ->
  exists cfg,
    lookup (botConfig w) [SegStr "modules"; SegStr (root_name command rootName)]
      = Returned cfg
    /\ new_Module command helpMessage rootName w
       = Returned
           (mkModule command [] helpMessage [] en cfg
                     (root_name command rootName),
            log EventCategory.Info "core" ("New module registered: " ++ command) 3 w).
Proof.
  unfold enabled_path. cbn [lookup key_of]. unfold new_Module.
  destruct (js_get (botConfig w) "modules") as [modules| |]; cbn [JS.bind];
    try discriminate.
  destruct (js_get modules (root_name command rootName)) as [cfg| |] eqn:Hcfg;
    cbn [JS.bind]; try discriminate.
  destruct (js_get cfg "enabled") as [en'| |] eqn:Hen; cbn [JS.bind];
    try discriminate.
  intros H. inversion H; subst en'.
  rewrite (@js_get_twice_in _ _ _ _ _ Hcfg Hen). cbn [JS.bind].
  exists cfg. split; reflexivity.
Qed.

(** X8. The constructor takes the flag that [botConfig] holds at
    [modules.<root>.enabled]: when that path reads as a value, the module is
    built with this value as [enabled] and with [modules.<root>] as
    [config], it has no submodule and no alias, and the log has grown by the
    info record alone, so without a warning. *)
Lemma new_Module_reads_the_flag
    (command helpMessage : string) (rootName : option string)
    (w : World) (en : value) :
  lookup (botConfig w) (enabled_path (root_name command rootName))
    = Returned en ->
  exists m w',
    new_Module command helpMessage rootName w = Returned (m, w')
    /\ enabled m = en
    /\ lookup (botConfig w) [SegStr "modules"; SegStr (rootModuleName m)]
       = Returned (config m)
    /\ rootModuleName m = root_name command rootName
    /\ submodules m = [] /\ aliases m = []
    /\ botConfig w' = botConfig w
    /\ eventLog w' = eventLog w ++
         [ Logger.mkRecord (Logger.mkEvent EventCategory.Info "core"
             ("New module registered: " ++ command)) 3 ].
Proof.
  intros Hflag.
  destruct (@new_Module_found command helpMessage rootName w en Hflag)
    as (cfg & Hcfg & Hnew).
  eexists. eexists. split; [exact Hnew|]. cbn.
  repeat split. exact Hcfg.
Qed.

Lemma new_Module_reads_the_flag_witness :
  exists m w',
    new_Module "add" "Add a note to an user" (Some "note")
      (mkWorld (VObj [("modules", VObj [("note", VObj [("enabled", VBool true)])])])
               None [] [])
    = Returned (m, w')
    /\ enabled m = VBool true
    /\ Logger.count EventCategory.Warning (eventLog w') = 0.
Proof.
  destruct (@new_Module_reads_the_flag "add" "Add a note to an user" (Some "note")
              (mkWorld (VObj [("modules", VObj [("note", VObj [("enabled", VBool true)])])])
                       None [] [])
              (VBool true) eq_refl)
    as (m & w' & Hnew & Hen & _ & _ & _ & _ & _ & Hlog).
  exists m, w'. split; [exact Hnew|]. split; [exact Hen|].
  rewrite Hlog. reflexivity.
Defined.

(** X9. An entry of [modules] that is null is found by [in], and reading its
    [enabled] throws: the constructor does not return. *)
Lemma new_Module_null_entry_throws
    (command helpMessage : string) (rootName : option string)
    (w : World) (entries : list (string * value)) :
  js_get (botConfig w) "modules" = Returned (VObj entries) ->
  JS.own (root_name command rootName) entries = Some VNull ->
  exists e,
    new_Module command helpMessage rootName w = Threw e
    /\ JS.name e = "TypeError".
Proof.
  intros Hmods Hown. unfold new_Module. rewrite Hmods. cbn [JS.bind].
  unfold js_in, js_get. rewrite Hown. cbn [JS.bind].
  eexists. split; reflexivity.
Qed.

Lemma new_Module_null_entry_throws_witness :
  exists e,
    new_Module "whois" "Displays information about an user" None
      (mkWorld (VObj [("modules", VObj [("whois", VNull)])]) None [] [])
    = Threw e
    /\ JS.name e = "TypeError".
Proof.
  apply (@new_Module_null_entry_throws "whois" "Displays information about an user"
           None (mkWorld (VObj [("modules", VObj [("whois", VNull)])]) None [] [])
           [("whois", VNull)]); reflexivity.
Defined.

(** X10. Load, then construct: a module built after the load of a document
    that holds [modules.<root>.enabled] takes the flag of the document,
    whatever [botConfig] held before, and no warning is logged. *)
Lemma loaded_flag_reaches_the_module
    (lib : Jsonc) (old loaded entries props : list (string * value))
    (text : string) (records : list Logger.LogRecord) (queue : list Task)
    (command helpMessage : string) (rootName : option string)
    (en : value) :
  parse text = VObj loaded ->
  NoDup (map fst loaded) ->
  ~ In "__proto__" (map fst loaded) ->
  JS.own "modules" loaded = Some (VObj entries) ->
  JS.own (root_name command rootName) entries = Some (VObj props) ->
  JS.own "enabled" props = Some en ->
  exists w1 m w2,
    readConfigFromFileSystem (mkWorld (VObj old) (Some text) records queue)
      = Returned w1
    /\ new_Module command helpMessage rootName w1 = Returned (m, w2)
    /\ enabled m = en
    /\ config m = VObj props
    /\ Logger.count EventCategory.Warning (eventLog w2)
       = Logger.count EventCategory.Warning records.
Proof.
  intros Hparse Hnd Hproto Hmods Hroot Hen.
  destruct (@Object_assign_merges loaded old Hnd Hproto) as (merged & Hrun & Hown).
  assert (lookup (VObj merged) (enabled_path (root_name command rootName))
          = Returned en) as Hflag.
  { unfold enabled_path. cbn [lookup key_of]. unfold js_get at 1.
    rewrite Hown, Hmods. cbn [JS.bind]. unfold js_get at 1.
    rewrite Hroot. cbn [JS.bind]. unfold js_get. now rewrite Hen. }
  destruct (@new_Module_found command helpMessage rootName
              (set_botConfig (VObj merged)
                 (mkWorld (VObj old) (Some text) records queue)) en Hflag)
    as (cfg & Hcfg & Hnew).
  assert (cfg = VObj props) as ->.
  { revert Hcfg. cbn [lookup key_of set_botConfig botConfig].
    unfold js_get at 1. rewrite Hown, Hmods. cbn [JS.bind]. unfold js_get at 1.
    rewrite Hroot. cbn [JS.bind]. now intros [= <-]. }
  eexists. eexists. eexists. split; [|split; [exact Hnew|]].
  - unfold readConfigFromFileSystem, Object_assign. cbn [configFile botConfig].
    rewrite Hparse. cbn [enumerable_own]. rewrite Hrun. reflexivity.
  - cbn [enabled config]. split; [reflexivity|]. split; [reflexivity|].
    unfold log. cbn [eventLog set_botConfig]. rewrite count_logEvent. cbn. lia.
Qed.

Lemma loaded_flag_reaches_the_module_witness :
  exists w1 m w2,
    @readConfigFromFileSystem plain_json
      (mkWorld botConfig_initial
         (Some (document (VObj [("modules",
                   VObj [("note", VObj [("enabled", VBool true)])])])))
         [] [])
      = Returned w1
    /\ new_Module "note" "Add or delete notes from users" None w1 = Returned (m, w2)
    /\ enabled m = VBool true.
Proof.
  destruct (@loaded_flag_reaches_the_module plain_json
              [ ("readConfigFromFileSystem", VFunction "readConfigFromFileSystem");
                ("_set", VFunction "_set");
                ("editConfigOption", VFunction "editConfigOption") ]
              [("modules", VObj [("note", VObj [("enabled", VBool true)])])]
              [("note", VObj [("enabled", VBool true)])]
              [("enabled", VBool true)]
              (document (VObj [("modules",
                   VObj [("note", VObj [("enabled", VBool true)])])]))
              [] [] "note" "Add or delete notes from users" None (VBool true))
    as (w1 & m & w2 & Hload & Hnew & Hen & _).
  - vm_compute. reflexivity.
  - repeat constructor; simpl; intuition discriminate.
  - simpl. intuition discriminate.
  - reflexivity.
  - reflexivity.
  - reflexivity.
  - exists w1, m, w2. split; [exact Hload|]. split; [exact Hnew | exact Hen].
Defined.

(** X11. Edit, then construct: after [editConfigOption] has set
    [modules.<root>.enabled], a module built for that root takes the new
    value as its flag. *)
Lemma edited_flag_reaches_new_modules
    (command helpMessage : string) (rootName : option string)
    (newValue : value) (w w1 : World) :
  walk (botConfig w) (enabled_path (root_name command rootName))
    = Returned true ->
  editConfigOption (enabled_path (root_name command rootName)) newValue w
    = Returned w1 ->
  exists m w2,
    new_Module command helpMessage rootName w1 = Returned (m, w2)
    /\ enabled m = newValue.
Proof.
  intros Hwalk Hedit.
  assert (lookup (botConfig w1) (enabled_path (root_name command rootName))
          = Returned newValue) as Hflag.
  { revert Hedit. unfold editConfigOption. rewrite Hwalk. cbn [JS.bind].
    destruct (js_get (botConfig w) "_set") as [setter| |]; cbn [JS.bind];
      try discriminate.
    destruct setter; try discriminate.
    destruct (_set (botConfig w) (enabled_path (root_name command rootName))
                newValue) as [cfg| |] eqn:Hset; cbn [JS.bind]; try discriminate.
    intros H. inversion H; subst. cbn [botConfig enqueue set_botConfig].
    apply (@_set_lookup (enabled_path (root_name command rootName))
             (botConfig w) cfg newValue);
      [unfold enabled_path; discriminate | exact Hset]. }
  destruct (@new_Module_found command helpMessage rootName w1 newValue Hflag)
    as (cfg & _ & Hnew).
  eexists. eexists. split; [exact Hnew | reflexivity].
Qed.

Lemma edited_flag_reaches_new_modules_witness :
  exists m w2,
    new_Module "note" "Add or delete notes from users" None
      (mkWorld (VObj [("_set", VFunction "_set");
                      ("modules", VObj [("note", VObj [("enabled", VBool false)])])])
               None [] [ReadFileTask (enabled_path "note") (VBool false)])
    = Returned (m, w2)
    /\ enabled m = VBool false.
Proof.
  apply (@edited_flag_reaches_new_modules "note" "Add or delete notes from users"
           None (VBool false)
           (mkWorld (VObj [("_set", VFunction "_set");
                           ("modules", VObj [("note", VObj [("enabled", VBool true)])])])
                    None [] []));
    reflexivity.
Defined.

(** X12. [registerSubmodule] keeps what was registered before, in its order,
    and puts the new module last, whether or not a module of that command is
    there already: after a series of registrations the submodules are the
    old ones followed by the new ones, and nothing else of the module has
    changed. *)
Lemma register_all_appends (this : Module) (children : list Module) :
  submodules (register_all this children) = submodules this ++ children
  /\ enabled (register_all this children) = enabled this
  /\ config (register_all this children) = config this
  /\ command (register_all this children) = command this
  /\ rootModuleName (register_all this children) = rootModuleName this.
Proof.
  unfold register_all. revert this.
  induction children as [|child children IH]; intros this; cbn [fold_left].
  - rewrite app_nil_r. repeat split.
  - destruct (IH (registerSubmodule this child)) as (Hs & He & Hc & Hn & Hr).
    rewrite Hs, He, Hc, Hn, Hr. cbn. rewrite <- app_assoc. repeat split.
Qed.

End LoadedConfig.

(* ------------------------------------------------------------------ *)
(** ** The setter of the configuration                                 *)
(* ------------------------------------------------------------------ *)

Section Setter.

(** X16. [_set] with a path of one name, any name but [__proto__], writes
    that name into the object, whether the object had it or not, and
    leaves the values under the other names as they were.  (An
    assignment to [__proto__] writes no property.) *)
Lemma set_writes_the_last_name
    (props : list (string * value)) (k : string) (x : value) :
  k <> "__proto__" ->
  exists props',
    _set (VObj props) [SegStr k] x = Returned (VObj props')
    /\ JS.own k props' = Some x
    /\ forall k', k' <> k -> JS.own k' props' = JS.own k' props.
Proof.
  intros Hk. exists (JS.put k x props). cbn [_set key_of js_set].
  apply String.eqb_neq in Hk. rewrite Hk. split; [reflexivity|]. split.
  - apply own_put_same.
  - intros k' Hk'. now apply own_put_other.
Qed.

Lemma set_writes_the_last_name_witness :
  exists props',
    _set (VObj [("authToken", VStr "abc")]) [SegStr "prefix"] (VStr "!")
      = Returned (VObj props')
    /\ JS.own "prefix" props' = Some (VStr "!")
    /\ JS.own "authToken" props' = Some (VStr "abc").
Proof.
  destruct (@set_writes_the_last_name [("authToken", VStr "abc")] "prefix" (VStr "!"))
    as (props' & Hset & Hnew & Hold).
  - discriminate.
  - exists props'. split; [exact Hset|]. split; [exact Hnew|].
    rewrite (Hold "authToken"); [reflexivity | discriminate].
Defined.

(** X17. [_set] does not make the objects on the way: when the first name of
    a longer path is neither owned nor inherited by the object, the function
    throws a [TypeError]. *)
Lemma set_needs_the_objects_on_the_way
    (props : list (string * value)) (k : string) (rest : JSONPath) (x : value) :
  JS.own k props = None ->
  JS.mem k JS.Object_prototype_keys = false ->
  rest <> [] ->
  exists e,
    _set (VObj props) (SegStr k :: rest) x = Threw e
    /\ JS.name e = "TypeError".
Proof.
  intros Hown Hmem Hrest.
  assert (String.eqb k "__proto__" = false) as Hproto.
  { destruct (String.eqb k "__proto__") eqn:E; [|reflexivity].
    apply String.eqb_eq in E. subst k. discriminate Hmem. }
  destruct rest as [|seg rest]; [contradiction|].
  change (_set (VObj props) (SegStr k :: seg :: rest) x)
    with (sub <- js_get (VObj props) k ;;
          sub' <- _set sub (seg :: rest) x ;;
          Returned (write_back (VObj props) k sub')).
  unfold js_get at 1. rewrite Hown, Hproto, Hmem. cbn [JS.bind].
  destruct rest as [|seg' rest]; cbn; eexists; split; reflexivity.
Qed.

Lemma set_needs_the_objects_on_the_way_witness :
  exists e,
    _set (VObj [("authToken", VStr "abc")])
         [SegStr "modules"; SegStr "note"; SegStr "enabled"] (VBool true)
      = Threw e
    /\ JS.name e = "TypeError".
Proof.
  apply (@set_needs_the_objects_on_the_way [("authToken", VStr "abc")] "modules"
           [SegStr "note"; SegStr "enabled"] (VBool true));
    [reflexivity | reflexivity | discriminate].
Defined.

(** X7. A document with a member [_set] takes the place of the method: the
    load succeeds, and from then on [editConfigOption] throws a [TypeError]
    for every path that it finds. *)
Lemma loaded_member_replaces_the_setter
    (lib : Jsonc) (old loaded : list (string * value)) (text : string)
    (records : list Logger.LogRecord) (queue : list Task)
    (v : value) (location : JSONPath) (newValue : value) :
  parse text = VObj loaded ->
  NoDup (map fst loaded) ->
  ~ In "__proto__" (map fst loaded) ->
  JS.own "_set" loaded = Some v ->
  (forall f, v <> VFunction f) ->
  exists w1,
    readConfigFromFileSystem (mkWorld (VObj old) (Some text) records queue)
      = Returned w1
    /\ (walk (botConfig w1) location = Returned true ->
        editConfigOption location newValue w1
        = Threw (JS.TypeError "this._set is not a function")).
Proof.
  intros Hparse Hnd Hproto Hset Hv.
  destruct (@Object_assign_merges loaded old Hnd Hproto) as (merged & Hrun & Hown).
  eexists. split.
  - unfold readConfigFromFileSystem, Object_assign. cbn [configFile botConfig].
    rewrite Hparse. cbn [enumerable_own]. rewrite Hrun. reflexivity.
  - cbn [set_botConfig botConfig]. intros Hwalk.
    unfold editConfigOption. cbn [botConfig set_botConfig]. rewrite Hwalk.
    cbn [JS.bind].
    unfold js_get. rewrite Hown, Hset. cbn [JS.bind].
    destruct v as [| | | | | | |f]; try reflexivity. exfalso. now apply (Hv f).
Qed.

Lemma loaded_member_replaces_the_setter_witness :
  exists w1,
    @readConfigFromFileSystem plain_json
      (mkWorld botConfig_initial
         (Some (document (VObj [("_set", VStr "abc"); ("prefix", VStr "!")])))
         [] [])
      = Returned w1
    /\ (walk (botConfig w1) [SegStr "prefix"] = Returned true ->
        editConfigOption [SegStr "prefix"] (VStr "?") w1
        = Threw (JS.TypeError "this._set is not a function")).
Proof.
  apply (@loaded_member_replaces_the_setter plain_json
           [ ("readConfigFromFileSystem", VFunction "readConfigFromFileSystem");
             ("_set", VFunction "_set");
             ("editConfigOption", VFunction "editConfigOption") ]
           [("_set", VStr "abc"); ("prefix", VStr "!")]
           (document (VObj [("_set", VStr "abc"); ("prefix", VStr "!")]))
           [] [] (VStr "abc") [SegStr "prefix"] (VStr "?")).
  - vm_compute. reflexivity.
  - repeat constructor; simpl; intuition discriminate.
  - simpl. intuition discriminate.
  - reflexivity.
  - discriminate.
Defined.

End Setter.

(* ------------------------------------------------------------------ *)
(** ** The callbacks of an edit                                        *)
(* ------------------------------------------------------------------ *)

Section EditCallbacks.

(** What [editConfigOption] leaves when it returns for a path that was
    found: the new tree apart, one more queued read; the file and the log
    are as before. *)
Lemma editConfigOption_found
    (location : JSONPath) (newValue : value) (w w' : World) :
  walk (botConfig w) location = Returned true ->
  editConfigOption location newValue w = Returned w' ->
  configFile w' = configFile w
  /\ eventLog w' = eventLog w
  /\ pending w' = pending w ++ [ReadFileTask location newValue].
Proof.
  intros Hwalk. unfold editConfigOption. rewrite Hwalk. cbn [JS.bind].
  destruct (js_get (botConfig w) "_set") as [setter| |]; cbn [JS.bind];
    try discriminate.
  destruct setter; try discriminate.
  destruct (_set (botConfig w) location newValue); cbn [JS.bind];
    try discriminate.
  intros H. inversion H; subst. repeat split.
Qed.


(** X14. A missing file does not stop [editConfigOption]: for a path that
    was found the call returns, with the tree edited and nothing logged; the
    error of the read is thrown afterwards, by the callback, and there is
    still no file. *)
Lemma missing_file_fails_in_the_callback
    (lib : Jsonc) (location : JSONPath) (newValue : value) (w w' : World)
    (fuel : nat) :
  walk (botConfig w) location = Returned true ->
  editConfigOption location newValue w = Returned w' ->
  pending w = [] ->
  configFile w = None ->
  run_pending (S fuel) w' = Threw ENOENT
  /\ configFile w' = None
  /\ eventLog w' = eventLog w.
Proof.
  intros Hwalk Hrun Hq Hfile.
  destruct (@editConfigOption_found _ _ _ _ Hwalk Hrun) as (Hf & Hlog & Hp).
  rewrite Hq in Hp. cbn [app] in Hp. rewrite Hfile in Hf.
  split; [|split; assumption].
  cbn [run_pending]. rewrite Hp. unfold run_task. rewrite Hp, Hf. reflexivity.
Qed.

Lemma missing_file_fails_in_the_callback_witness :
  @run_pending plain_json 1
    (mkWorld (VObj [("_set", VFunction "_set"); ("authToken", VStr "?win")])
             None [] [ReadFileTask [SegStr "authToken"] (VStr "?win")])
  = Threw ENOENT.
Proof.
  apply (@missing_file_fails_in_the_callback plain_json
           [SegStr "authToken"] (VStr "?win")
           (mkWorld (VObj [("_set", VFunction "_set"); ("authToken", VStr "abc")])
                    None [] [])
           (mkWorld (VObj [("_set", VFunction "_set"); ("authToken", VStr "?win")])
                    None [] [ReadFileTask [SegStr "authToken"] (VStr "?win")])
           0); reflexivity.
Defined.

End EditCallbacks.

(* ------------------------------------------------------------------ *)
(** ** More on the note commands                                       *)
(* ------------------------------------------------------------------ *)

Section NoteCommandsAtLarge.
Import Notes.

(** X18. Whatever record the store holds for the user, [get] delivers one
    reply with one file, named after the user and the date, and the text of
    the file parses, as JSON, to an object whose only member [notes] lists
    the notes of the record in their order, each with its [contents],
    [addedBy] and [date]; the store has received one [findOne] and its
    documents are as before. *)
Lemma get_delivers_the_stored_notes
    (env : Env) (interaction : Interaction) (s : State)
    (U : string) (target : User) (r : userRecord) :
  known env U target ->
  hd None (faults (db s)) = None ->
  find (matches U) (docs (db s)) = Some r ->
  exists json s',
    get env (user_arg U) interaction s = Resolved None s'
    /\ sent s'
       = sent s ++ [[mkAttachment json ("notes_for_" ++ U ++ "_" ++ now env ++ ".json")]]
    /\ docs (db s') = docs (db s)
    /\ calls (db s') = calls (db s) ++ [FindOne U]
    /\ JSON.parse json
       = Returned (VObj [("notes", VArr (map value_of_Note (notes r)))]).
Proof.
  intros Hknown Hfaults Hfind.
  pose proof (known_id Hknown) as Hid. unfold known in Hknown.
  destruct (@stringify_data (notes_payload (notes r)) 2 (data_notes_payload (notes r)))
    as [json Hjson].
  pose proof (@parse_stringify (notes_payload (notes r)) 2 json
                (data_notes_payload (notes r)) Hjson) as Hparse.
  exists json.
  unfold get, bind.
  change (option_value "user" (user_arg U) s) with (Resolved U s).
  unfold fetch. rewrite Hknown. unfold ret, getRecord, findOne, call. rewrite Hid, Hfind.
  destruct (faults (db s)) as [|[e|] later]; cbn [hd] in Hfaults;
    try discriminate;
    cbn [db docs calls sent faults apply_call];
    change (VObj [("notes", VArr (map value_of_Note (notes r)))])
      with (notes_payload (notes r));
    rewrite Hjson; unfold replyToInteraction;
    (eexists; split; [reflexivity|]; cbn [db docs calls sent];
     repeat split; exact Hparse).
Qed.

Lemma get_delivers_the_stored_notes_witness :
  exists json s',
    get (mkEnv [mkUser "9" "bob#2"] "2023-01-02") (user_arg "9")
        (mkInteraction (mkUser "7" "ann#1"))
        (mkState (mkDb [mkUserRecord "9" [mkNote "first" "5" "2022-12-31";
                                          mkNote "late again" "7" "2023-01-01"]]
                       [] [None])
                 [])
      = Resolved None s'
    /\ sent s' = [[mkAttachment json "notes_for_9_2023-01-02.json"]]
    /\ JSON.parse json
       = Returned (VObj [("notes",
           VArr [VObj [("contents", VStr "first"); ("addedBy", VStr "5");
                       ("date", VStr "2022-12-31")];
                 VObj [("contents", VStr "late again"); ("addedBy", VStr "7");
                       ("date", VStr "2023-01-01")]])]).
Proof.
  destruct (@get_delivers_the_stored_notes
              (mkEnv [mkUser "9" "bob#2"] "2023-01-02")
              (mkInteraction (mkUser "7" "ann#1"))
              (mkState (mkDb [mkUserRecord "9" [mkNote "first" "5" "2022-12-31";
                                                mkNote "late again" "7" "2023-01-01"]]
                             [] [None])
                       [])
              "9" (mkUser "9" "bob#2")
              (mkUserRecord "9" [mkNote "first" "5" "2022-12-31";
                                 mkNote "late again" "7" "2023-01-01"]))
    as (json & s' & Hrun & Hsent & _ & _ & Hparse).
  - reflexivity.
  - reflexivity.
  - reflexivity.
  - exists json, s'. split; [exact Hrun|]. split; [exact Hsent | exact Hparse].
Defined.

(** X19. [get] only reads: whatever its options, the users the platform
    knows and the failures of the store, and whether it resolves or rejects,
    the documents of the store are as before, the store has received at most
    one call, a [findOne], and at most one reply was delivered, with one
    file. *)
Lemma get_only_reads
    (env : Env) (args : list Arg.t) (interaction : Interaction) (s : State) :
  match get env args interaction s with
  | Resolved _ s' | Rejected _ s' =>
      observes s s'
      /\ (sent s' = sent s \/ exists file, sent s' = sent s ++ [[file]])
  end.
Proof.
  assert (observes s s) as Hsame by (split; [reflexivity | now left]).
  unfold get, bind.
  destruct (option_value "user" args s) as [userArg s1|e s1] eqn:Harg.
  2:{ revert Harg. unfold option_value, ret, throw.
      destruct (find _ args) as [a|]; [destruct (Arg.value a)|];
        intros [= _ <-]; auto. }
  assert (s1 = s) as ->.
  { revert Harg. unfold option_value, ret, throw.
    destruct (find _ args) as [a|]; [destruct (Arg.value a)|];
      intros H; inversion H; reflexivity. }
  unfold fetch.
  destruct (find (fun u => String.eqb (id u) userArg) (users env)) as [target|];
    unfold ret, throw; [|auto].
  unfold getRecord, findOne, call.
  assert (forall later,
            observes s (mkState (mkDb (docs (db s)) (calls (db s) ++ [FindOne (id target)])
                                      later) (sent s))) as Hread.
  { intros later. split; [reflexivity|]. right. eexists. reflexivity. }
  destruct (faults (db s)) as [|[e|] later]; cbn [apply_call];
    try (split; [apply Hread | now left]);
    (destruct (find (matches (id target)) (docs (db s))) as [r|];
     [ destruct (JSON.stringify _ 2); unfold replyToInteraction, throw;
       cbn [db sent docs calls];
       (split; [apply Hread | try (now left); right; eexists; reflexivity])
     | split; [apply Hread | now left] ]).
Qed.

(** X20. A handler that cannot tell its target rejects at once: when the
    [user] option is missing or has no value, or when the platform does not
    know the user, [add], [clear] and [get] reject with the error of that
    step, and the state is untouched: no call on the store, no reply. *)
Lemma handlers_reject_without_a_target
    (env : Env) (args : list Arg.t) (interaction : Interaction) (s s0 : State)
    (e : JsError) :
  (userArg <~ option_value "user" args ;; fetch env userArg) s = Rejected e s0 ->
  add env args interaction s = Rejected e s
  /\ clear env args s = Rejected e s
  /\ get env args interaction s = Rejected e s.
Proof.
  unfold add, clear, get, bind, option_value, fetch, ret, throw.
  destruct (find (fun a => String.eqb (Arg.name a) "user") args) as [a|].
  - destruct (Arg.value a) as [userArg|].
    + destruct (find (fun u => String.eqb (id u) userArg) (users env));
        [discriminate|].
      intros [= <- _]. repeat split.
    + intros [= <- _]. repeat split.
  - intros [= <- _]. repeat split.
Qed.

Lemma handlers_reject_without_a_target_witness :
  let env := mkEnv [mkUser "7" "ann#1"] "2023-01-01" in
  let s := mkState (mkDb [mkUserRecord "9" []] [] []) [] in
  let e := mkError "DiscordAPIError[10013]" "Unknown User" in
  add env (add_args "9" "hello") (mkInteraction (mkUser "7" "ann#1")) s
    = Rejected e s
  /\ clear env (add_args "9" "hello") s = Rejected e s
  /\ get env (add_args "9" "hello") (mkInteraction (mkUser "7" "ann#1")) s
     = Rejected e s.
Proof.
  intros env s e.
  apply (@handlers_reject_without_a_target env (add_args "9" "hello")
           (mkInteraction (mkUser "7" "ann#1")) s s e).
  reflexivity.
Defined.

(** X21. Notes pile up in the order of the calls: after [add] was run for a
    user once for each text of a list, by an invoking user who is not that
    user and on a store that rejects no call, the store holds for the user
    the notes it held before followed by one note for each text, in the
    order of the list; the records of the other users are as before, and the
    store has received two calls for each text. *)
Lemma add_each_accumulates
    (env : Env) (interaction : Interaction) (U : string) (target : User)
    (Ns : list string) (s : State) :
  known env U target ->
  id (invoker interaction) <> id target ->
  faults (db s) = [] ->
  exists s',
    add_each env interaction U Ns s = Resolved tt s'
    /\ notes_of U s'
       = notes_of U s
         ++ map (fun N => mkNote N (id (invoker interaction)) (now env)) Ns
    /\ (forall u', u' <> U ->
          find (matches u') (docs (db s')) = find (matches u') (docs (db s)))
    /\ sent s' = sent s.
Proof.
  intros Hknown Hother. revert s.
  induction Ns as [|N Ns IH]; intros s Hfaults.
  - exists s. cbn [add_each map]. rewrite app_nil_r. repeat split.
  - destruct (@add_to_store env interaction s U N target Hknown Hother Hfaults)
      as (s1 & Hadd & Hfind & Hrest & Hfaults1 & Hsent).
    destruct (IH s1 Hfaults1) as (s' & Hrun & Hnotes & Hrest' & Hsent').
    exists s'. cbn [add_each]. unfold bind at 1. rewrite Hadd.
    split; [exact Hrun|]. split; [|split].
    + rewrite Hnotes. unfold notes_of at 1. rewrite Hfind. cbn [notes map].
      unfold notes_of. rewrite <- app_assoc. reflexivity.
    + intros u' Hu'. now rewrite (Hrest' u' Hu'), (Hrest u' Hu').
    + now rewrite Hsent'.
Qed.

Lemma add_each_accumulates_witness :
  exists s',
    add_each (mkEnv [mkUser "7" "ann#1"; mkUser "9" "bob#2"] "2023-01-01")
             (mkInteraction (mkUser "7" "ann#1")) "9" ["one"; "two"; "three"]
             (mkState (mkDb [] [] []) [])
      = Resolved tt s'
    /\ notes_of "9" s'
       = [mkNote "one" "7" "2023-01-01"; mkNote "two" "7" "2023-01-01";
          mkNote "three" "7" "2023-01-01"].
Proof.
  destruct (@add_each_accumulates
              (mkEnv [mkUser "7" "ann#1"; mkUser "9" "bob#2"] "2023-01-01")
              (mkInteraction (mkUser "7" "ann#1")) "9" (mkUser "9" "bob#2")
              ["one"; "two"; "three"] (mkState (mkDb [] [] []) []))
    as (s' & Hrun & Hnotes & _).
  - reflexivity.
  - simpl. discriminate.
  - reflexivity.
  - exists s'. split; [exact Hrun | exact Hnotes].
Defined.

End NoteCommandsAtLarge.

(* ------------------------------------------------------------------ *)
(** ** The whois command                                               *)
(* ------------------------------------------------------------------ *)

Section WhoisCommand.
Import Notes.

Lemma state_eta (s : Whois.State) :
  Whois.mkState (Whois.store s) (Whois.replies s) = s.
Proof. now destruct s. Qed.

(** *** Computations that leave the state alone *)

Lemma silent_ret {A : Type} (a : A) : Whois.silent (Whois.ret a).
Proof. intros s. reflexivity. Qed.

Lemma silent_throw {A : Type} (e : JsError) : Whois.silent (@Whois.throw A e).
Proof. intros s. reflexivity. Qed.

Lemma silent_settle {A : Type} (x : JsError + A) : Whois.silent (Whois.settle x).
Proof. destruct x; [apply silent_throw | apply silent_ret]. Qed.

Lemma silent_build (env : Whois.Env) (c : Whois.BuilderCall) (embed : Whois.Embed) :
  Whois.silent (Whois.build env c embed).
Proof.
  unfold Whois.build. destruct (Whois.refused env c);
    [apply silent_throw | apply silent_ret].
Qed.

Lemma silent_bind {A B : Type} (m : Whois.W A) (k : A -> Whois.W B) :
  Whois.silent m -> (forall a, Whois.silent (k a)) ->
  Whois.silent (Whois.bind m k).
Proof.
  intros Hm Hk s. unfold Whois.bind. specialize (Hm s).
  destruct (m s) as [a s'|e s']; subst s'; [apply Hk | reflexivity].
Qed.

Lemma silent_option_value (n : string) (args : list Arg.t) :
  Whois.silent (Whois.lift (option_value n args)).
Proof.
  intros s. unfold Whois.lift, option_value.
  destruct (find (fun a => String.eqb (Arg.name a) n) args) as [a|];
    [destruct (Arg.value a)|]; apply state_eta.
Qed.

Lemma silent_note_loop (env : Whois.Env) (ns : list Note)
    (fs : list Whois.Field.t) (noteCount : N) :
  Whois.silent (Whois.note_loop env ns fs noteCount).
Proof.
  revert fs noteCount. induction ns as [|n ns IH]; intros fs noteCount.
  - apply silent_ret.
  - cbn [Whois.note_loop]. apply silent_bind; [apply silent_settle|].
    intros a. apply IH.
Qed.

Create HintDb silent.
#[local] Hint Resolve silent_ret silent_throw silent_settle silent_build
  silent_option_value silent_note_loop : silent.

(** *** Rules for [triple] *)

Lemma triple_bind {A B : Type} (P : Whois.State -> Prop) (m : Whois.W A)
    (k : A -> Whois.W B) (Q : A -> Whois.State -> Prop)
    (Q' : B -> Whois.State -> Prop) (R : Whois.State -> Prop) :
  Whois.triple P m Q R -> (forall a, Whois.triple (Q a) (k a) Q' R) ->
  Whois.triple P (Whois.bind m k) Q' R.
Proof.
  intros Hm Hk s HP. unfold Whois.bind. specialize (Hm s HP).
  destruct (m s) as [a s'|e s']; [now apply Hk | exact Hm].
Qed.

Lemma triple_keep {A : Type} (I R : Whois.State -> Prop) (m : Whois.W A) :
  Whois.silent m -> (forall s, I s -> R s) ->
  Whois.triple I m (fun _ => I) R.
Proof.
  intros Hm HIR s HI. specialize (Hm s).
  destruct (m s) as [a s'|e s']; subst s'; auto.
Qed.

Lemma triple_pre {A : Type} (P P' : Whois.State -> Prop) (m : Whois.W A)
    (Q : A -> Whois.State -> Prop) (R : Whois.State -> Prop) :
  (forall s, P' s -> P s) -> Whois.triple P m Q R -> Whois.triple P' m Q R.
Proof. intros HPP Hm s HP. apply Hm. now apply HPP. Qed.

Lemma triple_rejection {A : Type} (P : Whois.State -> Prop) (m : Whois.W A)
    (Q : A -> Whois.State -> Prop) (R R' : Whois.State -> Prop) :
  (forall s, R s -> R' s) -> Whois.triple P m Q R -> Whois.triple P m Q R'.
Proof.
  intros HRR Hm s HP. specialize (Hm s HP).
  destruct (m s); [exact Hm | now apply HRR].
Qed.

Lemma triple_assume {A : Type} (H : Prop) (P : Whois.State -> Prop)
    (m : Whois.W A) (Q : A -> Whois.State -> Prop) (R : Whois.State -> Prop) :
  (H -> Whois.triple P m Q R) -> Whois.triple (fun s => H /\ P s) m Q R.
Proof. intros Hm s [HH HP]. now apply Hm. Qed.

Lemma triple_never {A : Type} (m : Whois.W A)
    (Q : A -> Whois.State -> Prop) (R : Whois.State -> Prop) :
  Whois.triple (fun _ => False) m Q R.
Proof. intros s []. Qed.

(** One silent step of a handler, under an invariant. *)
Ltac silent_step :=
  eapply triple_bind;
  [ apply triple_keep;
    [ repeat first
        [ solve [auto with silent]
        | apply silent_bind; [|intros ?]
        | match goal with
          | |- Whois.silent (if ?b then _ else _) => destruct b
          | |- Whois.silent (match ?x with _ => _ end) => destruct x
          end ]
    | ]
  | intros ? ].

(** *** Reading the store *)

Lemma getRecord_reads (u : User) (s0 : Whois.State) :
  Whois.triple (eq s0) (Whois.lift (getRecord u))
    (fun record s =>
       record = find (matches (id u)) (docs (db (Whois.store s0)))
       /\ observes (Whois.store s0) (Whois.store s)
       /\ sent (Whois.store s) = sent (Whois.store s0)
       /\ Whois.replies s = Whois.replies s0)
    (fun s =>
       observes (Whois.store s0) (Whois.store s)
       /\ sent (Whois.store s) = sent (Whois.store s0)
       /\ Whois.replies s = Whois.replies s0).
Proof.
  intros s <-. unfold Whois.lift, getRecord, findOne, call, observes.
  destruct (faults (db (Whois.store s0))) as [|[e|] later];
    cbn [Whois.store Whois.replies db docs calls sent apply_call];
    repeat split; right; eexists; reflexivity.
Qed.

Lemma describe_only_reads
    (env : Whois.Env) (interaction : Whois.Interaction)
    (member : Whois.GuildMember) (s0 : Whois.State) :
  Whois.triple (eq s0) (Whois.describe env interaction member)
    (fun _ => Whois.only_read s0) (Whois.only_read s0).
Proof.
  assert (forall s, s0 = s -> Whois.only_read s0 s) as Hstart.
  { intros s <-. repeat split; now left. }
  assert (forall s,
            observes (Whois.store s0) (Whois.store s)
            /\ sent (Whois.store s) = sent (Whois.store s0)
            /\ Whois.replies s = Whois.replies s0 ->
            Whois.only_read s0 s) as Hread.
  { intros s (Hobs & Hsent & Hrep). repeat split; try apply Hobs; auto. }
  unfold Whois.describe.
  do 8 (silent_step; [exact Hstart|]).
  eapply triple_bind;
    [eapply triple_rejection; [exact Hread | apply getRecord_reads]
    | intros record].
  apply triple_pre
    with (P := fun s => observes (Whois.store s0) (Whois.store s)
                        /\ sent (Whois.store s) = sent (Whois.store s0)
                        /\ Whois.replies s = Whois.replies s0);
    [tauto|].
  do 3 (silent_step; [exact Hread|]).
  eapply triple_bind with (Q := fun _ => Whois.only_read s0).
  - intros s (Hobs & Hsent & Hrep).
    unfold Whois.replyToInteraction, Whois.only_read.
    cbn [Whois.store Whois.replies]. rewrite Hrep.
    split; [exact Hobs|]. split; [exact Hsent|]. right. eexists. reflexivity.
  - intros _. apply triple_keep; [apply silent_ret | auto].
Qed.

(** X22. [whois] only reads: whatever its options, the interaction, the
    collaborators and the failures of the store, and whether it resolves or
    rejects, the documents of the note store are as before, the store has
    received at most one call, a [findOne], no file was sent, and at most
    one reply was delivered, with one embed. *)
Lemma whois_only_reads
    (env : Whois.Env) (args : list Arg.t) (interaction : Whois.Interaction)
    (s : Whois.State) :
  match Whois.whois env args interaction s with
  | Whois.Resolved _ s' | Whois.Rejected _ s' =>
      observes (Whois.store s) (Whois.store s')
      /\ sent (Whois.store s') = sent (Whois.store s)
      /\ (Whois.replies s' = Whois.replies s
          \/ exists embed, Whois.replies s' = Whois.replies s ++ [[embed]])
  end.
Proof.
  assert (Whois.triple (eq s) (Whois.whois env args interaction)
            (fun _ => Whois.only_read s) (Whois.only_read s)) as H.
  { assert (forall s', s = s' -> Whois.only_read s s') as Hstart.
    { intros s' <-. repeat split; now left. }
    unfold Whois.whois.
    do 3 (silent_step; [exact Hstart|]).
    match goal with |- Whois.triple _ (match ?x with _ => _ end) _ _ =>
      destruct x as [member|] end.
    - apply describe_only_reads.
    - intros s' <-. now apply Hstart. }
  specialize (H s eq_refl).
  destruct (Whois.whois env args interaction s); exact H.
Qed.

(** *** The reply *)

Lemma whois_found
    (env : Whois.Env) (interaction : Whois.Interaction) (s : Whois.State)
    (U : string) (members : string -> Whois.Fetched) (member : Whois.GuildMember) :
  Whois.guild interaction = Some members ->
  members U = Whois.Found member ->
  Whois.whois env (user_arg U) interaction s
  = Whois.describe env interaction member s.
Proof.
  intros Hguild Hfound. unfold Whois.whois.
  unfold Whois.bind at 1.
  change (Whois.lift (option_value "user" (user_arg U)) s)
    with (Whois.Resolved U (Whois.mkState (Whois.store s) (Whois.replies s))).
  rewrite state_eta, Hguild. unfold Whois.bind at 1. unfold Whois.ret at 1.
  unfold Whois.bind at 1. rewrite Hfound. reflexivity.
Qed.

Lemma warning_fields (env : Whois.Env) (ws : list Whois.Warning.t)
    (fs : list Whois.Field.t) :
  fold_left (fun acc warning => acc ++ [Whois.warning_field env warning]) ws fs
  = fs ++ map (Whois.warning_field env) ws.
Proof.
  revert fs. induction ws as [|w ws IH]; intros fs; cbn [fold_left map].
  - now rewrite app_nil_r.
  - rewrite IH, <- app_assoc. reflexivity.
Qed.

(** The loop over the notes, when every author can be fetched: one field
    for each note, in the order of the notes, and the count raised by
    their number. *)
Lemma note_loop_resolves (env : Whois.Env) (who : Note -> Whois.Account)
    (ns : list Note) (fs : list Whois.Field.t) (noteCount : N) (s : Whois.State) :
  (forall n, In n ns -> Whois.fetch_user env (addedBy n) = inr (who n)) ->
  Whois.note_loop env ns fs noteCount s
  = Whois.Resolved
      (fs ++ map (fun n =>
                    Whois.Field.mk
                      ("Note from " ++ Whois.username (who n) ++ " at " ++ date n)
                      ("*" ++ contents n ++ "*") false) ns,
       (noteCount + N.of_nat (List.length ns))%N)
      s.
Proof.
  revert fs noteCount. induction ns as [|n ns IH]; intros fs noteCount Hwho.
  - cbn [Whois.note_loop map List.length]. unfold Whois.ret.
    rewrite app_nil_r. replace (noteCount + N.of_nat 0)%N with noteCount by lia.
    reflexivity.
  - cbn [Whois.note_loop]. unfold Whois.bind.
    rewrite (Hwho n (or_introl eq_refl)). cbn [Whois.settle]. unfold Whois.ret.
    rewrite IH by (intros n' Hn'; apply Hwho; now right).
    cbn [map List.length]. rewrite <- app_assoc.
    replace (N.succ noteCount + N.of_nat (List.length ns))%N
      with (noteCount + N.of_nat (S (List.length ns)))%N by lia.
    reflexivity.
Qed.

(** The loop stops at a note whose author cannot be fetched. *)
Lemma note_loop_rejects (env : Whois.Env) (ns : list Note) (n : Note)
    (e : JsError) (fs : list Whois.Field.t) (noteCount : N) (s : Whois.State) :
  In n ns -> Whois.fetch_user env (addedBy n) = inl e ->
  exists e', Whois.note_loop env ns fs noteCount s = Whois.Rejected e' s.
Proof.
  revert fs noteCount. induction ns as [|n0 ns IH]; intros fs noteCount Hin He;
    [contradiction|].
  cbn [Whois.note_loop]. unfold Whois.bind.
  destruct (Whois.fetch_user env (addedBy n0)) as [e0|a] eqn:H0;
    cbn [Whois.settle]; unfold Whois.throw, Whois.ret.
  - eauto.
  - destruct Hin as [->|Hin]; [congruence|]. now apply IH.
Qed.

Lemma bind_run {A B : Type} (m : Whois.W A) (k : A -> Whois.W B)
    (s s' : Whois.State) (a : A) (r : Whois.result B) :
  m s = Whois.Resolved a s' -> k a s' = r -> Whois.bind m k s = r.
Proof. intros Hm Hk. unfold Whois.bind. now rewrite Hm. Qed.

Lemma build_lenient (env : Whois.Env) (c : Whois.BuilderCall)
    (embed : Whois.Embed) (s : Whois.State) :
  Whois.lenient env ->
  Whois.build env c embed s = Whois.Resolved (Whois.accept c embed) s.
Proof. intros H. unfold Whois.build. now rewrite H. Qed.

(** What [describe] does when nothing fails. *)
Lemma describe_run
    (env : Whois.Env) (interaction : Whois.Interaction)
    (member : Whois.GuildMember) (s : Whois.State)
    (has : string -> bool) (created joined : string)
    (ws : list Whois.Warning.t) (who : Note -> Whois.Account) :
  Whois.lenient env ->
  Whois.memberPermissions interaction = Some has ->
  Whois.formatDate env (Some (Whois.createdAt (Whois.member_user member)))
    = inr created ->
  Whois.formatDate env (Whois.joinedAt member) = inr joined ->
  (has "KickMembers" = true ->
   Whois.getWarns env (id (Whois.account (Whois.member_user member))) = inr ws) ->
  hd None (faults (db (Whois.store s))) = None ->
  (forall n,
     In n (notes_of (id (Whois.account (Whois.member_user member))) (Whois.store s)) ->
     Whois.fetch_user env (addedBy n) = inr (who n)) ->
  Whois.describe env interaction member s
  = Whois.Resolved None
      (Whois.mkState
         (mkState
            (mkDb (docs (db (Whois.store s)))
                  (calls (db (Whois.store s))
                   ++ [FindOne (id (Whois.account (Whois.member_user member)))])
                  (tl (faults (db (Whois.store s)))))
            (sent (Whois.store s)))
         (Whois.replies s ++
            [[ Whois.mkEmbed
                 (Some "DarkBlue")
                 (Some ("User info for " ++ backtick
                        ++ tag (Whois.account (Whois.member_user member))
                        ++ backtick)%string)
                 (Some (Whois.displayAvatarURL member))
                 (if Whois.bot (Whois.member_user member)
                  then Some "**Note: This is a bot account!**" else None)
                 (Some (JS.string_of_N
                          (N.of_nat (List.length
                             (notes_of (id (Whois.account (Whois.member_user member)))
                                       (Whois.store s))))
                        ++ " total notes")%string)
                 ([ Whois.Field.mk "Created at" created true;
                    Whois.Field.mk "Joined at" joined true;
                    Whois.Field.mk "Status"
                      (match Whois.presence member with
                       | Some status => status
                       | None => "offline"
                       end) true;
                    Whois.Field.mk "Nickname" (Whois.displayName member) true;
                    Whois.Field.mk "Roles" (Whois.roles_text (Whois.roles member)) true ]
                  ++ (if has "KickMembers"
                      then map (Whois.warning_field env) ws else [])
                  ++ map (fun n =>
                            Whois.Field.mk
                              ("Note from " ++ Whois.username (who n) ++ " at " ++ date n)
                              ("*" ++ contents n ++ "*") false)
                         (notes_of (id (Whois.account (Whois.member_user member)))
                                   (Whois.store s))) ]])).
Proof.
  intros Hlenient Hperm Hcreated Hjoined Hwarns Hfaults Hwho.
  unfold notes_of in *. unfold Whois.describe.
  destruct (Whois.bot (Whois.member_user member));
    destruct (has "KickMembers") eqn:Hkick;
    destruct (faults (db (Whois.store s))) as [|[e|] later] eqn:Hfs;
    cbn [hd] in Hfaults; try discriminate;
    destruct (find (matches (id (Whois.account (Whois.member_user member))))
                   (docs (db (Whois.store s)))) as [r|] eqn:Hfind;
    repeat
      (eapply bind_run;
       [ first
           [ apply build_lenient; exact Hlenient
           | rewrite Hcreated; reflexivity
           | rewrite Hjoined; reflexivity
           | rewrite Hperm; reflexivity
           | rewrite Hkick;
             first [ reflexivity
                   | eapply bind_run;
                     [rewrite (Hwarns eq_refl); reflexivity | reflexivity] ]
           | unfold Whois.lift, getRecord, findOne, call;
             rewrite Hfs, Hfind; reflexivity
           | apply (@note_loop_resolves env who); exact Hwho
           | reflexivity ]
       | cbv beta iota ]);
    unfold Whois.ret; cbn [fst snd tl map];
    rewrite ?warning_fields, ?app_nil_r, <- ?app_assoc; reflexivity.
Qed.

(** X23. For a member who was found, with a builder and collaborators that
    fail nowhere and a [findOne] that is not rejected, [whois] delivers one
    reply with one embed and returns nothing. The footer counts the notes
    that the store holds for the member; the fields are the five of the
    member (dates, status, nickname, roles), then one for each warning if
    the invoker may kick members and none if not, then one for each note, in
    the order of the record, with the name of its author, its date and its
    text. *)
Lemma whois_shows_the_notes
    (env : Whois.Env) (interaction : Whois.Interaction) (s : Whois.State)
    (U : string) (members : string -> Whois.Fetched)
    (member : Whois.GuildMember) (has : string -> bool)
    (created joined : string) (ws : list Whois.Warning.t)
    (who : Note -> Whois.Account) :
  Whois.lenient env ->
  Whois.guild interaction = Some members ->
  members U = Whois.Found member ->
  Whois.memberPermissions interaction = Some has ->
  Whois.formatDate env (Some (Whois.createdAt (Whois.member_user member)))
    = inr created ->
  Whois.formatDate env (Whois.joinedAt member) = inr joined ->
  (has "KickMembers" = true ->
   Whois.getWarns env (id (Whois.account (Whois.member_user member))) = inr ws) ->
  hd None (faults (db (Whois.store s))) = None ->
  (forall n,
     In n (notes_of (id (Whois.account (Whois.member_user member))) (Whois.store s)) ->
     Whois.fetch_user env (addedBy n) = inr (who n)) ->
  exists embed s',
    Whois.whois env (user_arg U) interaction s = Whois.Resolved None s'
    /\ Whois.replies s' = Whois.replies s ++ [[embed]]
    /\ Whois.footer embed
       = Some (JS.string_of_N
                 (N.of_nat (List.length
                    (notes_of (id (Whois.account (Whois.member_user member)))
                              (Whois.store s))))
               ++ " total notes")%string
    /\ Whois.fields embed
       = [ Whois.Field.mk "Created at" created true;
           Whois.Field.mk "Joined at" joined true;
           Whois.Field.mk "Status"
             (match Whois.presence member with
              | Some status => status
              | None => "offline"
              end) true;
           Whois.Field.mk "Nickname" (Whois.displayName member) true;
           Whois.Field.mk "Roles" (Whois.roles_text (Whois.roles member)) true ]
         ++ (if has "KickMembers" then map (Whois.warning_field env) ws else [])
         ++ map (fun n =>
                   Whois.Field.mk
                     ("Note from " ++ Whois.username (who n) ++ " at " ++ date n)
                     ("*" ++ contents n ++ "*") false)
                (notes_of (id (Whois.account (Whois.member_user member)))
                          (Whois.store s)).
Proof.
  intros Hlenient Hguild Hfound Hperm Hcreated Hjoined Hwarns Hfaults Hwho.
  rewrite (@whois_found env interaction s U members member Hguild Hfound).
  rewrite (@describe_run env interaction member s has created joined ws who
             Hlenient Hperm Hcreated Hjoined Hwarns Hfaults Hwho).
  eexists. eexists. split; [reflexivity|]. cbn [Whois.replies].
  split; [reflexivity|]. split; reflexivity.
Qed.

Lemma whois_shows_the_notes_witness :
  let ann := Whois.mkAccount (mkUser "7" "ann#1") "ann" false 50%Z in
  let bob := Whois.mkAccount (mkUser "9" "bob#2") "bob" false 100%Z in
  let member := Whois.mkMember bob "https://cdn.example/bob.png" (Some 200%Z)
                  None "Bobby"
                  [Whois.mkRole "@everyone"; Whois.mkRole "mod"; Whois.mkRole "dev"] in
  let env := Whois.mkEnv (fun _ => inr ann) (fun _ => None)
               (fun _ => inl (mkError "MongoError" "down"))
               (fun _ => inr "2023-01-01") (fun _ => None) in
  let interaction := Whois.mkInteraction (Some (fun _ => Whois.Found member))
                       (Some (fun _ => false)) in
  let s := Whois.mkState
             (mkState (mkDb [mkUserRecord "9" [mkNote "first" "7" "2022-12-31";
                                               mkNote "second" "7" "2023-01-01"]]
                            [] []) [])
             [] in
  exists embed s',
    Whois.whois env (user_arg "9") interaction s = Whois.Resolved None s'
    /\ Whois.replies s' = [[embed]]
    /\ Whois.footer embed = Some "2 total notes"
    /\ Whois.fields embed
       = [ Whois.Field.mk "Created at" "2023-01-01" true;
           Whois.Field.mk "Joined at" "2023-01-01" true;
           Whois.Field.mk "Status" "offline" true;
           Whois.Field.mk "Nickname" "Bobby" true;
           Whois.Field.mk "Roles" "mod, dev" true;
           Whois.Field.mk "Note from ann at 2022-12-31" "*first*" false;
           Whois.Field.mk "Note from ann at 2023-01-01" "*second*" false ].
Proof.
  intros ann bob member env interaction s.
  apply (@whois_shows_the_notes env interaction s "9"
           (fun _ => Whois.Found member) member (fun _ => false)
           "2023-01-01" "2023-01-01" [] (fun _ => ann));
    try reflexivity.
  - intros c. reflexivity.
  - discriminate.
Defined.

Lemma triple_consequence {A : Type} (P P' : Whois.State -> Prop) (m : Whois.W A)
    (Q Q' : A -> Whois.State -> Prop) (R R' : Whois.State -> Prop) :
  (forall s, P' s -> P s) -> (forall a s, Q a s -> Q' a s) ->
  (forall s, R s -> R' s) ->
  Whois.triple P m Q R -> Whois.triple P' m Q' R'.
Proof.
  intros HP HQ HR Hm s Hs. specialize (Hm s (HP s Hs)).
  destruct (m s); auto.
Qed.

Lemma describe_stops_at_an_unknown_author
    (env : Whois.Env) (interaction : Whois.Interaction)
    (member : Whois.GuildMember) (s0 : Whois.State)
    (r : userRecord) (n : Note) (e : JsError) :
  find (matches (id (Whois.account (Whois.member_user member))))
       (docs (db (Whois.store s0))) = Some r ->
  In n (notes r) ->
  Whois.fetch_user env (addedBy n) = inl e ->
  Whois.triple (eq s0) (Whois.describe env interaction member)
    (fun _ _ => False) (fun s => Whois.replies s = Whois.replies s0).
Proof.
  intros Hfind Hin He.
  assert (forall s, s0 = s -> Whois.replies s = Whois.replies s0) as Hstart
    by (now intros s <-).
  unfold Whois.describe.
  do 8 (silent_step; [exact Hstart|]).
  eapply triple_bind.
  - apply triple_consequence
      with (P := eq s0)
           (Q := fun record s =>
                   record = find (matches (id (Whois.account (Whois.member_user member))))
                                 (docs (db (Whois.store s0)))
                   /\ observes (Whois.store s0) (Whois.store s)
                   /\ sent (Whois.store s) = sent (Whois.store s0)
                   /\ Whois.replies s = Whois.replies s0)
           (R := fun s =>
                   observes (Whois.store s0) (Whois.store s)
                   /\ sent (Whois.store s) = sent (Whois.store s0)
                   /\ Whois.replies s = Whois.replies s0);
      [ auto
      | intros record s (Hrec & _ & _ & Hrep);
        exact (conj Hrec Hrep)
      | intros s (_ & _ & Hrep); exact Hrep
      | apply getRecord_reads ].
  - intros record. apply triple_assume. intros ->. rewrite Hfind.
    eapply triple_bind with (Q := fun _ _ => False).
    + intros s Hrep.
      match goal with
      | |- match Whois.note_loop _ _ ?fs _ _ with _ => _ end =>
          destruct (@note_loop_rejects env (notes r) n e fs 0%N s Hin He)
            as [e' ->]
      end.
      exact Hrep.
    + intros looped. apply triple_never.
Qed.

(** X24. One note whose author the platform cannot fetch makes [whois] fail
    for the member: whatever else succeeds or fails, the handler rejects and
    no reply is delivered. *)
Lemma whois_fails_on_an_unknown_author
    (env : Whois.Env) (interaction : Whois.Interaction) (s : Whois.State)
    (U : string) (members : string -> Whois.Fetched)
    (member : Whois.GuildMember) (r : userRecord) (n : Note) (e : JsError) :
  Whois.guild interaction = Some members ->
  members U = Whois.Found member ->
  find (matches (id (Whois.account (Whois.member_user member))))
       (docs (db (Whois.store s))) = Some r ->
  In n (notes r) ->
  Whois.fetch_user env (addedBy n) = inl e ->
  exists e' s',
    Whois.whois env (user_arg U) interaction s = Whois.Rejected e' s'
    /\ Whois.replies s' = Whois.replies s.
Proof.
  intros Hguild Hfound Hfind Hin He.
  rewrite (@whois_found env interaction s U members member Hguild Hfound).
  pose proof (@describe_stops_at_an_unknown_author env interaction member s r n e
                Hfind Hin He s eq_refl) as H.
  destruct (Whois.describe env interaction member s) as [a s'|e' s'];
    [contradiction | eauto].
Qed.

Lemma whois_fails_on_an_unknown_author_witness :
  let ann := Whois.mkAccount (mkUser "7" "ann#1") "ann" false 50%Z in
  let bob := Whois.mkAccount (mkUser "9" "bob#2") "bob" false 100%Z in
  let member := Whois.mkMember bob "https://cdn.example/bob.png" (Some 200%Z)
                  None "Bobby" [] in
  let unknown := mkError "DiscordAPIError[10013]" "Unknown User" in
  let env := Whois.mkEnv
               (fun i => if String.eqb i "7" then inr ann else inl unknown)
               (fun _ => None) (fun _ => inr [])
               (fun _ => inr "2023-01-01") (fun _ => None) in
  let interaction := Whois.mkInteraction (Some (fun _ => Whois.Found member))
                       (Some (fun _ => false)) in
  let s := Whois.mkState
             (mkState (mkDb [mkUserRecord "9" [mkNote "first" "7" "2022-12-31";
                                               mkNote "second" "5" "2023-01-01"]]
                            [] []) [])
             [] in
  exists e' s',
    Whois.whois env (user_arg "9") interaction s = Whois.Rejected e' s'
    /\ Whois.replies s' = [].
Proof.
  intros ann bob member unknown env interaction s.
  apply (@whois_fails_on_an_unknown_author env interaction s "9"
           (fun _ => Whois.Found member) member
           (mkUserRecord "9" [mkNote "first" "7" "2022-12-31";
                              mkNote "second" "5" "2023-01-01"])
           (mkNote "second" "5" "2023-01-01") unknown);
    try reflexivity.
  simpl. tauto.
Defined.

(** X25. [.catch()] without a handler catches nothing: when the fetch of the
    member rejects, [whois] rejects with the same error, before any call on
    the store and without a reply. *)
Lemma whois_lets_the_fetch_rejection_through
    (env : Whois.Env) (interaction : Whois.Interaction) (s : Whois.State)
    (U : string) (members : string -> Whois.Fetched) (e : JsError) :
  Whois.guild interaction = Some members ->
  members U = Whois.Fails e ->
  Whois.whois env (user_arg U) interaction s = Whois.Rejected e s.
Proof.
  intros Hguild Hfails. unfold Whois.whois.
  unfold Whois.bind at 1.
  change (Whois.lift (option_value "user" (user_arg U)) s)
    with (Whois.Resolved U (Whois.mkState (Whois.store s) (Whois.replies s))).
  rewrite state_eta, Hguild. unfold Whois.bind at 1. unfold Whois.ret at 1.
  unfold Whois.bind at 1. rewrite Hfails. reflexivity.
Qed.

Lemma whois_lets_the_fetch_rejection_through_witness :
  let unknown := mkError "DiscordAPIError[10007]" "Unknown Member" in
  let env := Whois.mkEnv (fun _ => inl unknown) (fun _ => None) (fun _ => inr [])
               (fun _ => inr "2023-01-01") (fun _ => None) in
  let interaction := Whois.mkInteraction (Some (fun _ => Whois.Fails unknown))
                       (Some (fun _ => true)) in
  let s := Whois.mkState (mkState (mkDb [] [] []) []) [] in
  Whois.whois env (user_arg "9") interaction s = Whois.Rejected unknown s.
Proof.
  intros unknown env interaction s.
  apply (@whois_lets_the_fetch_rejection_through env interaction s "9"
           (fun _ => Whois.Fails unknown) unknown); reflexivity.
Defined.

Lemma bind_ext {A B : Type} (m m' : Whois.W A) (k k' : A -> Whois.W B)
    (s : Whois.State) :
  m s = m' s -> (forall a s', k a s' = k' a s') ->
  Whois.bind m k s = Whois.bind m' k' s.
Proof.
  intros Hm Hk. unfold Whois.bind. rewrite Hm.
  destruct (m' s); [apply Hk | reflexivity].
Qed.

Lemma bind_ret {A B : Type} (a : A) (k : A -> Whois.W B) (s : Whois.State) :
  Whois.bind (Whois.ret a) k s = k a s.
Proof. reflexivity. Qed.

Lemma note_loop_fetch_user (env env' : Whois.Env) (ns : list Note)
    (fs : list Whois.Field.t) (noteCount : N) (s : Whois.State) :
  (forall i, Whois.fetch_user env' i = Whois.fetch_user env i) ->
  Whois.note_loop env' ns fs noteCount s = Whois.note_loop env ns fs noteCount s.
Proof.
  intros Hsame. revert fs noteCount s.
  induction ns as [|n ns IH]; intros fs noteCount s; [reflexivity|].
  cbn [Whois.note_loop]. apply bind_ext; [now rewrite Hsame|].
  intros a s'. apply IH.
Qed.

(** X26. The warnings of a member are for the invokers who may kick members:
    for any other invoker, what [getWarns] would answer has no influence on
    what [whois] does. *)
Lemma whois_keeps_warnings_from_other_invokers
    (env : Whois.Env) (warns : Snowflake -> JsError + list Whois.Warning.t)
    (args : list Arg.t) (interaction : Whois.Interaction) (s : Whois.State)
    (has : string -> bool) :
  Whois.memberPermissions interaction = Some has ->
  has "KickMembers" = false ->
  Whois.whois
    (Whois.mkEnv (Whois.fetch_user env) (Whois.cached env) warns
                 (Whois.formatDate env) (Whois.refused env))
    args interaction s
  = Whois.whois env args interaction s.
Proof.
  intros Hperm Hkick. unfold Whois.whois.
  do 3 (apply bind_ext; [reflexivity | intros ? ?]).
  match goal with |- match ?x with _ => _ end _ = _ =>
    destruct x as [member|]; [|reflexivity] end.
  unfold Whois.describe.
  do 6 (apply bind_ext; [reflexivity | intros ? ?]).
  rewrite Hperm, !bind_ret. cbv beta. rewrite Hkick, !bind_ret. cbv beta.
  apply bind_ext; [reflexivity | intros record s7].
  apply bind_ext; [|reflexivity].
  destruct record as [r|]; [|reflexivity].
  apply note_loop_fetch_user. reflexivity.
Qed.

Lemma whois_keeps_warnings_from_other_invokers_witness :
  let ann := Whois.mkAccount (mkUser "7" "ann#1") "ann" false 50%Z in
  let bob := Whois.mkAccount (mkUser "9" "bob#2") "bob" false 100%Z in
  let member := Whois.mkMember bob "https://cdn.example/bob.png" (Some 200%Z)
                  (Some "idle") "Bobby" [Whois.mkRole "@everyone"] in
  let env := Whois.mkEnv (fun _ => inr ann) (fun _ => None) (fun _ => inr [])
               (fun _ => inr "2023-01-01") (fun _ => None) in
  let interaction := Whois.mkInteraction (Some (fun _ => Whois.Found member))
                       (Some (fun p => String.eqb p "SendMessages")) in
  let s := Whois.mkState (mkState (mkDb [] [] []) []) [] in
  Whois.whois
    (Whois.mkEnv (Whois.fetch_user env) (Whois.cached env)
       (fun _ => inr [Whois.Warning.mk "7" "2023-01-05" "spam"])
       (Whois.formatDate env) (Whois.refused env))
    (user_arg "9") interaction s
  = Whois.whois env (user_arg "9") interaction s.
Proof.
  intros ann bob member env interaction s.
  apply (@whois_keeps_warnings_from_other_invokers env
           (fun _ => inr [Whois.Warning.mk "7" "2023-01-05" "spam"])
           (user_arg "9") interaction s (fun p => String.eqb p "SendMessages"));
    reflexivity.
Defined.

(** X27. Add, then whois: after [add user=U note=N] by an invoker who is not
    [U], on a store that rejects no call, [whois] for the member [U] counts
    one note more than the store held for [U], and the last field of its
    embed is the new note, with the name of the invoker of [add], the date
    of the [add] and the text. *)
Lemma add_then_whois_shows_the_note
    (nenv : Notes.Env) (env : Whois.Env)
    (invocation : Notes.Interaction) (interaction : Whois.Interaction)
    (s : Whois.State) (U N : string) (target : User)
    (members : string -> Whois.Fetched) (member : Whois.GuildMember)
    (has : string -> bool) (created joined : string)
    (who : Note -> Whois.Account) :
  known nenv U target ->
  id (invoker invocation) <> id target ->
  faults (db (Whois.store s)) = [] ->
  Whois.lenient env ->
  Whois.guild interaction = Some members ->
  members U = Whois.Found member ->
  id (Whois.account (Whois.member_user member)) = U ->
  Whois.memberPermissions interaction = Some has ->
  has "KickMembers" = false ->
  Whois.formatDate env (Some (Whois.createdAt (Whois.member_user member)))
    = inr created ->
  Whois.formatDate env (Whois.joinedAt member) = inr joined ->
  (forall n,
     In n (notes_of U (Whois.store s)
           ++ [mkNote N (id (invoker invocation)) (now nenv)]) ->
     Whois.fetch_user env (addedBy n) = inr (who n)) ->
  exists st1 embed s2,
    add nenv (add_args U N) invocation (Whois.store s)
      = Notes.Resolved (Some (successEmbed "Succesfully added that note")) st1
    /\ Whois.whois env (user_arg U) interaction
         (Whois.mkState st1 (Whois.replies s))
       = Whois.Resolved None s2
    /\ Whois.replies s2 = Whois.replies s ++ [[embed]]
    /\ Whois.footer embed
       = Some (JS.string_of_N
                 (N.of_nat (S (List.length (notes_of U (Whois.store s)))))
               ++ " total notes")%string
    /\ exists before,
         Whois.fields embed
         = before
           ++ [Whois.Field.mk
                 ("Note from "
                  ++ Whois.username
                       (who (mkNote N (id (invoker invocation)) (now nenv)))
                  ++ " at " ++ now nenv)
                 ("*" ++ N ++ "*") false].
Proof.
  intros Hknown Hother Hfaults Hlenient Hguild Hfound Hid Hperm Hkick
         Hcreated Hjoined Hwho.
  destruct (@add_to_store nenv invocation (Whois.store s) U N target
              Hknown Hother Hfaults)
    as (st1 & Hadd & Hfind & _ & Hfaults1 & _).
  assert (notes_of U st1
          = notes_of U (Whois.store s)
            ++ [mkNote N (id (invoker invocation)) (now nenv)]) as Hnotes.
  { unfold notes_of. now rewrite Hfind. }
  exists st1.
  rewrite (@whois_found env interaction (Whois.mkState st1 (Whois.replies s))
             U members member Hguild Hfound).
  rewrite (@describe_run env interaction member
             (Whois.mkState st1 (Whois.replies s)) has created joined [] who
             Hlenient Hperm Hcreated Hjoined).
  - eexists. eexists. split; [exact Hadd|]. split; [reflexivity|].
    cbn [Whois.replies Whois.footer Whois.fields Whois.store].
    rewrite Hid, Hnotes, Hkick. split; [reflexivity|]. split.
    + rewrite length_app. cbn [List.length]. now rewrite Nat.add_1_r.
    + exists ([ Whois.Field.mk "Created at" created true;
                Whois.Field.mk "Joined at" joined true;
                Whois.Field.mk "Status"
                  (match Whois.presence member with
                   | Some status => status
                   | None => "offline"
                   end) true;
                Whois.Field.mk "Nickname" (Whois.displayName member) true;
                Whois.Field.mk "Roles" (Whois.roles_text (Whois.roles member)) true ]
              ++ map (fun n =>
                        Whois.Field.mk
                          ("Note from " ++ Whois.username (who n) ++ " at " ++ date n)
                          ("*" ++ contents n ++ "*") false)
                     (notes_of U (Whois.store s))).
      rewrite map_app, <- app_assoc. reflexivity.
  - rewrite Hkick. discriminate.
  - cbn [Whois.store]. now rewrite Hfaults1.
  - cbn [Whois.store]. rewrite Hid, Hnotes. exact Hwho.
Qed.

Lemma add_then_whois_shows_the_note_witness :
  let ann := Whois.mkAccount (mkUser "7" "ann#1") "ann" false 50%Z in
  let bob := Whois.mkAccount (mkUser "9" "bob#2") "bob" false 100%Z in
  let member := Whois.mkMember bob "https://cdn.example/bob.png" (Some 200%Z)
                  None "Bobby" [] in
  let nenv := Notes.mkEnv [mkUser "7" "ann#1"; mkUser "9" "bob#2"] "2023-01-01" in
  let env := Whois.mkEnv (fun _ => inr ann) (fun _ => None) (fun _ => inr [])
               (fun _ => inr "2023-01-02") (fun _ => None) in
  let interaction := Whois.mkInteraction (Some (fun _ => Whois.Found member))
                       (Some (fun _ => false)) in
  exists st1 embed s2,
    add nenv (add_args "9" "late again") (Notes.mkInteraction (mkUser "7" "ann#1"))
        (mkState (mkDb [] [] []) [])
      = Notes.Resolved (Some (successEmbed "Succesfully added that note")) st1
    /\ Whois.whois env (user_arg "9") interaction (Whois.mkState st1 [])
       = Whois.Resolved None s2
    /\ Whois.replies s2 = [[embed]]
    /\ Whois.footer embed = Some "1 total notes"
    /\ exists before,
         Whois.fields embed
         = before
           ++ [Whois.Field.mk "Note from ann at 2023-01-01" "*late again*" false].
Proof.
  intros ann bob member nenv env interaction.
  apply (@add_then_whois_shows_the_note nenv env
           (Notes.mkInteraction (mkUser "7" "ann#1")) interaction
           (Whois.mkState (mkState (mkDb [] [] []) []) [])
           "9" "late again" (mkUser "9" "bob#2")
           (fun _ => Whois.Found member) member (fun _ => false)
           "2023-01-02" "2023-01-02" (fun _ => ann));
    try reflexivity.
  - simpl. discriminate.
  - intros c. reflexivity.
Defined.

End WhoisCommand.

(* ------------------------------------------------------------------ *)
(** ** Edits in arrays, and the user of a note command                 *)
(* ------------------------------------------------------------------ *)

Section Bounds.
Import Notes.

Lemma array_index_of_N (n : N) :
  JS.array_index (JS.string_of_N n) = Some (N.to_nat n).
Proof.
  unfold JS.array_index, JS.string_of_N.
  rewrite DecimalString.NilEmpty.usu, DecimalN.Unsigned.of_to.
  now rewrite String.eqb_refl.
Qed.

(** X28. An index past the end of an array is a segment that is not found:
    the edit is cancelled with the error record, and the array is not
    extended. *)
Lemma index_past_the_end_is_not_found
    (w : World) (props : list (string * value)) (k : string)
    (elems : list value) (i : N) (newValue : value) :
  botConfig w = VObj props ->
  JS.own k props = Some (VArr elems) ->
  List.length elems <= N.to_nat i ->
  editConfigOption [SegStr k; SegNum i] newValue w
  = Returned (log EventCategory.Error "core" edit_cancelled 1 w).
Proof.
  intros Hcfg Hown Hlen. unfold editConfigOption. rewrite Hcfg.
  cbn [walk key_of]. unfold js_in at 1. rewrite Hown. cbn [JS.bind].
  unfold js_get at 1. rewrite Hown. cbn [JS.bind].
  unfold js_in. rewrite array_index_of_N.
  apply Nat.ltb_ge in Hlen. rewrite Hlen. reflexivity.
Qed.

Lemma index_past_the_end_is_not_found_witness :
  let w := mkWorld (VObj [("_set", VFunction "_set");
                          ("owners", VArr [VStr "7"; VStr "9"])])
                   None [] [] in
  editConfigOption [SegStr "owners"; SegNum 2] (VStr "11") w
  = Returned (log EventCategory.Error "core" edit_cancelled 1 w).
Proof.
  intros w.
  apply (@index_past_the_end_is_not_found w
           [("_set", VFunction "_set"); ("owners", VArr [VStr "7"; VStr "9"])]
           "owners" [VStr "7"; VStr "9"] 2%N (VStr "11")).
  - reflexivity.
  - reflexivity.
  - simpl. lia.
Defined.

Lemma hoare_assume {A : Type} (H : Prop) (P : State -> Prop) (m : M A)
    (Q : A -> State -> Prop) (R : State -> Prop) :
  (H -> hoare P m Q R) -> hoare (fun s => H /\ P s) m Q R.
Proof. intros Hm s [HH HP]. now apply Hm. Qed.

(** A call about one user leaves the record found for another user, and
    the files sent, as they were. *)
Lemma call_keeps_the_others (c : DbCall) (u u' : Snowflake)
    (found : option userRecord) (P : list (list Attachment) -> Prop) :
  u' <> u ->
  match c with
  | FindOne _ => True
  | InsertOne r => user r = u
  | UpdateOne v _ => v = u
  | DeleteOne v => v = u
  end ->
  hoare (fun s => find (matches u') (docs (db s)) = found /\ P (sent s))
        (call c)
        (fun _ s => find (matches u') (docs (db s)) = found /\ P (sent s))
        (fun s => find (matches u') (docs (db s)) = found /\ P (sent s)).
Proof.
  intros Hne Hc s [Hfound Hsent]. unfold call.
  assert (find (matches u') (apply_call c (docs (db s))) = found) as Happly.
  { rewrite <- Hfound. destruct c as [v|r|v ns|v]; cbn [apply_call]; cbn in Hc.
    - reflexivity.
    - apply find_app_other. apply matches_false. congruence.
    - subst v.
      destruct (find (matches u) (docs (db s))) as [r|] eqn:Hfind.
      + destruct (@update_first_found u ns _ r Hfind) as (l' & -> & _ & _ & Hrest).
        now apply Hrest.
      + rewrite (@update_first_missing u ns _ Hfind).
        apply find_app_other. apply matches_false. cbn. congruence.
    - subst v. now apply delete_first_other. }
  destruct (faults (db s)) as [|[e|] later]; cbn [db docs sent]; auto.
Qed.

Lemma getRecord_keeps_the_others (target : User) (u' : Snowflake)
    (found : option userRecord) (P : list (list Attachment) -> Prop) :
  hoare (fun s => find (matches u') (docs (db s)) = found /\ P (sent s))
        (getRecord target)
        (fun _ s => find (matches u') (docs (db s)) = found /\ P (sent s))
        (fun s => find (matches u') (docs (db s)) = found /\ P (sent s)).
Proof.
  intros s [Hfound Hsent]. unfold getRecord, findOne, call.
  destruct (faults (db s)) as [|[e|] later]; cbn [db docs sent apply_call]; auto.
Qed.

(** The user that the options name, and the user that is fetched for
    that name. *)
Lemma option_value_names (args : list Arg.t) (u' : Snowflake)
    (I : State -> Prop) :
  (forall a, find (fun a => String.eqb (Arg.name a) "user") args = Some a ->
             Arg.value a <> Some u') ->
  hoare I (option_value "user" args) (fun U s => u' <> U /\ I s) I.
Proof.
  intros Hother s HI. unfold option_value.
  destruct (find (fun a => String.eqb (Arg.name a) "user") args) as [a|] eqn:Ha;
    [|exact HI].
  specialize (Hother a eq_refl).
  destruct (Arg.value a) as [U|] eqn:Hvalue; [|exact HI].
  split; [|exact HI]. intros Hsame. subst u'. now apply Hother.
Qed.

Lemma fetch_names (env : Env) (U : string) (I : State -> Prop) :
  hoare I (fetch env U) (fun target s => id target = U /\ I s) I.
Proof.
  intros s HI. unfold fetch.
  destruct (find (fun u => String.eqb (id u) U) (users env)) as [target|] eqn:Hknown;
    [|exact HI].
  split; [now apply (@find_user_id U (users env)) | exact HI].
Qed.

Lemma handlers_frame
    (env : Env) (args : list Arg.t) (interaction : Interaction)
    (u' : Snowflake) (found : option userRecord)
    (files : list (list Attachment)) :
  (forall a, find (fun a => String.eqb (Arg.name a) "user") args = Some a ->
             Arg.value a <> Some u') ->
  hoare (fun s => find (matches u') (docs (db s)) = found /\ sent s = files)
        (add env args interaction)
        (fun _ s => find (matches u') (docs (db s)) = found /\ sent s = files)
        (fun s => find (matches u') (docs (db s)) = found /\ sent s = files)
  /\ hoare (fun s => find (matches u') (docs (db s)) = found /\ sent s = files)
        (clear env args)
        (fun _ s => find (matches u') (docs (db s)) = found /\ sent s = files)
        (fun s => find (matches u') (docs (db s)) = found /\ sent s = files)
  /\ hoare (fun s => find (matches u') (docs (db s)) = found /\ True)
        (get env args interaction)
        (fun _ s => find (matches u') (docs (db s)) = found /\ True)
        (fun s => find (matches u') (docs (db s)) = found /\ True).
Proof.
  intros Hother. repeat split.
  - unfold add.
    eapply hoare_bind; [apply (@option_value_names args u' _ Hother) | intros U].
    apply hoare_assume. intros HU.
    eapply hoare_bind; [apply fetch_names | intros target].
    apply hoare_assume. intros Hid.
    destruct (String.eqb (id (invoker interaction)) (id target));
      [apply hoare_ret_keep|].
    eapply hoare_bind; [apply hoare_option_value | intros noteContents].
    eapply hoare_bind;
      [apply (@getRecord_keeps_the_others target u' found (fun x => x = files))
      | intros [r|]].
    + eapply hoare_bind; [|intros ?; apply hoare_ret_keep].
      apply hoare_catch.
      eapply hoare_bind; [|intros ?; apply hoare_ret_keep].
      apply (@call_keeps_the_others _ U u' found (fun x => x = files) HU);
        exact Hid.
    + eapply hoare_bind; [|intros ?; apply hoare_ret_keep].
      apply hoare_catch.
      eapply hoare_bind; [|intros ?; apply hoare_ret_keep].
      apply (@call_keeps_the_others _ U u' found (fun x => x = files) HU);
        exact Hid.
  - unfold clear.
    eapply hoare_bind; [apply (@option_value_names args u' _ Hother) | intros U].
    apply hoare_assume. intros HU.
    eapply hoare_bind; [apply fetch_names | intros target].
    apply hoare_assume. intros Hid.
    eapply hoare_bind;
      [apply (@getRecord_keeps_the_others target u' found (fun x => x = files))
      | intros [r|]].
    + eapply hoare_bind; [|intros ?; apply hoare_ret_keep].
      apply hoare_catch.
      eapply hoare_bind; [|intros ?; apply hoare_ret_keep].
      apply (@call_keeps_the_others _ U u' found (fun x => x = files) HU);
        exact Hid.
    + apply hoare_ret_keep.
  - unfold get.
    eapply hoare_bind; [apply (@option_value_names args u' _ Hother) | intros U].
    apply hoare_assume. intros HU.
    eapply hoare_bind; [apply fetch_names | intros target].
    apply hoare_assume. intros Hid.
    eapply hoare_bind;
      [apply (@getRecord_keeps_the_others target u' found (fun _ => True))
      | intros [r|]].
    + destruct (JSON.stringify _ 2).
      * eapply hoare_bind; [|intros ?; apply hoare_ret_keep].
        intros st [Hfound _]. cbn [replyToInteraction db docs]. auto.
      * apply hoare_throw.
    + apply hoare_ret_keep.
Qed.

(** X29. A note command touches the record of one user only: whatever the
    options, the failures of the store and the way the handler ends, [add],
    [clear] and [get] leave the record found for every user that their
    [user] option does not name as it was; [add] and [clear] send no file. *)
Lemma handlers_keep_the_other_records
    (env : Env) (args : list Arg.t) (interaction : Interaction) (s : State)
    (u' : Snowflake) :
  (forall a, find (fun a => String.eqb (Arg.name a) "user") args = Some a ->
             Arg.value a <> Some u') ->
  match add env args interaction s with
  | Resolved _ s' | Rejected _ s' =>
      find (matches u') (docs (db s')) = find (matches u') (docs (db s))
      /\ sent s' = sent s
  end
  /\ match clear env args s with
     | Resolved _ s' | Rejected _ s' =>
         find (matches u') (docs (db s')) = find (matches u') (docs (db s))
         /\ sent s' = sent s
     end
  /\ match get env args interaction s with
     | Resolved _ s' | Rejected _ s' =>
         find (matches u') (docs (db s')) = find (matches u') (docs (db s))
     end.
Proof.
  intros Hother.
  destruct (@handlers_frame env args interaction u'
              (find (matches u') (docs (db s))) (sent s) Hother)
    as (Hadd & Hclear & Hget).
  specialize (Hadd s (conj eq_refl eq_refl)).
  specialize (Hclear s (conj eq_refl eq_refl)).
  specialize (Hget s (conj eq_refl I)).
  split; [|split].
  - destruct (add env args interaction s); exact Hadd.
  - destruct (clear env args s); exact Hclear.
  - destruct (get env args interaction s); apply Hget.
Qed.

Lemma handlers_keep_the_other_records_witness :
  let env := mkEnv [mkUser "7" "ann#1"; mkUser "9" "bob#2"] "2023-01-01" in
  let s := mkState (mkDb [mkUserRecord "7" [mkNote "first" "5" "2022-12-31"];
                          mkUserRecord "9" []]
                         [] [None; Some (mkError "MongoError" "down")])
                   [] in
  match clear env (user_arg "9") s with
  | Resolved _ s' | Rejected _ s' =>
      find (matches "7") (docs (db s')) = find (matches "7") (docs (db s))
      /\ sent s' = sent s
  end.
Proof.
  intros env s.
  destruct (@handlers_keep_the_other_records env (user_arg "9")
              (mkInteraction (mkUser "7" "ann#1")) s "7")
    as (_ & Hclear & _).
  - intros a [= <-]. discriminate.
  - exact Hclear.
Defined.

End Bounds.

(* ------------------------------------------------------------------ *)
(** ** Invocations of add that overlap                                 *)
(* ------------------------------------------------------------------ *)

Section OverlappingAdds.
Import Notes.

(** The two parts of [add], one after the other, are [add]. *)
Lemma add_in_two_parts
    (env : Env) (args : list Arg.t) (interaction : Interaction) (s : State) :
  bind (add_reads env args interaction) add_writes s
  = add env args interaction s.
Proof.
  unfold add, add_reads, bind.
  destruct (option_value "user" args s) as [userArg s1|e s1]; [|reflexivity].
  destruct (fetch env userArg s1) as [target s2|e s2]; [|reflexivity].
  destruct (String.eqb (id (invoker interaction)) (id target)); [reflexivity|].
  destruct (option_value "note" args s2) as [noteContents s3|e s3]; [|reflexivity].
  destruct (getRecord target s3) as [[r|] s4|e s4]; reflexivity.
Qed.

(** X30. Two invocations of [add] for the same user that overlap, each
    having read the store before the other writes: when the user had no
    record and the store rejects no call, both find no record and both
    insert, and both answer with the success embed.  The store then
    holds two records for the user, so it is no longer at one record per
    user, and a reading of the user's notes finds the first note only. *)
Lemma overlapping_adds_make_two_records
    (env : Env) (interaction1 interaction2 : Interaction) (s : State)
    (U N1 N2 : string) (target : User) :
  known env U target ->
  id (invoker interaction1) <> id target ->
  id (invoker interaction2) <> id target ->
  faults (db s) = [] ->
  find (matches U) (docs (db s)) = None ->
  exists s',
    add_overlapping env (add_args U N1) interaction1 (add_args U N2) interaction2 s
    = Resolved (Some (successEmbed "Succesfully added that note"),
                Some (successEmbed "Succesfully added that note")) s'
    /\ docs (db s')
       = docs (db s)
         ++ [ mkUserRecord U [mkNote N1 (id (invoker interaction1)) (now env)];
              mkUserRecord U [mkNote N2 (id (invoker interaction2)) (now env)] ]
    /\ ~ one_record_per_user (docs (db s'))
    /\ notes_of U s' = [mkNote N1 (id (invoker interaction1)) (now env)].
Proof.
  intros Hknown Hother1 Hother2 Hfaults Hnone.
  pose proof (known_id Hknown) as Hid. unfold known in Hknown.
  apply String.eqb_neq in Hother1. apply String.eqb_neq in Hother2.
  unfold add_overlapping, add_reads, bind at 1 2 3.
  change (option_value "user" (add_args U N1) s) with (Resolved U s).
  unfold fetch at 1. rewrite Hknown. unfold ret at 1. rewrite Hother1.
  unfold bind at 1 2.
  change (option_value "note" (add_args U N1) s) with (Resolved N1 s).
  unfold getRecord at 1, findOne at 1, call at 1. rewrite Hfaults, Hid, Hnone.
  unfold ret at 1. cbn [apply_call db docs calls sent faults].
  unfold bind at 1 2 3.
  match goal with
  | |- context [option_value "user" (add_args U N2) ?st] =>
      change (option_value "user" (add_args U N2) st) with (Resolved U st)
  end.
  unfold fetch at 1. rewrite Hknown. unfold ret at 1. rewrite Hother2.
  unfold bind at 1 2.
  match goal with
  | |- context [option_value "note" (add_args U N2) ?st] =>
      change (option_value "note" (add_args U N2) st) with (Resolved N2 st)
  end.
  unfold getRecord at 1, findOne at 1, call at 1.
  cbn [apply_call db docs calls sent faults]. rewrite Hid, Hnone.
  unfold ret at 1. unfold bind at 1. cbn [add_writes].
  unfold bind, catch, insertOne, call, ret.
  cbn [apply_call db docs calls sent faults]. rewrite Hid.
  eexists. split; [reflexivity|]. cbn [db docs].
  split; [now rewrite <- app_assoc|]. split.
  - unfold one_record_per_user. rewrite <- app_assoc, map_app. cbn [map user app].
    intros Hnodup. apply NoDup_remove_2 in Hnodup. apply Hnodup.
    apply in_or_app. right. now left.
  - unfold notes_of. cbn [db docs]. rewrite <- app_assoc. cbn [app].
    assert (forall l r r',
              find (matches U) l = None -> matches U r = true ->
              find (matches U) (l ++ r :: r') = Some r) as Hfirst.
    { intros l r r' Hl Hr. induction l as [|x l IH]; cbn [app find].
      - now rewrite Hr.
      - cbn [find] in Hl. destruct (matches U x); [discriminate | now apply IH]. }
    rewrite (Hfirst _ _ _ Hnone); [reflexivity|].
    unfold matches. cbn [user]. apply String.eqb_refl.
Qed.

Lemma overlapping_adds_make_two_records_witness :
  exists s',
    add_overlapping
      (mkEnv [mkUser "5" "eve#3"; mkUser "7" "ann#1"; mkUser "9" "bob#2"] "2023-01-01")
      (add_args "9" "late") (mkInteraction (mkUser "7" "ann#1"))
      (add_args "9" "rude") (mkInteraction (mkUser "5" "eve#3"))
      (mkState (mkDb [] [] []) [])
    = Resolved (Some (successEmbed "Succesfully added that note"),
                Some (successEmbed "Succesfully added that note")) s'
    /\ docs (db s')
       = [ mkUserRecord "9" [mkNote "late" "7" "2023-01-01"];
           mkUserRecord "9" [mkNote "rude" "5" "2023-01-01"] ].
Proof.
  destruct (@overlapping_adds_make_two_records
              (mkEnv [mkUser "5" "eve#3"; mkUser "7" "ann#1"; mkUser "9" "bob#2"]
                     "2023-01-01")
              (mkInteraction (mkUser "7" "ann#1")) (mkInteraction (mkUser "5" "eve#3"))
              (mkState (mkDb [] [] []) []) "9" "late" "rude" (mkUser "9" "bob#2"))
    as (s' & Hrun & Hdocs & _).
  - reflexivity.
  - simpl. discriminate.
  - simpl. discriminate.
  - reflexivity.
  - reflexivity.
  - exists s'. split; [exact Hrun | exact Hdocs].
Defined.

End OverlappingAdds.
